(** * Serfers: resource ledger, grid path finding, construction protocol

    A shallow embedding of the simulation core of the settlement game:
    - [ResourceManager] (src/js/core/ResourceManager.js), the resource ledger;
    - [PathFinding] (utils/PathFinding.js), the grid search used by settlers;
    - [Sim] (Building.js, Warehouse.js, Woodcutter.js, Construction.js,
      Porter.js, Builder.js, World.js), buildings, construction sites, the
      porter and builder state machines and the world coordinator.
    - [Production] (Building.js, UIManager.js), [Fog] (World.js) and
      [MapGen] (utils/MapGen.js): production and upgrades of buildings,
      the fog of war and the smoothing pass of the terrain generator.

    Conventions of the embedding.
    - JavaScript numbers that the code only ever uses as integers are [Z].
    - A JavaScript object used as a dictionary is a [gmap]; [Object.entries]
      is [map_to_list] (the ledger operations do not depend on the order of
      the entries).
    - A function returns [None] where the JavaScript would throw or leave
      the integers (reading a property of [undefined], arithmetic on
      [undefined]), or where a loop would not stop within its fuel.
    - Rendering, logging and listener notification are left out: they do not
      write any field read by the simulation. *)

From Stdlib Require Import ZArith Lia.
From stdpp Require Import base strings numbers option list sets gmap.

Local Open Scope Z_scope.

(** ** Resource ledger *)

Module ResourceManager.

(** [this.resources] maps a resource name to its count; these are the
    constructor's starting values. *)
Definition initial : gmap string Z :=
  <["wood" := 20]> (<["stone" := 10]> (<["iron_ore" := 0]> (<["iron" := 0]>
  (<["plank" := 10]> (<["wheat" := 0]> (<["flour" := 0]> (<["bread" := 10]>
  (<["meat" := 5]> ∅)))))))).

(** Truthiness of [this.resources[type]]: defined and not zero. *)
Definition truthy (o : option Z) : bool :=
  match o with
  | Some v => negb (v =? 0)
  | None => false
  end.

(** [getResource(type)]: [this.resources[type] || 0]. *)
Definition getResource (res : gmap string Z) (type : string) : Z :=
  match res !! type with
  | Some v => if v =? 0 then 0 else v
  | None => 0
  end.

(** [addResource(type, amount)]; it always returns [true]. *)
Definition addResource (res : gmap string Z) (type : string) (amount : Z)
  : gmap string Z * bool :=
  let res1 := if truthy (res !! type) then res else <[type := 0]> res in
  (<[type := default 0 (res1 !! type) + amount]> res1, true).

(** [removeResource(type, amount)]. *)
Definition removeResource (res : gmap string Z) (type : string) (amount : Z)
  : gmap string Z * bool :=
  match res !! type with
  | Some v =>
      if negb (truthy (Some v)) || (v <? amount) then (res, false)
      else (<[type := v - amount]> res, true)
  | None => (res, false)
  end.

(** [consumeResource(type, amount)] forwards to [removeResource]. *)
Definition consumeResource := removeResource.

(** One test of the loop of [hasResources]. *)
Definition entry_ok (res : gmap string Z) (e : string * Z) : bool :=
  match res !! e.1 with
  | Some v => truthy (Some v) && negb (v <? e.2)
  | None => false
  end.

(** [hasResources(requirements)]. *)
Definition hasResources (res requirements : gmap string Z) : bool :=
  forallb (entry_ok res) (map_to_list requirements).

(** [this.resources[type] -= amount]; on a missing key JavaScript stores
    NaN, which the embedding reports as [None]. *)
Definition decrement (res : gmap string Z) (e : string * Z)
  : option (gmap string Z) :=
  v ← res !! e.1; Some (<[e.1 := v - e.2]> res).

Fixpoint consume_loop (es : list (string * Z)) (res : gmap string Z)
  : option (gmap string Z) :=
  match es with
  | [] => Some res
  | e :: es' => res' ← decrement res e; consume_loop es' res'
  end.

(** [consumeResources(requirements)]. *)
Definition consumeResources (res requirements : gmap string Z)
  : option (gmap string Z * bool) :=
  if negb (hasResources res requirements) then Some (res, false)
  else res' ← consume_loop (map_to_list requirements) res; Some (res', true).

(** [getAllResources()]: a copy of the dictionary. *)
Definition getAllResources (res : gmap string Z) : gmap string Z := res.

(** *** Calls and runs of calls *)

Inductive call :=
  | Add (type : string) (amount : Z)
  | Remove (type : string) (amount : Z)
  | ConsumeAll (requirements : gmap string Z).

Definition do_call (res : gmap string Z) (c : call) : option (gmap string Z) :=
  match c with
  | Add t n => Some (addResource res t n).1
  | Remove t n => Some (removeResource res t n).1
  | ConsumeAll reqs => fst <$> consumeResources res reqs
  end.

Fixpoint run (cs : list call) (res : gmap string Z) : option (gmap string Z) :=
  match cs with
  | [] => Some res
  | c :: cs' => res' ← do_call res c; run cs' res'
  end.

(** The amounts of a call are not negative. *)
Definition call_nonneg (c : call) : Prop :=
  match c with
  | Add _ n | Remove _ n => 0 ≤ n
  | ConsumeAll reqs => ∀ t a, reqs !! t = Some a → 0 ≤ a
  end.

(** Every required amount is covered by the current count (the condition of
    the specification). *)
Definition covered (res requirements : gmap string Z) : Prop :=
  ∀ t a, requirements !! t = Some a → a ≤ getResource res t.

(** Every required type has a count that is not zero and covers the
    required amount (the condition tested by [hasResources]). *)
Definition available (res requirements : gmap string Z) : Prop :=
  ∀ t a, requirements !! t = Some a →
    getResource res t ≠ 0 ∧ a ≤ getResource res t.

(** The ledger after every entry of [requirements] was decremented. *)
Definition decremented (res requirements res' : gmap string Z) : Prop :=
  ∀ t, res' !! t =
       match requirements !! t with
       | Some a => (λ v, v - a) <$> res !! t
       | None => res !! t
       end.

Definition nonneg (res : gmap string Z) : Prop :=
  ∀ t v, res !! t = Some v → 0 ≤ v.

(** Atomicity of [consumeResources] as the specification words it, with
    [covered] as the condition of success. *)
Definition consumeAll_spec (res requirements : gmap string Z) : Prop :=
  (covered res requirements →
     ∃ res', consumeResources res requirements = Some (res', true) ∧
             decremented res requirements res') ∧
  (¬ covered res requirements →
     consumeResources res requirements = Some (res, false)).

End ResourceManager.

(** ** Data model *)

(** utils/Enums.js *)
Inductive TerrainType :=
  GRASS | WATER | STONE | MOUNTAIN | FOREST | SAND | SNOW.

Inductive BuildingType :=
  | WAREHOUSE | WOODCUTTER | SAWMILL | STONEMASON | MINE
  | IRONSMITH | FARM | MILL | BAKERY | HUNTER.

Global Instance TerrainType_eq_dec : EqDecision TerrainType.
Proof. solve_decision. Defined.

Global Instance BuildingType_eq_dec : EqDecision BuildingType.
Proof. solve_decision. Defined.

(** [{ width, height }] *)
Record Size := { width : Z; height : Z }.

(** A tile of [world.terrain]. [building] is a reference (an identifier in
    [World.objects]) to the building or construction site on the tile, or
    [None] for [null]. The rendering height of a tile is left out. *)
Module Tile.
Record t := mk {
  type : TerrainType;
  building : option nat;
  buildable : bool
}.
End Tile.

(** The fields a construction site adds to a building. *)
Record Site := {
  targetBuildingType : BuildingType;
  progress : Z;
  requiredResources : gmap string Z;
  allocatedResources : gmap string Z
}.

(** A [Building] object; a [Construction] is a building ([class Construction
    extends Building]) with the site fields. Positions are pairs [(x, y)].
    Level, workers and the production timer are left out: no settler of the
    game is ever assigned to a building, so production never starts. *)
Module Entity.
Record t := mk {
  type : BuildingType;
  position : Z * Z;
  size : Size;
  interactionPoint : Z * Z;
  site : option Site
}.
End Entity.

(** utils/Enums.js, the two settler kinds that exist as classes. *)
Inductive SettlerType := PORTER | BUILDER.

(** A [Porter] or [Builder] object: the fields of [Settler] and of its two
    subclasses. [state] is the JavaScript string. [targetPosition] is kept as
    the grid cell whose world position the JavaScript stores. *)
Module Settler.
Record t := mk {
  type : SettlerType;
  position : Z * Z;
  state : string;
  path : list (Z * Z);
  targetPosition : option (Z * Z);
  isMoving : bool;
  carriedResource : option string;
  carriedAmount : Z;
  targetConstruction : option nat;
  resourceToFetch : option string;
  buildingTime : Z;
  currentBuildingTime : Z;
  isBuilding : bool
}.
End Settler.

(** The [World] object together with the objects it refers to: [objects] is
    the store of buildings and construction sites, [buildings] and
    [constructions] list references into it, [resources] is the ledger of
    [game.resourceManager]. [placementPreviewMesh] tells whether the preview
    mesh exists. *)
Module World.
Record t := mk {
  size : Size;
  tileSize : Z;
  terrain : list (list Tile.t);
  objects : gmap nat Entity.t;
  buildings : list nat;
  constructions : list nat;
  settlers : list Settler.t;
  resources : gmap string Z;
  buildingPlacementMode : bool;
  buildingTypeToPlace : option BuildingType;
  placementPreviewMesh : bool;
  placementValid : bool;
  placementGridPosition : option (Z * Z)
}.

(** [this.terrain[y][x]]; [None] where JavaScript finds no tile. *)
Definition tileAt (w : t) (x y : Z) : option Tile.t :=
  if (x <? 0) || (y <? 0) then None
  else row ← terrain w !! Z.to_nat y; row !! Z.to_nat x.

(** The terrain array has [size.height] rows of [size.width] tiles, and
    the buildings referred to by tiles are in the store. *)
Definition well_formed (w : t) : Prop :=
  0 ≤ width (size w) ∧ 0 ≤ height (size w) ∧
  length (terrain w) = Z.to_nat (height (size w)) ∧
  (∀ row, row ∈ terrain w → length row = Z.to_nat (width (size w))) ∧
  (∀ row tile id, row ∈ terrain w → tile ∈ row →
     Tile.building tile = Some id → is_Some (objects w !! id)).
End World.

(** ** Path finding (utils/PathFinding.js) *)

Module PathFinder.

(** The scores of the search are integers or [Infinity]. *)
Inductive score := Fin (n : Z) | Infinity.

(** [s + n] *)
Definition score_add (s : score) (n : Z) : score :=
  match s with
  | Fin m => Fin (m + n)
  | Infinity => Infinity
  end.

(** [map.get(k) || Infinity]: [undefined] and [0] give [Infinity]. *)
Definition or_Infinity (o : option score) : score :=
  match o with
  | Some (Fin n) => if n =? 0 then Infinity else Fin n
  | Some Infinity => Infinity
  | None => Infinity
  end.

(** [a >= b] *)
Definition score_ge (a b : score) : bool :=
  match a, b with
  | Fin m, Fin n => n <=? m
  | Fin _, Infinity => false
  | Infinity, _ => true
  end.

(** [a - b < 0], the test a sort makes with the comparator
    [(a, b) => a.f - b.f]. [Infinity - Infinity] is NaN, which a sort
    treats as [0]. *)
Definition score_lt (a b : score) : bool :=
  match a, b with
  | Fin m, Fin n => m <? n
  | Fin _, Infinity => true
  | Infinity, _ => false
  end.

(** An element of [openSet]. *)
Record node := { key : Z * Z; x : Z; y : Z; f : score }.

(** [Array.prototype.sort] with the comparator of [findPath]. The sort is
    stable; on this comparator (a total preorder on scores) every stable
    sort gives the same array, here computed by insertion. *)
Fixpoint insert_by_f (a : node) (l : list node) : list node :=
  match l with
  | [] => [a]
  | b :: l' => if score_lt (f b) (f a) then b :: insert_by_f a l'
               else a :: b :: l'
  end.

Fixpoint sort_by_f (l : list node) : list node :=
  match l with
  | [] => []
  | a :: l' => insert_by_f a (sort_by_f l')
  end.

(** The local variables of [findPath]. *)
Record search := {
  openSet : list node;
  closedSet : gset (Z * Z);
  cameFrom : gmap (Z * Z) (Z * Z);
  gScore : gmap (Z * Z) score;
  fScore : gmap (Z * Z) score
}.

(** [_nodeKey(x, y)]: the string ["x,y"], which determines the pair and is
    parsed back by [_reconstructPath]; the embedding keeps the pair. *)
Definition _nodeKey (x y : Z) : Z * Z := (x, y).

(** [_heuristic(x1, y1, x2, y2)] *)
Definition _heuristic (x1 y1 x2 y2 : Z) : Z := Z.abs (x1 - x2) + Z.abs (y1 - y2).

Definition out_of_bounds (w : World.t) (x y : Z) : bool :=
  (x <? 0) || (y <? 0) || (width (World.size w) <=? x)
  || (height (World.size w) <=? y).

(** [_isPassable(x, y)] *)
Definition _isPassable (w : World.t) (x y : Z) : option bool :=
  if out_of_bounds w x y then Some false
  else
    tile ← World.tileAt w x y;
    if bool_decide (Tile.type tile = WATER ∨ Tile.type tile = MOUNTAIN)
    then Some false
    else
      match Tile.building tile with
      | Some ref =>
          building ← World.objects w !! ref;
          let px := (Entity.position building).1 in
          let py := (Entity.position building).2 in
          if bool_decide (Entity.type building = WAREHOUSE) then
            let entryX := px + width (Entity.size building) - 1 in
            let entryY := py + height (Entity.size building) - 1 in
            Some ((x =? entryX) && (y =? entryY))
          else
            let isBottomEdge := y =? py + height (Entity.size building) - 1 in
            let isWithinBuilding :=
              (px <=? x) && (x <? px + width (Entity.size building)) in
            Some (isBottomEdge && isWithinBuilding)
      | None => Some true
      end.

(** [_createGrid()] *)
Definition _createGrid (w : World.t) : option (list (list bool)) :=
  mapM (λ y, mapM (λ x, _isPassable w x y) (seqZ 0 (width (World.size w))))
       (seqZ 0 (height (World.size w))).

Definition directions : list (Z * Z) := [(0, -1); (1, 0); (0, 1); (-1, 0)].

(** The body of the loop of [_getNeighbors]: [grid[newY]] must be a row,
    and the neighbour is kept when [grid[newY][newX]] is [true]. *)
Definition neighbor_at (w : World.t) (grid : list (list bool)) (x y : Z)
    (dir : Z * Z) : option (list (Z * Z)) :=
  let newX := x + dir.1 in
  let newY := y + dir.2 in
  if out_of_bounds w newX newY then Some []
  else
    row ← grid !! Z.to_nat newY;
    match row !! Z.to_nat newX with
    | Some true => Some [(newX, newY)]
    | _ => Some []
    end.

(** [_getNeighbors(x, y, grid)] *)
Definition _getNeighbors (w : World.t) (x y : Z) (grid : list (list bool))
  : option (list (Z * Z)) :=
  mjoin <$> mapM (neighbor_at w grid x y) directions.

(** The loop of [_reconstructPath]. *)
Fixpoint reconstruct_loop (fuel : nat) (cameFrom : gmap (Z * Z) (Z * Z))
    (current : Z * Z) (path : list (Z * Z)) : option (list (Z * Z)) :=
  match fuel with
  | O => None
  | S fuel' =>
      match cameFrom !! current with
      | Some previous => reconstruct_loop fuel' cameFrom previous (current :: path)
      | None => Some path
      end
  end.

(** [_reconstructPath(cameFrom, currentKey)]; a chain of predecessors that
    does not repeat a key is no longer than the map. *)
Definition _reconstructPath (cameFrom : gmap (Z * Z) (Z * Z))
    (currentKey : Z * Z) : option (list (Z * Z)) :=
  reconstruct_loop (S (size cameFrom)) cameFrom currentKey [].

Definition set_f (v : score) (n : node) : node :=
  {| key := key n; x := x n; y := y n; f := v |}.

(** The body of the loop over the neighbours of [current]. *)
Definition visit (endX endY : Z) (current : node) (st : search)
    (neighbor : Z * Z) : search :=
  let neighborKey := _nodeKey neighbor.1 neighbor.2 in
  if bool_decide (neighborKey ∈ closedSet st) then st
  else
    let tentativeGScore :=
      score_add (or_Infinity (gScore st !! key current)) 1 in
    let viaCurrent :=
      score_add tentativeGScore (_heuristic neighbor.1 neighbor.2 endX endY) in
    match list_find (λ n, key n = neighborKey) (openSet st) with
    | None =>
        {| openSet := openSet st ++
             [{| key := neighborKey; x := neighbor.1; y := neighbor.2;
                 f := viaCurrent |}];
           closedSet := closedSet st;
           cameFrom := <[neighborKey := key current]> (cameFrom st);
           gScore := <[neighborKey := tentativeGScore]> (gScore st);
           fScore := <[neighborKey := viaCurrent]> (fScore st) |}
    | Some (existingIndex, _) =>
        if score_ge tentativeGScore (or_Infinity (gScore st !! neighborKey))
        then st
        else
          {| openSet := alter (set_f viaCurrent) existingIndex (openSet st);
             closedSet := closedSet st;
             cameFrom := <[neighborKey := key current]> (cameFrom st);
             gScore := <[neighborKey := tentativeGScore]> (gScore st);
             fScore := <[neighborKey := viaCurrent]> (fScore st) |}
    end.

(** The [while] loop of [findPath]. *)
Fixpoint search_loop (fuel : nat) (w : World.t) (grid : list (list bool))
    (endX endY : Z) (st : search) : option (list (Z * Z)) :=
  match fuel with
  | O => None
  | S fuel' =>
      match sort_by_f (openSet st) with
      | [] => Some []
      | current :: rest =>
          if (x current =? endX) && (y current =? endY)
          then _reconstructPath (cameFrom st) (key current)
          else
            neighbors ← _getNeighbors w (x current) (y current) grid;
            search_loop fuel' w grid endX endY
              (foldl (visit endX endY current)
                 {| openSet := rest;
                    closedSet := {[key current]} ∪ closedSet st;
                    cameFrom := cameFrom st;
                    gScore := gScore st;
                    fScore := fScore st |}
                 neighbors)
      end
  end.

(** The state before the first iteration. *)
Definition start_search (startX startY endX endY : Z) : search :=
  let startNode := _nodeKey startX startY in
  let h := Fin (_heuristic startX startY endX endY) in
  {| openSet := [{| key := startNode; x := startX; y := startY; f := h |}];
     closedSet := ∅;
     cameFrom := ∅;
     gScore := {[ startNode := Fin 0 ]};
     fScore := {[ startNode := h ]} |}.

(** Every iteration that does not return moves a new key into [closedSet],
    and only the start and the cells of the grid get there. *)
Definition search_fuel (w : World.t) : nat :=
  Z.to_nat (width (World.size w) * height (World.size w)) + 2.

(** [findPath(startX, startY, endX, endY)] *)
Definition findPath (w : World.t) (startX startY endX endY : Z)
  : option (list (Z * Z)) :=
  grid ← _createGrid w;
  search_loop (search_fuel w) w grid endX endY
    (start_search startX startY endX endY).

(** *** Routes on the grid, for the statements about [findPath] *)

(** What [_isPassable] answers for a cell ([false] where it has no answer). *)
Definition passable (w : World.t) (c : Z * Z) : bool :=
  default false (_isPassable w c.1 c.2).

(** [c'] is one of the four neighbours of [c]. *)
Definition adjacent (c c' : Z * Z) : Prop :=
  Z.abs (c.1 - c'.1) + Z.abs (c.2 - c'.2) = 1.

(** One step of a route: to a neighbouring cell that is passable. *)
Definition step (w : World.t) (c c' : Z * Z) : Prop :=
  adjacent c c' ∧ passable w c' = true.

(** [route w c p c']: [p] lists the cells of a route from [c] to [c'],
    from the first cell after [c] to [c'] inclusive. *)
Inductive route (w : World.t) : Z * Z → list (Z * Z) → Z * Z → Prop :=
  | route_nil c : route w c [] c
  | route_cons c c1 p c' :
      step w c c1 → route w c1 p c' → route w c (c1 :: p) c'.

Definition manhattan (c c' : Z * Z) : Z := _heuristic c.1 c.2 c'.1 c'.2.

(** No obstacle between two cells: every cell of the rectangle they span,
    the first cell apart, is passable. *)
Definition clear_between (w : World.t) (c c' : Z * Z) : Prop :=
  ∀ x y, Z.min c.1 c'.1 ≤ x ≤ Z.max c.1 c'.1 →
         Z.min c.2 c'.2 ≤ y ≤ Z.max c.2 c'.2 →
         (x, y) ≠ c → passable w (x, y) = true.

(** *** The search as it runs, for the proofs about [findPath] *)

(** The neighbours [_getNeighbors] finds on the grid of [_createGrid]. *)
Definition nbrs (w : World.t) (c : Z * Z) : list (Z * Z) :=
  filter (λ c', passable w c' = true)
         ((λ d : Z * Z, (c.1 + d.1, c.2 + d.2)) <$> directions).

(** [grid] holds the answer of [_isPassable] for every cell in bounds. *)
Definition grid_of (w : World.t) (grid : list (list bool)) : Prop :=
  ∀ x y, out_of_bounds w x y = false →
    ∃ row, grid !! Z.to_nat y = Some row ∧
           row !! Z.to_nat x = Some (passable w (x, y)).

(** The keys waiting in [openSet]. *)
Definition keys (st : search) : list (Z * Z) := key <$> openSet st.

(** A key is discovered once it is closed or waiting. *)
Definition discovered (st : search) (k : Z * Z) : Prop :=
  k ∈ closedSet st ∨ k ∈ keys st.

(** The invariant of the search from [s] to [goal]. [d] is the depth of a
    discovered key in the tree of [cameFrom]. Every score but the one of the
    start is [Infinity] (the start has [gScore] 0, which [|| Infinity] turns
    into [Infinity]); so the sort leaves [openSet] in the order of insertion
    and the keys wait in the order of their depth. *)
Record core_inv (w : World.t) (s goal : Z * Z) (d : Z * Z → nat)
    (st : search) : Prop := {
  ci_nodes : ∀ n, n ∈ openSet st → key n = (x n, y n) ∧ f n = Infinity;
  ci_nodup : NoDup (keys st);
  ci_open_not_closed : ∀ k, k ∈ keys st → k ∉ closedSet st;
  ci_open_cells : ∀ k, k ∈ keys st → passable w k = true;
  ci_closed_cells : ∀ k, k ∈ closedSet st → k = s ∨ passable w k = true;
  ci_start : s ∈ closedSet st;
  ci_goal : goal ∉ closedSet st;
  ci_dom : ∀ k, is_Some (cameFrom st !! k) ↔ discovered st k ∧ k ≠ s;
  ci_parent : ∀ k p, cameFrom st !! k = Some p →
    p ∈ closedSet st ∧ step w p k ∧ d k = S (d p);
  ci_depth0 : d s = 0%nat;
  ci_depth_size : ∀ k, is_Some (cameFrom st !! k) →
    (d k ≤ size (cameFrom st))%nat;
  ci_gscore : ∀ k v, gScore st !! k = Some v → v = Fin 0 ∨ v = Infinity;
  ci_sorted : ∀ i j a b, (i ≤ j)%nat →
    keys st !! i = Some a → keys st !! j = Some b →
    (d a ≤ d b ≤ S (d a))%nat
}.

(** Between two iterations of the [while] loop. *)
Definition outer_inv w s goal d st : Prop :=
  core_inv w s goal d st ∧
  (∀ c c', c ∈ closedSet st → step w c c' →
     discovered st c' ∧ (d c' ≤ S (d c))%nat) ∧
  (∀ c q, c ∈ closedSet st → q ∈ keys st → (d c ≤ d q)%nat).

(** Inside the loop over the neighbours of [u]; [pend] are the neighbours
    still to visit. *)
Definition inner_inv w s goal d u (pend : list (Z * Z)) st : Prop :=
  core_inv w s goal d st ∧
  u ∈ closedSet st ∧
  (∀ c c', c ∈ closedSet st → step w c c' →
     (c = u ∧ c' ∈ pend) ∨ (discovered st c' ∧ (d c' ≤ S (d c))%nat)) ∧
  (∀ c, c ∈ closedSet st → (d c ≤ d u)%nat) ∧
  (∀ q, q ∈ keys st → (d u ≤ d q ≤ S (d u))%nat).

(** The cells in bounds. *)
Definition cells (w : World.t) : gset (Z * Z) :=
  list_to_set (list_prod (seqZ 0 (width (World.size w)))
                         (seqZ 0 (height (World.size w)))).

(** The result of a search from [s] to [goal]: a shortest route, or the
    empty list when there is no route. *)
Definition shortest_or_none (w : World.t) (s goal : Z * Z)
    (p : list (Z * Z)) : Prop :=
  (route w s p goal ∧ ∀ p', route w s p' goal → (length p ≤ length p')%nat) ∨
  (p = [] ∧ ∀ p', ¬ route w s p' goal).


(** *** A small world for examples: 4 by 4, water at (1,1), (2,1), (1,2)
    and (3,3), grass elsewhere, nothing built. *)

Definition grass : Tile.t := Tile.mk GRASS None true.
Definition water : Tile.t := Tile.mk WATER None false.

Definition pond : World.t :=
  World.mk {| width := 4; height := 4 |} 2
    [ [grass; grass; grass; grass];
      [grass; water; water; grass];
      [grass; water; grass; grass];
      [grass; grass; grass; water] ]
    ∅ [] [] [] ∅ false None false false None.

End PathFinder.

(** ** Buildings and construction sites *)

(** utils/Constants.js, [buildingCosts]. *)
Definition buildingCosts (type : BuildingType) : gmap string Z :=
  match type with
  | WAREHOUSE => {[ "plank" := 20; "stone" := 10 ]}
  | WOODCUTTER => {[ "plank" := 5 ]}
  | SAWMILL => {[ "plank" := 5; "stone" := 5 ]}
  | STONEMASON => {[ "plank" := 5 ]}
  | MINE => {[ "plank" := 5; "stone" := 10 ]}
  | IRONSMITH => {[ "plank" := 5; "stone" := 10 ]}
  | FARM => {[ "plank" := 5 ]}
  | MILL => {[ "plank" := 5; "stone" := 5 ]}
  | BAKERY => {[ "plank" := 5; "stone" := 10 ]}
  | HUNTER => {[ "plank" := 5 ]}
  end.

(** The footprint of a building type, as [Construction], [_isPlacementValid]
    and the building classes have it: 2 by 2 for the warehouse, else 1 by 1. *)
Definition footprint (type : option BuildingType) : Size :=
  {| width := if bool_decide (type = Some WAREHOUSE) then 2 else 1;
     height := if bool_decide (type = Some WAREHOUSE) then 2 else 1 |}.

Module Building.

(** The point [_defineInteractionPoint] stores, from the fields the object
    has when the method runs. *)
Definition _defineInteractionPoint (type : BuildingType) (position : Z * Z)
    (size : Size) : Z * Z :=
  if bool_decide (type = WAREHOUSE)
  then (position.1 + width size - 1, position.2 + height size - 1)
  else (position.1 + width size `div` 2, position.2 + height size - 1).

(** [new Building(world, x, y, type)]: the size is 1 by 1 when the
    constructor defines the interaction point. *)
Definition new (x y : Z) (type : BuildingType) : Entity.t :=
  let size := {| width := 1; height := 1 |} in
  Entity.mk type (x, y) size (_defineInteractionPoint type (x, y) size) None.

End Building.

Module Warehouse.
(** [new Warehouse(world, x, y)]: after [super(...)], the constructor sets
    the size to 2 by 2 and leaves the interaction point as it is. *)
Definition new (x y : Z) : Entity.t :=
  let this := Building.new x y WAREHOUSE in
  Entity.mk (Entity.type this) (Entity.position this)
    {| width := 2; height := 2 |}
    (Entity.interactionPoint this) (Entity.site this).
End Warehouse.

Module Woodcutter.
(** [new Woodcutter(world, x, y)] *)
Definition new (x y : Z) : Entity.t :=
  let this := Building.new x y WOODCUTTER in
  Entity.mk (Entity.type this) (Entity.position this)
    {| width := 1; height := 1 |}
    (Entity.interactionPoint this) (Entity.site this).
End Woodcutter.

Module Construction.

(** [new Construction(world, x, y, targetBuildingType)]: [super] is called
    with the warehouse type; the size is set from the target type and the
    interaction point is defined again. *)
Definition new (x y : Z) (target : BuildingType) : Entity.t :=
  let this := Building.new x y WAREHOUSE in
  let size := footprint (Some target) in
  let required := buildingCosts target in
  Entity.mk (Entity.type this) (Entity.position this) size
    (Building._defineInteractionPoint (Entity.type this) (Entity.position this) size)
    (Some {| targetBuildingType := target;
             progress := 0;
             requiredResources := required;
             allocatedResources := (λ _, 0) <$> required |}).

(** [_hasAllResources()]; a missing entry of [allocatedResources] compares
    as [false]. *)
Definition _hasAllResources (c : Site) : bool :=
  forallb (λ e : string * Z,
             match allocatedResources c !! e.1 with
             | Some v => e.2 <=? v
             | None => false
             end)
          (map_to_list (requiredResources c)).

End Construction.

(** The interaction point the specification designates for a structure at
    [position] with footprint [size]. *)
Definition designated_point (is_warehouse : bool) (position : Z * Z)
    (size : Size) : Z * Z :=
  if is_warehouse
  then (position.1 + (width size - 1), position.2 + (height size - 1))
  else (position.1 + width size `div` 2, position.2 + (height size - 1)).

(** ** Field updates *)

Definition set_site (c : Site) (e : Entity.t) : Entity.t :=
  Entity.mk (Entity.type e) (Entity.position e) (Entity.size e)
    (Entity.interactionPoint e) (Some c).

Definition set_progress (v : Z) (c : Site) : Site :=
  {| targetBuildingType := targetBuildingType c; progress := v;
     requiredResources := requiredResources c;
     allocatedResources := allocatedResources c |}.

Definition set_allocatedResources (v : gmap string Z) (c : Site) : Site :=
  {| targetBuildingType := targetBuildingType c; progress := progress c;
     requiredResources := requiredResources c;
     allocatedResources := v |}.

(** [SetSettler.f v r]: the record [r] with field [f] set to [v]. *)
Module SetSettler.
Definition position v s :=
  Settler.mk (Settler.type s) v (Settler.state s) (Settler.path s)
    (Settler.targetPosition s) (Settler.isMoving s)
    (Settler.carriedResource s) (Settler.carriedAmount s)
    (Settler.targetConstruction s) (Settler.resourceToFetch s)
    (Settler.buildingTime s) (Settler.currentBuildingTime s)
    (Settler.isBuilding s).
Definition state v s :=
  Settler.mk (Settler.type s) (Settler.position s) v (Settler.path s)
    (Settler.targetPosition s) (Settler.isMoving s)
    (Settler.carriedResource s) (Settler.carriedAmount s)
    (Settler.targetConstruction s) (Settler.resourceToFetch s)
    (Settler.buildingTime s) (Settler.currentBuildingTime s)
    (Settler.isBuilding s).
Definition path v s :=
  Settler.mk (Settler.type s) (Settler.position s) (Settler.state s) v
    (Settler.targetPosition s) (Settler.isMoving s)
    (Settler.carriedResource s) (Settler.carriedAmount s)
    (Settler.targetConstruction s) (Settler.resourceToFetch s)
    (Settler.buildingTime s) (Settler.currentBuildingTime s)
    (Settler.isBuilding s).
Definition targetPosition v s :=
  Settler.mk (Settler.type s) (Settler.position s) (Settler.state s)
    (Settler.path s) v (Settler.isMoving s) (Settler.carriedResource s)
    (Settler.carriedAmount s) (Settler.targetConstruction s)
    (Settler.resourceToFetch s) (Settler.buildingTime s)
    (Settler.currentBuildingTime s) (Settler.isBuilding s).
Definition isMoving v s :=
  Settler.mk (Settler.type s) (Settler.position s) (Settler.state s)
    (Settler.path s) (Settler.targetPosition s) v (Settler.carriedResource s)
    (Settler.carriedAmount s) (Settler.targetConstruction s)
    (Settler.resourceToFetch s) (Settler.buildingTime s)
    (Settler.currentBuildingTime s) (Settler.isBuilding s).
Definition carriedResource v s :=
  Settler.mk (Settler.type s) (Settler.position s) (Settler.state s)
    (Settler.path s) (Settler.targetPosition s) (Settler.isMoving s) v
    (Settler.carriedAmount s) (Settler.targetConstruction s)
    (Settler.resourceToFetch s) (Settler.buildingTime s)
    (Settler.currentBuildingTime s) (Settler.isBuilding s).
Definition carriedAmount v s :=
  Settler.mk (Settler.type s) (Settler.position s) (Settler.state s)
    (Settler.path s) (Settler.targetPosition s) (Settler.isMoving s)
    (Settler.carriedResource s) v (Settler.targetConstruction s)
    (Settler.resourceToFetch s) (Settler.buildingTime s)
    (Settler.currentBuildingTime s) (Settler.isBuilding s).
Definition targetConstruction v s :=
  Settler.mk (Settler.type s) (Settler.position s) (Settler.state s)
    (Settler.path s) (Settler.targetPosition s) (Settler.isMoving s)
    (Settler.carriedResource s) (Settler.carriedAmount s) v
    (Settler.resourceToFetch s) (Settler.buildingTime s)
    (Settler.currentBuildingTime s) (Settler.isBuilding s).
Definition resourceToFetch v s :=
  Settler.mk (Settler.type s) (Settler.position s) (Settler.state s)
    (Settler.path s) (Settler.targetPosition s) (Settler.isMoving s)
    (Settler.carriedResource s) (Settler.carriedAmount s)
    (Settler.targetConstruction s) v (Settler.buildingTime s)
    (Settler.currentBuildingTime s) (Settler.isBuilding s).
Definition currentBuildingTime v s :=
  Settler.mk (Settler.type s) (Settler.position s) (Settler.state s)
    (Settler.path s) (Settler.targetPosition s) (Settler.isMoving s)
    (Settler.carriedResource s) (Settler.carriedAmount s)
    (Settler.targetConstruction s) (Settler.resourceToFetch s)
    (Settler.buildingTime s) v (Settler.isBuilding s).
Definition isBuilding v s :=
  Settler.mk (Settler.type s) (Settler.position s) (Settler.state s)
    (Settler.path s) (Settler.targetPosition s) (Settler.isMoving s)
    (Settler.carriedResource s) (Settler.carriedAmount s)
    (Settler.targetConstruction s) (Settler.resourceToFetch s)
    (Settler.buildingTime s) (Settler.currentBuildingTime s) v.
End SetSettler.

(** [SetWorld.f v r]: the record [r] with field [f] set to [v]. *)
Module SetWorld.
Definition terrain v w :=
  World.mk (World.size w) (World.tileSize w) v (World.objects w)
    (World.buildings w) (World.constructions w) (World.settlers w)
    (World.resources w) (World.buildingPlacementMode w)
    (World.buildingTypeToPlace w) (World.placementPreviewMesh w)
    (World.placementValid w) (World.placementGridPosition w).
Definition objects v w :=
  World.mk (World.size w) (World.tileSize w) (World.terrain w) v
    (World.buildings w) (World.constructions w) (World.settlers w)
    (World.resources w) (World.buildingPlacementMode w)
    (World.buildingTypeToPlace w) (World.placementPreviewMesh w)
    (World.placementValid w) (World.placementGridPosition w).
Definition buildings v w :=
  World.mk (World.size w) (World.tileSize w) (World.terrain w)
    (World.objects w) v (World.constructions w) (World.settlers w)
    (World.resources w) (World.buildingPlacementMode w)
    (World.buildingTypeToPlace w) (World.placementPreviewMesh w)
    (World.placementValid w) (World.placementGridPosition w).
Definition constructions v w :=
  World.mk (World.size w) (World.tileSize w) (World.terrain w)
    (World.objects w) (World.buildings w) v (World.settlers w)
    (World.resources w) (World.buildingPlacementMode w)
    (World.buildingTypeToPlace w) (World.placementPreviewMesh w)
    (World.placementValid w) (World.placementGridPosition w).
Definition settlers v w :=
  World.mk (World.size w) (World.tileSize w) (World.terrain w)
    (World.objects w) (World.buildings w) (World.constructions w) v
    (World.resources w) (World.buildingPlacementMode w)
    (World.buildingTypeToPlace w) (World.placementPreviewMesh w)
    (World.placementValid w) (World.placementGridPosition w).
Definition resources v w :=
  World.mk (World.size w) (World.tileSize w) (World.terrain w)
    (World.objects w) (World.buildings w) (World.constructions w)
    (World.settlers w) v (World.buildingPlacementMode w)
    (World.buildingTypeToPlace w) (World.placementPreviewMesh w)
    (World.placementValid w) (World.placementGridPosition w).
Definition buildingPlacementMode v w :=
  World.mk (World.size w) (World.tileSize w) (World.terrain w)
    (World.objects w) (World.buildings w) (World.constructions w)
    (World.settlers w) (World.resources w) v (World.buildingTypeToPlace w)
    (World.placementPreviewMesh w) (World.placementValid w)
    (World.placementGridPosition w).
Definition buildingTypeToPlace v w :=
  World.mk (World.size w) (World.tileSize w) (World.terrain w)
    (World.objects w) (World.buildings w) (World.constructions w)
    (World.settlers w) (World.resources w) (World.buildingPlacementMode w) v
    (World.placementPreviewMesh w) (World.placementValid w)
    (World.placementGridPosition w).
Definition placementPreviewMesh v w :=
  World.mk (World.size w) (World.tileSize w) (World.terrain w)
    (World.objects w) (World.buildings w) (World.constructions w)
    (World.settlers w) (World.resources w) (World.buildingPlacementMode w)
    (World.buildingTypeToPlace w) v (World.placementValid w)
    (World.placementGridPosition w).
Definition placementValid v w :=
  World.mk (World.size w) (World.tileSize w) (World.terrain w)
    (World.objects w) (World.buildings w) (World.constructions w)
    (World.settlers w) (World.resources w) (World.buildingPlacementMode w)
    (World.buildingTypeToPlace w) (World.placementPreviewMesh w) v
    (World.placementGridPosition w).
Definition placementGridPosition v w :=
  World.mk (World.size w) (World.tileSize w) (World.terrain w)
    (World.objects w) (World.buildings w) (World.constructions w)
    (World.settlers w) (World.resources w) (World.buildingPlacementMode w)
    (World.buildingTypeToPlace w) (World.placementPreviewMesh w)
    (World.placementValid w) v.
End SetWorld.


(** The building or construction site behind a reference, with its site
    fields. *)
Definition site_of (w : World.t) (ref : nat) : option (Entity.t * Site) :=
  e ← World.objects w !! ref; c ← Entity.site e; Some (e, c).

(** [ref.f = ...] on the site fields of the object behind [ref]. *)
Definition update_site (f : Site → Site) (ref : nat) (w : World.t) : World.t :=
  SetWorld.objects
    (alter (λ e, match Entity.site e with
                 | Some c => set_site (f c) e
                 | None => e
                 end) ref (World.objects w)) w.

(** The tiles under a footprint, in the order of the loops
    [for y ... for x ...]. *)
Definition footprint_cells (position : Z * Z) (size : Size) : list (Z * Z) :=
  gy ← seqZ position.2 (height size);
  gx ← seqZ position.1 (width size);
  [(gx, gy)].

(** ** The world coordinator (core/World.js) *)

Module Coordinator.

Definition occupy (ref : nat) (tile : Tile.t) : Tile.t :=
  Tile.mk (Tile.type tile) (Some ref) false.

(** The body of the loops of [addBuilding] and [addConstruction]: in
    bounds, [terrain[y][x].building = ref] and [buildable = false]. *)
Definition mark_tile (w : World.t) (ref : nat) (terrain : list (list Tile.t))
    (c : Z * Z) : option (list (list Tile.t)) :=
  if PathFinder.out_of_bounds w c.1 c.2 then Some terrain
  else
    row ← terrain !! Z.to_nat c.2;
    _ ← row !! Z.to_nat c.1;
    Some (alter (alter (occupy ref) (Z.to_nat c.1)) (Z.to_nat c.2) terrain).

Fixpoint mark_tiles (w : World.t) (ref : nat) (cs : list (Z * Z))
    (terrain : list (list Tile.t)) : option (list (list Tile.t)) :=
  match cs with
  | [] => Some terrain
  | c :: cs' => terrain' ← mark_tile w ref terrain c; mark_tiles w ref cs' terrain'
  end.

(** The identity of an object made by [new]: a reference not yet in the
    store. *)
Definition new_ref (w : World.t) : nat := fresh (dom (World.objects w)).

(** [addBuilding(building)] *)
Definition addBuilding (w : World.t) (building : Entity.t) : option World.t :=
  let ref := new_ref w in
  terrain' ← mark_tiles w ref
    (footprint_cells (Entity.position building) (Entity.size building))
    (World.terrain w);
  Some (SetWorld.terrain terrain'
         (SetWorld.buildings (World.buildings w ++ [ref])
           (SetWorld.objects (<[ref := building]> (World.objects w)) w))).

(** [addConstruction(construction)] *)
Definition addConstruction (w : World.t) (construction : Entity.t)
  : option World.t :=
  let ref := new_ref w in
  terrain' ← mark_tiles w ref
    (footprint_cells (Entity.position construction) (Entity.size construction))
    (World.terrain w);
  Some (SetWorld.terrain terrain'
         (SetWorld.constructions (World.constructions w ++ [ref])
           (SetWorld.objects (<[ref := construction]> (World.objects w)) w))).

(** [completeConstruction(construction)] *)
Definition completeConstruction (w : World.t) (ref : nat) : option World.t :=
  '(e, c) ← site_of w ref;
  let w1 :=
    SetWorld.constructions
      (filter (λ r, r ≠ ref) (World.constructions w)) w in
  let x := (Entity.position e).1 in
  let y := (Entity.position e).2 in
  match targetBuildingType c with
  | WAREHOUSE => addBuilding w1 (Warehouse.new x y)
  | WOODCUTTER => addBuilding w1 (Woodcutter.new x y)
  | _ => Some w1
  end.

(** [Construction.update()] of the construction site behind [ref]. *)
Definition updateConstruction (w : World.t) (ref : nat) : option World.t :=
  '(_, c) ← site_of w ref;
  if 100 <=? progress c then completeConstruction w ref else Some w.

(** [cancelBuildingPlacement()] *)
Definition cancelBuildingPlacement (w : World.t) : World.t :=
  if negb (World.buildingPlacementMode w) then w
  else
    SetWorld.placementPreviewMesh false
      (SetWorld.buildingTypeToPlace None
        (SetWorld.buildingPlacementMode false w)).

(** [startBuildingPlacement(buildingType)] *)
Definition startBuildingPlacement (buildingType : BuildingType) (w : World.t)
  : World.t :=
  let w1 := if World.buildingPlacementMode w
            then cancelBuildingPlacement w else w in
  SetWorld.placementPreviewMesh true
    (SetWorld.buildingTypeToPlace (Some buildingType)
      (SetWorld.buildingPlacementMode true w1)).

(** The loops of [_isPlacementValid] over the tiles of the footprint. *)
Fixpoint tiles_free (w : World.t) (cs : list (Z * Z)) : option bool :=
  match cs with
  | [] => Some true
  | c :: cs' =>
      tile ← World.tileAt w c.1 c.2;
      if bool_decide (Tile.type tile ≠ GRASS) || bool_decide (is_Some (Tile.building tile))
      then Some false
      else tiles_free w cs'
  end.

(** [_isPlacementValid(x, y)] *)
Definition _isPlacementValid (w : World.t) (x y : Z) : option bool :=
  let size := footprint (World.buildingTypeToPlace w) in
  if (x <? 0) || (y <? 0) || (width (World.size w) <? x + width size)
     || (height (World.size w) <? y + height size)
  then Some false
  else
    free ← tiles_free w (footprint_cells (x, y) size);
    if negb free then Some false
    else
      type ← World.buildingTypeToPlace w;
      Some (ResourceManager.hasResources (World.resources w) (buildingCosts type)).

(** [_updatePlacementPreview()]; [hit] is the grid position under the
    mouse, if the ray from the camera meets the terrain. *)
Definition _updatePlacementPreview (w : World.t) (hit : option (Z * Z))
  : option World.t :=
  if negb (World.placementPreviewMesh w) then Some w
  else
    match hit with
    | Some gridPos =>
        valid ← _isPlacementValid w gridPos.1 gridPos.2;
        Some (SetWorld.placementGridPosition (Some gridPos)
               (SetWorld.placementValid valid w))
    | None => Some w
    end.

(** [_placeBuilding()] *)
Definition _placeBuilding (w : World.t) : option World.t :=
  if negb (World.placementValid w) then Some w
  else
    match World.placementGridPosition w with
    | None => Some w
    | Some (x, y) =>
        type ← World.buildingTypeToPlace w;
        consumed ← ResourceManager.consumeResources (World.resources w)
                     (buildingCosts type);
        w2 ← addConstruction (SetWorld.resources consumed.1 w)
               (Construction.new x y type);
        Some (cancelBuildingPlacement w2)
    end.

(** [_onClick(event)] in placement mode, when the ray of the click meets
    the scene; outside placement mode a click only opens a panel. *)
Definition _onClick (w : World.t) : option World.t :=
  if World.buildingPlacementMode w then
    if World.placementValid w then _placeBuilding w else Some w
  else Some w.

(** A placement of [type] at [(x, y)] as the interface runs it when the
    mouse is moved to the tile between the choice and the click: the type
    is chosen, the preview is moved to the tile, which checks the
    placement, and the click places the building. The three calls are
    those of the code; the sequence is one of those the interface allows,
    not a function of the code. *)
Definition placeBuilding (type : BuildingType) (x y : Z) (w : World.t)
  : option World.t :=
  w2 ← _updatePlacementPreview (startBuildingPlacement type w) (Some (x, y));
  _onClick w2.

End Coordinator.

(** ** Settlers (entities/Settler.js, settlers/Porter.js, settlers/Builder.js) *)

(** [distance < tileSize * factor] for the distance between the world
    positions of two grid cells, with [factor] in hundredths. The world
    position of a cell is [(cell - size / 2) * tileSize], so the distance is
    [tileSize] times the square root of an integer [n]; the comparison is
    [n < factor²], which floating point decides as the reals do for the
    factors used (1.2, 2 and 2.1). *)
Definition within (w : World.t) (a b : Z * Z) (percent : Z) : bool :=
  (0 <? World.tileSize w)
  && (10000 * ((a.1 - b.1) * (a.1 - b.1) + (a.2 - b.2) * (a.2 - b.2))
      <? percent * percent).

(** The property key JavaScript makes of [this.resourceToFetch], which is
    [undefined] until a construction in need is found. *)
Definition resource_key (r : option string) : string := default "undefined" r.

(** The property key JavaScript makes of [this.carriedResource], which is
    [null] from the constructor on and after every delivery. (A fetch
    copies [resourceToFetch] into it; an unset one is taken only from a
    ledger that counts a resource named [undefined].) *)
Definition carried_key (r : option string) : string := default "null" r.

Definition distance_to (position : Z * Z) (e : Entity.t) : Z :=
  Z.abs (position.1 - (Entity.position e).1)
  + Z.abs (position.2 - (Entity.position e).2).

(** The loop that keeps the first construction at the least distance. *)
Fixpoint closest_from (position : Z * Z) (best : option (nat * Entity.t * Site))
    (l : list (nat * Entity.t * Site)) : option (nat * Entity.t * Site) :=
  match l with
  | [] => best
  | c :: l' =>
      let better :=
        match best with
        | None => true
        | Some b => distance_to position c.1.2 <? distance_to position b.1.2
        end in
      closest_from position (if better then Some c else best) l'
  end.

(** The constructions of the world with their objects. *)
Definition sites (w : World.t) : option (list (nat * Entity.t * Site)) :=
  mapM (λ ref, '(e, c) ← site_of w ref; Some (ref, e, c)) (World.constructions w).

Module SettlerOps.

(** [moveTo(position)] *)
Definition moveTo (position : Z * Z) (this : Settler.t) : Settler.t :=
  SetSettler.isMoving true (SetSettler.targetPosition (Some position) this).

(** [followPath(path)]; the first move comes with the timer. *)
Definition followPath (path : list (Z * Z)) (this : Settler.t) : Settler.t :=
  SetSettler.targetPosition None
    (SetSettler.isMoving false (SetSettler.path path this)).

(** The timer of [followPath]: [moveTo(this.path.shift())]. *)
Definition path_timer (this : Settler.t) : Settler.t :=
  match Settler.path this with
  | c :: rest => moveTo c (SetSettler.path rest this)
  | [] => this
  end.

(** The timer of [_moveToTarget], which also tests [!this.isMoving]. *)
Definition leg_timer (this : Settler.t) : Settler.t :=
  if Settler.isMoving this then this else path_timer this.

(** [_moveToTarget()]. The position of the mesh is not part of the
    embedding: [arrived] is [Some gridPos] when this call finds the mesh
    within the threshold of the target (or teleports it there), with
    [gridPos] the grid position of the mesh, and [None] otherwise. *)
Definition _moveToTarget (arrived : option (Z * Z)) (this : Settler.t)
  : Settler.t :=
  match arrived with
  | Some gridPos =>
      SetSettler.position gridPos
        (SetSettler.targetPosition None (SetSettler.isMoving false this))
  | None => this
  end.

Definition moving (this : Settler.t) : bool :=
  Settler.isMoving this && bool_decide (is_Some (Settler.targetPosition this)).

(** The end of [_deliverResourceToConstruction] and [_moveToConstruction]:
    walk to [goal] along the path found, or straight when there is none or
    it is longer than ten cells. *)
Definition walk_to (w : World.t) (goal : Z * Z) (this : Settler.t)
  : option Settler.t :=
  path ← PathFinder.findPath w (Settler.position this).1
            (Settler.position this).2 goal.1 goal.2;
  if bool_decide (0 < length path)%nat then
    if bool_decide (10 < length path)%nat
    then Some (moveTo goal (SetSettler.targetPosition None this))
    else Some (followPath path (SetSettler.path [] this))
  else Some (moveTo goal (SetSettler.targetPosition None this)).

End SettlerOps.

Module Porter.
Import SettlerOps.

(** [new Porter(world, x, y)] *)
Definition new (x y : Z) : Settler.t :=
  Settler.mk PORTER (x, y) "IDLE" [] None false None 0 None None 0 0 false.

(** [Object.entries(requirements)], which lists the keys in the order of
    their insertion. The requirements of a construction are an entry of
    [buildingCosts] (utils/Constants.js), and every entry is written with
    [plank] before [stone]; keys of other names, which no entry has, follow
    them. *)
Definition entries (requirements : gmap string Z) : list (string * Z) :=
  omap (λ r, (λ a, (r, a)) <$> requirements !! r) ["plank"; "stone"]
  ++ filter (λ e : string * Z, e.1 ∉ ["plank"; "stone"])
       (map_to_list requirements).

(** The loop over the required resources: the first one of which less
    than the required amount is allocated, if any. *)
Definition first_missing (c : Site) : option string :=
  fst <$> head (filter (λ e : string * Z,
                          default 0 (allocatedResources c !! e.1) < e.2)
                       (entries (requiredResources c))).

(** [_findConstructionInNeedOfResources()] *)
Definition _findConstructionInNeedOfResources (w : World.t) (this : Settler.t)
  : option Settler.t :=
  all ← sites w;
  let constructions :=
    filter (λ c, Construction._hasAllResources c.2 = false) all in
  if bool_decide (0 < length constructions)%nat then
    closest ←
      match list_find (λ c, Some c.1.1 = Settler.targetConstruction this)
                      constructions with
      | Some (_, existing) => Some existing
      | None => closest_from (Settler.position this) None constructions
      end;
    let this1 := SetSettler.targetConstruction (Some closest.1.1) this in
    let this2 :=
      match first_missing closest.2 with
      | Some resourceType => SetSettler.resourceToFetch (Some resourceType) this1
      | None => this1
      end in
    Some (SetSettler.state "FETCHING_RESOURCE" this2)
  else Some this.

(** [_fetchResourceFromWarehouse()] *)
Definition _fetchResourceFromWarehouse (w : World.t) (this : Settler.t)
  : option (World.t * Settler.t) :=
  buildings ← mapM (λ ref, World.objects w !! ref) (World.buildings w);
  match list_find (λ b, Entity.type b = WAREHOUSE) buildings with
  | None => Some (w, SetSettler.state "IDLE" this)
  | Some (_, warehouse) =>
      target ←
        match Settler.targetConstruction this with
        | Some ref => Some <$> site_of w ref
        | None => Some None
        end;
      if match target with
         | Some t => Construction._hasAllResources t.2
         | None => false
         end
      then
        Some (w, SetSettler.state "IDLE"
                   (SetSettler.carriedAmount 0
                     (SetSettler.carriedResource None this)))
      else if within w (Settler.position this)
                (Entity.interactionPoint warehouse) 210
      then
        let type := resource_key (Settler.resourceToFetch this) in
        if 0 <? ResourceManager.getResource (World.resources w) type then
          let removed :=
            ResourceManager.removeResource (World.resources w) type 1 in
          Some (SetWorld.resources removed.1 w,
                SetSettler.path []
                  (SetSettler.isMoving false
                    (SetSettler.targetPosition None
                      (SetSettler.state "DELIVERING_RESOURCE"
                        (SetSettler.carriedAmount 1
                          (SetSettler.carriedResource
                             (Settler.resourceToFetch this) this))))))
        else Some (w, this)
      else
        Some (w, moveTo (Entity.interactionPoint warehouse)
                   (SetSettler.targetPosition None this))
  end.

(** [_deliverResourceToConstruction()] *)
Definition _deliverResourceToConstruction (w : World.t) (this : Settler.t)
  : option (World.t * Settler.t) :=
  let dropped :=
    SetSettler.state "IDLE"
      (SetSettler.carriedAmount 0 (SetSettler.carriedResource None this)) in
  match Settler.targetConstruction this with
  | None => Some (w, dropped)
  | Some ref =>
      if bool_decide (ref ∉ World.constructions w) then Some (w, dropped)
      else
        '(e, c) ← site_of w ref;
        if within w (Settler.position this) (Entity.interactionPoint e) 120
        then
          let key := carried_key (Settler.carriedResource this) in
          let allocated :=
            <[key := default 0 (allocatedResources c !! key)
                     + Settler.carriedAmount this]> (allocatedResources c) in
          let w1 := update_site (set_allocatedResources allocated) ref w in
          let this1 :=
            SetSettler.path []
              (SetSettler.isMoving false
                (SetSettler.targetPosition None
                  (SetSettler.carriedAmount 0
                    (SetSettler.carriedResource None this)))) in
          if negb (Construction._hasAllResources
                     (set_allocatedResources allocated c))
          then Some (w1, SetSettler.state "FETCHING_RESOURCE" this1)
          else Some (w1, SetSettler.state "IDLE"
                           (SetSettler.targetConstruction None this1))
        else
          this1 ← walk_to w (Entity.interactionPoint e) this;
          Some (w, this1)
  end.

(** The [switch] of [update()]. *)
Definition handle (w : World.t) (this : Settler.t)
  : option (World.t * Settler.t) :=
  if bool_decide (Settler.state this = "IDLE") then
    this1 ← _findConstructionInNeedOfResources w this; Some (w, this1)
  else if bool_decide (Settler.state this = "FETCHING_RESOURCE") then
    _fetchResourceFromWarehouse w this
  else if bool_decide (Settler.state this = "DELIVERING_RESOURCE") then
    _deliverResourceToConstruction w this
  else
    Some (w, SetSettler.path []
               (SetSettler.isMoving false
                 (SetSettler.targetPosition None
                   (SetSettler.state "IDLE" this)))).

(** [update()] *)
Definition update (arrived : option (Z * Z)) (w : World.t) (this : Settler.t)
  : option (World.t * Settler.t) :=
  if moving this then Some (w, _moveToTarget arrived this)
  else handle w this.

(** The timers set by the handlers: each calls its handler again if the
    state is still the one that set the timer. *)
Definition retry (w : World.t) (this : Settler.t)
  : option (World.t * Settler.t) :=
  if bool_decide (Settler.state this = "IDLE") then
    this1 ← _findConstructionInNeedOfResources w this; Some (w, this1)
  else if bool_decide (Settler.state this = "FETCHING_RESOURCE") then
    _fetchResourceFromWarehouse w this
  else Some (w, this).

End Porter.

Module Builder.
Import SettlerOps.

(** The time of a frame, 16.67 ms, and the building time, 5000 ms, in
    hundredths of a millisecond. *)
Definition frame_time : Z := 1667.

(** [new Builder(world, x, y)] *)
Definition new (x y : Z) : Settler.t :=
  Settler.mk BUILDER (x, y) "IDLE" [] None false None 0 None None 500000 0 false.

(** [_findConstructionToBuild()] *)
Definition _findConstructionToBuild (w : World.t) (this : Settler.t)
  : option Settler.t :=
  all ← sites w;
  let readyConstructions :=
    filter (λ c, Construction._hasAllResources c.2 = true ∧ progress c.2 < 100)
           all in
  if bool_decide (0 < length readyConstructions)%nat then
    closest ← closest_from (Settler.position this) None readyConstructions;
    Some (SetSettler.state "MOVING_TO_CONSTRUCTION"
           (SetSettler.targetConstruction (Some closest.1.1) this))
  else Some this.

(** [_moveToConstruction()] *)
Definition _moveToConstruction (w : World.t) (this : Settler.t)
  : option Settler.t :=
  let reset :=
    SetSettler.state "IDLE" (SetSettler.targetConstruction None this) in
  match Settler.targetConstruction this with
  | None => Some reset
  | Some ref =>
      if bool_decide (ref ∉ World.constructions w) then Some reset
      else
        '(e, _) ← site_of w ref;
        if within w (Settler.position this) (Entity.interactionPoint e) 200
        then
          Some (SetSettler.currentBuildingTime 0
                 (SetSettler.isBuilding true
                   (SetSettler.state "BUILDING" this)))
        else
          path ← PathFinder.findPath w (Settler.position this).1
                    (Settler.position this).2 (Entity.interactionPoint e).1
                    (Entity.interactionPoint e).2;
          if bool_decide (0 < length path)%nat then
            if bool_decide (10 < length path)%nat
            then Some (moveTo (Entity.interactionPoint e) this)
            else Some (followPath path this)
          else Some (moveTo (Entity.interactionPoint e) this)
  end.

(** [_performBuilding()] *)
Definition _performBuilding (w : World.t) (this : Settler.t)
  : option (World.t * Settler.t) :=
  let reset :=
    SetSettler.state "IDLE"
      (SetSettler.targetConstruction None
        (SetSettler.isBuilding false this)) in
  match Settler.targetConstruction this with
  | None => Some (w, reset)
  | Some ref =>
      if bool_decide (ref ∉ World.constructions w) then Some (w, reset)
      else
        let this1 :=
          SetSettler.currentBuildingTime
            (Settler.currentBuildingTime this + frame_time) this in
        if Settler.buildingTime this1 <=? Settler.currentBuildingTime this1
        then
          _ ← site_of w ref;
          Some (update_site (set_progress 100) ref w,
                SetSettler.state "IDLE"
                  (SetSettler.targetConstruction None
                    (SetSettler.isBuilding false this1)))
        else Some (w, this1)
  end.

(** The [switch] of [update()]; it has no default case. *)
Definition handle (w : World.t) (this : Settler.t)
  : option (World.t * Settler.t) :=
  if bool_decide (Settler.state this = "IDLE") then
    this1 ← _findConstructionToBuild w this; Some (w, this1)
  else if bool_decide (Settler.state this = "MOVING_TO_CONSTRUCTION") then
    this1 ← _moveToConstruction w this; Some (w, this1)
  else if bool_decide (Settler.state this = "BUILDING") then
    _performBuilding w this
  else Some (w, this).

(** [update()] *)
Definition update (arrived : option (Z * Z)) (w : World.t) (this : Settler.t)
  : option (World.t * Settler.t) :=
  if moving this then Some (w, _moveToTarget arrived this)
  else handle w this.

(** The timer of [_findConstructionToBuild]. *)
Definition retry (w : World.t) (this : Settler.t) : option Settler.t :=
  if bool_decide (Settler.state this = "IDLE")
  then _findConstructionToBuild w this
  else Some this.

End Builder.

(** ** The frame loop and the events of the simulation *)

Module Game.

(** [settler.update()] for the settler at index [i] of [world.settlers]. *)
Definition updateSettler (arrived : option (Z * Z)) (w : World.t) (i : nat)
  : option World.t :=
  this ← World.settlers w !! i;
  '(w1, this1) ←
    match Settler.type this with
    | PORTER => Porter.update arrived w this
    | BUILDER => Builder.update arrived w this
    end;
  Some (SetWorld.settlers (<[i := this1]> (World.settlers w1)) w1).

(** A timer of the settler at index [i] fires. *)
Inductive timer := Retry | PathTimer | LegTimer.

Definition fireTimer (t : timer) (w : World.t) (i : nat) : option World.t :=
  this ← World.settlers w !! i;
  '(w1, this1) ←
    match t with
    | Retry =>
        match Settler.type this with
        | PORTER => Porter.retry w this
        | BUILDER => this1 ← Builder.retry w this; Some (w, this1)
        end
    | PathTimer => Some (w, SettlerOps.path_timer this)
    | LegTimer => Some (w, SettlerOps.leg_timer this)
    end;
  Some (SetWorld.settlers (<[i := this1]> (World.settlers w1)) w1).

(** What can happen to the world: the calls of the frame loop, the timers
    and the commands of the interface. *)
Inductive event :=
  | UpdateSettler (i : nat) (arrived : option (Z * Z))
  | Timer (t : timer) (i : nat)
  | UpdateConstruction (ref : nat)
  | MovePreview (hit : option (Z * Z))
  | Click
  | StartPlacement (type : BuildingType)
  | CancelPlacement.

Definition perform (w : World.t) (ev : event) : option World.t :=
  match ev with
  | UpdateSettler i arrived => updateSettler arrived w i
  | Timer t i => fireTimer t w i
  | UpdateConstruction ref => Coordinator.updateConstruction w ref
  | MovePreview hit => Coordinator._updatePlacementPreview w hit
  | Click => Coordinator._onClick w
  | StartPlacement type => Some (Coordinator.startBuildingPlacement type w)
  | CancelPlacement => Some (Coordinator.cancelBuildingPlacement w)
  end.

Fixpoint performAll (w : World.t) (evs : list event) : option World.t :=
  match evs with
  | [] => Some w
  | ev :: evs' => w1 ← perform w ev; performAll w1 evs'
  end.

(** The calls of [World.update()] in one frame: every settler, every
    building (whose [update] does nothing while it is not producing), every
    construction of the list as it is when its loop starts, and the preview
    in placement mode. [arrivals] gives the outcome of the moves. *)
Definition frame_settlers (arrivals : nat → option (Z * Z)) (w : World.t)
  : list event :=
  (λ i, UpdateSettler i (arrivals i)) <$> seq 0 (length (World.settlers w)).

Definition update (arrivals : nat → option (Z * Z)) (hit : option (Z * Z))
    (w : World.t) : option World.t :=
  w1 ← performAll w (frame_settlers arrivals w);
  w2 ← performAll w1 (UpdateConstruction <$> World.constructions w1);
  if World.buildingPlacementMode w2 then perform w2 (MovePreview hit)
  else Some w2.

Fixpoint frames (n : nat) (w : World.t) : option World.t :=
  match n with
  | O => Some w
  | S n' => w1 ← update (λ _, None) None w; frames n' w1
  end.

End Game.

(** ** Statements about the progress of a construction *)

(** The step from [w] to [w'] leaves the progress of every construction
    site as it was; a site that is new in [w'] has progress 0. *)
Definition progress_kept (w w' : World.t) : Prop :=
  ∀ ref e' c', site_of w' ref = Some (e', c') →
    progress c' = 0 ∨
    ∃ e c, site_of w ref = Some (e, c) ∧ progress c' = progress c.

(** In the step from [w] to [w'] the progress of the site behind [ref]
    reaches 100. *)
Definition reaches_100 (w w' : World.t) (ref : nat) : Prop :=
  (∃ e' c', site_of w' ref = Some (e', c') ∧ 100 ≤ progress c') ∧
  ¬ (∃ e c, site_of w ref = Some (e, c) ∧ 100 ≤ progress c).

(** The settler at index [i] is a builder at rest in the state Building
    whose target [ref] is a construction of the world and whose building
    time is complete with this frame. *)
Definition builder_finishes (w : World.t) (i : nat) (ref : nat) : Prop :=
  ∃ this, World.settlers w !! i = Some this ∧
    Settler.type this = BUILDER ∧
    SettlerOps.moving this = false ∧
    Settler.state this = "BUILDING" ∧
    Settler.targetConstruction this = Some ref ∧
    ref ∈ World.constructions w ∧
    Settler.buildingTime this
      ≤ Settler.currentBuildingTime this + Builder.frame_time.

(** A construction whose progress is at least 100 is, at its update, taken
    off the list of constructions and replaced by a building of its target
    type at its position. *)
Definition replaced_by_building (w : World.t) (ref : nat) : Prop :=
  ∀ e c, site_of w ref = Some (e, c) → 100 ≤ progress c →
    ∃ w' new b, Coordinator.updateConstruction w ref = Some w' ∧
      (ref ∉ World.constructions w') ∧
      World.objects w !! new = None ∧
      World.buildings w' = World.buildings w ++ [new] ∧
      World.objects w' !! new = Some b ∧
      Entity.site b = None ∧
      Entity.type b = targetBuildingType c ∧
      Entity.position b = Entity.position e.

(** ** Statements about placement *)

(** A tile is grass and nothing stands on it. *)
Definition tile_free (w : World.t) (c : Z * Z) : Prop :=
  ∃ tile, World.tileAt w c.1 c.2 = Some tile ∧
          Tile.type tile = GRASS ∧ Tile.building tile = None.

(** Every tile of the footprint of a building of [type] at [(x, y)] is in
    bounds, grass and unoccupied. *)
Definition site_free (w : World.t) (type : BuildingType) (x y : Z) : Prop :=
  ∀ c, c ∈ footprint_cells (x, y) (footprint (Some type)) →
       PathFinder.out_of_bounds w c.1 c.2 = false ∧ tile_free w c.

(** ** Statements about the porter at the warehouse *)

(** The warehouse the porter finds: the first building of the world of
    warehouse type. *)
Definition finds_warehouse (w : World.t) (warehouse : Entity.t) : Prop :=
  ∃ buildings i,
    mapM (λ ref, World.objects w !! ref) (World.buildings w) = Some buildings ∧
    list_find (λ b, Entity.type b = WAREHOUSE) buildings = Some (i, warehouse).

(** The porter is in the state FetchingResource within the threshold of
    the interaction point of the warehouse, carrying nothing. *)
Definition fetching_at_warehouse (w : World.t) (this : Settler.t) : Prop :=
  Settler.state this = "FETCHING_RESOURCE" ∧
  Settler.carriedResource this = None ∧ Settler.carriedAmount this = 0 ∧
  ∃ warehouse, finds_warehouse w warehouse ∧
    within w (Settler.position this) (Entity.interactionPoint warehouse) 210
      = true.

(** The outcome of an attempt to fetch, as the specification words it:
    without the resource the porter stays as it is; with it, one unit leaves
    the ledger and the porter delivers it. *)
Definition fetch_outcome (w : World.t) (this : Settler.t) : Prop :=
  let type := resource_key (Settler.resourceToFetch this) in
  (ResourceManager.getResource (World.resources w) type = 0 →
   ∃ w' this', Porter._fetchResourceFromWarehouse w this = Some (w', this') ∧
     Settler.state this' = "FETCHING_RESOURCE" ∧
     Settler.carriedResource this' = None ∧ Settler.carriedAmount this' = 0) ∧
  (0 < ResourceManager.getResource (World.resources w) type →
   ∃ w' this', Porter._fetchResourceFromWarehouse w this = Some (w', this') ∧
     ResourceManager.getResource (World.resources w') type
       = ResourceManager.getResource (World.resources w) type - 1 ∧
     (∀ t, t ≠ type → World.resources w' !! t = World.resources w !! t) ∧
     Settler.state this' = "DELIVERING_RESOURCE" ∧
     Settler.carriedResource this' = Settler.resourceToFetch this ∧
     Settler.carriedAmount this' = 1).

(** The construction the porter serves, if it has one, still lacks
    resources. *)
Definition target_in_need (w : World.t) (this : Settler.t) : Prop :=
  match Settler.targetConstruction this with
  | Some ref => ∃ e c, site_of w ref = Some (e, c) ∧
                       Construction._hasAllResources c = false
  | None => True
  end.

(** ** Example worlds *)

Module Examples.

(** A meadow of 6 by 4 grass tiles with the starting ledger. *)
Definition field : World.t :=
  World.mk {| width := 6; height := 4 |} 2
    (replicate 4 (replicate 6 PathFinder.grass)) ∅ [] [] []
    ResourceManager.initial false None false false None.

(** The meadow with a warehouse at (1,1) (reference 0) and, placed through
    the interface, the construction site of a woodcutter at (3,1)
    (reference 1); the placement leaves 5 planks in the ledger. *)
Definition site_placed : option World.t :=
  w ← Coordinator.addBuilding field (Warehouse.new 1 1);
  Coordinator.placeBuilding WOODCUTTER 3 1 w.

(** The same with [extra] more planks in the ledger, two porters standing at
    (2,1), next to both interaction points, and a builder at (3,0). *)
Definition camp (extra : Z) : option World.t :=
  w ← site_placed;
  Some (SetWorld.settlers [Porter.new 2 1; Porter.new 2 1; Builder.new 3 0]
         (SetWorld.resources
            (ResourceManager.addResource (World.resources w) "plank" extra).1
            w)).

(** The meadow with a warehouse and a fully resourced construction site of
    a sawmill at (3,1) (reference 1), its builder done. *)
Definition sawmill_built : option World.t :=
  w ← Coordinator.addBuilding field (Warehouse.new 1 1);
  w1 ← Coordinator.placeBuilding SAWMILL 3 1 w;
  Some (update_site (set_progress 100) 1%nat w1).

(** The camp after 307 frames: the site has its 5 planks and the builder
    has built on it for 299 frames. *)
Definition almost_built : option World.t :=
  w ← camp 0; Game.frames 307 w.

(** The camp after six frames and the update of the first porter in the
    seventh, which delivers the last plank the site needs; with it the
    second porter, which is fetching. *)
Definition late_fetch : option (World.t * Settler.t) :=
  w ← camp 0;
  w6 ← Game.frames 6 w;
  w7 ← Game.perform w6 (Game.UpdateSettler 0 None);
  this ← World.settlers w7 !! 1%nat;
  Some (w7, this).

End Examples.

(** * Further parts of the program *)

(** ** Allocation by the construction site itself (Construction.js) *)

Module Allocation.

(** The state of the loop of [_allocateResources]: the ledger, the
    dictionary [allocatedResources] and the flag [resourcesAllocated]. *)
Record state := {
  ledger : gmap string Z;
  allocated : gmap string Z;
  resourcesAllocated : bool
}.

(** The body of the [forEach] of [_allocateResources] for the entry
    [[resource, amount]]. Where [allocatedResources[resource]] is missing,
    [neededAmount] is NaN and the test [neededAmount > 0] fails. The result
    of [consumeResource] is not looked at. *)
Definition allocate_entry (st : state) (e : string * Z) : state :=
  match allocated st !! e.1 with
  | None => st
  | Some already =>
      let neededAmount := e.2 - already in
      if 0 <? neededAmount then
        let available := ResourceManager.getResource (ledger st) e.1 in
        if 0 <? available then
          {| ledger := (ResourceManager.consumeResource (ledger st) e.1 1).1;
             allocated := <[e.1 := already + 1]> (allocated st);
             resourcesAllocated := true |}
        else st
      else st
  end.

(** [_allocateResources()] of the site [c] on the ledger [res]. *)
Definition _allocateResources (res : gmap string Z) (c : Site) : state :=
  foldl allocate_entry
    {| ledger := res; allocated := allocatedResources c;
       resourcesAllocated := false |}
    (map_to_list (requiredResources c)).

(** The amount allocated of a resource, [0] where there is no entry. *)
Definition amount (allocated : gmap string Z) (r : string) : Z :=
  default 0 (allocated !! r).

End Allocation.


(** Frames of a builder at work. *)
Module Work.
(** [n] calls of [update()] of a builder, one per frame, with no arrival. *)
Fixpoint build_frames (n : nat) (w : World.t) (this : Settler.t)
  : option (World.t * Settler.t) :=
  match n with
  | O => Some (w, this)
  | S n' => '(w1, this1) ← Builder.update None w this; build_frames n' w1 this1
  end.
End Work.


(** ** Production and upgrades (entities/Building.js, ui/UIManager.js) *)

Module Production.

(** An entry of [productionChains] (utils/Constants.js): what a building
    type consumes per unit and the resource and rate it produces. *)
Record chain := {
  chain_consumes : option (gmap string Z);
  chain_produces : option (string * Z)
}.

Definition productionChains (type : BuildingType) : chain :=
  match type with
  | WAREHOUSE => {| chain_consumes := None; chain_produces := None |}
  | WOODCUTTER =>
      {| chain_consumes := None; chain_produces := Some ("wood", 1) |}
  | SAWMILL =>
      {| chain_consumes := Some {[ "wood" := 1 ]};
         chain_produces := Some ("plank", 1) |}
  | STONEMASON =>
      {| chain_consumes := None; chain_produces := Some ("stone", 1) |}
  | MINE =>
      {| chain_consumes := None; chain_produces := Some ("iron_ore", 1) |}
  | IRONSMITH =>
      {| chain_consumes := Some {[ "iron_ore" := 1 ]};
         chain_produces := Some ("iron", 1) |}
  | FARM =>
      {| chain_consumes := None; chain_produces := Some ("wheat", 1) |}
  | MILL =>
      {| chain_consumes := Some {[ "wheat" := 1 ]};
         chain_produces := Some ("flour", 1) |}
  | BAKERY =>
      {| chain_consumes := Some {[ "flour" := 1 ]};
         chain_produces := Some ("bread", 1) |}
  | HUNTER =>
      {| chain_consumes := None; chain_produces := Some ("meat", 1) |}
  end.

(** The production and upgrade fields of a [Building]. Times are in
    hundredths of a millisecond; workers are named by their index in
    [world.settlers]. *)
Record t := mk {
  type : BuildingType;
  level : Z;
  maxLevel : Z;
  isProducing : bool;
  produces : option (string * Z);
  consumes : option (gmap string Z);
  upgradeCost : gmap string Z;
  productionTimer : Z;
  productionTime : Z;
  workers : list nat
}.

(** The fields as the constructor of [Building] sets them. *)
Definition new (type : BuildingType) : t :=
  mk type 1 3 false
     (chain_produces (productionChains type))
     (chain_consumes (productionChains type))
     {[ "plank" := 10 * 1; "stone" := 5 * 1 ]} 0 500000 [].

(** The constructor of [Warehouse] then raises the upgrade costs. *)
Definition newWarehouse : t :=
  let this := new WAREHOUSE in
  mk (type this) (level this) (maxLevel this) (isProducing this)
     (produces this) (consumes this)
     {[ "plank" := 20 * level this; "stone" := 10 * level this ]}
     (productionTimer this) (productionTime this) (workers this).

Definition set_isProducing (v : bool) (this : t) : t :=
  mk (type this) (level this) (maxLevel this) v (produces this)
     (consumes this) (upgradeCost this) (productionTimer this)
     (productionTime this) (workers this).

Definition set_productionTimer (v : Z) (this : t) : t :=
  mk (type this) (level this) (maxLevel this) (isProducing this)
     (produces this) (consumes this) (upgradeCost this) v
     (productionTime this) (workers this).

Definition set_workers (v : list nat) (this : t) : t :=
  mk (type this) (level this) (maxLevel this) (isProducing this)
     (produces this) (consumes this) (upgradeCost this)
     (productionTimer this) (productionTime this) v.

(** [stopProduction()] *)
Definition stopProduction (this : t) : t := set_isProducing false this.

(** [startProduction()] on the ledger [res]. *)
Definition startProduction (res : gmap string Z) (this : t)
  : option (gmap string Z * t * bool) :=
  match consumes this with
  | Some inputs =>
      if negb (ResourceManager.hasResources res inputs)
      then Some (res, this, false)
      else
        consumed ← ResourceManager.consumeResources res inputs;
        Some (consumed.1, set_isProducing true this, true)
  | None => Some (res, set_isProducing true this, true)
  end.

(** [_produce()] *)
Definition _produce (res : gmap string Z) (this : t)
  : option (gmap string Z * t) :=
  match produces this with
  | None => Some (res, this)
  | Some (resource, rate) =>
      let res1 :=
        (ResourceManager.addResource res resource (rate * level this)).1 in
      match consumes this with
      | Some inputs =>
          if ResourceManager.hasResources res1 inputs then
            consumed ← ResourceManager.consumeResources res1 inputs;
            Some (consumed.1, this)
          else Some (res1, stopProduction this)
      | None => Some (res1, this)
      end
  end.

(** [update()], one frame of 16.67 ms. *)
Definition update (res : gmap string Z) (this : t)
  : option (gmap string Z * t) :=
  if negb (isProducing this) || bool_decide (produces this = None)
  then Some (res, this)
  else
    let this1 := set_productionTimer (productionTimer this + 1667) this in
    if productionTime this1 <=? productionTimer this1
    then _produce res (set_productionTimer 0 this1)
    else Some (res, this1).

(** [upgrade()] *)
Definition upgrade (this : t) : t * bool :=
  if maxLevel this <=? level this then (this, false)
  else
    let level' := level this + 1 in
    (mk (type this) level' (maxLevel this) (isProducing this)
        (produces this) (consumes this)
        {[ "plank" := 10 * level'; "stone" := 5 * level' ]}
        (productionTimer this) (productionTime this) (workers this),
     true).

(** [assignWorker(worker)]; the result of [startProduction] is dropped. *)
Definition assignWorker (worker : nat) (res : gmap string Z) (this : t)
  : option (gmap string Z * t) :=
  let this1 := set_workers (workers this ++ [worker]) this in
  if bool_decide (0 < length (workers this1))%nat
     && bool_decide (produces this1 ≠ None)
  then started ← startProduction res this1; Some (started.1.1, started.1.2)
  else Some (res, this1).

(** [removeWorker(worker)] *)
Definition removeWorker (worker : nat) (this : t) : t :=
  let this1 := set_workers (filter (λ w, w ≠ worker) (workers this)) this in
  if bool_decide (length (workers this1) = 0%nat) then stopProduction this1
  else this1.

(** [UIManager._upgradeBuilding(building)] *)
Definition _upgradeBuilding (res : gmap string Z) (building : t)
  : option (gmap string Z * t) :=
  if ResourceManager.hasResources res (upgradeCost building) then
    consumed ← ResourceManager.consumeResources res (upgradeCost building);
    Some (consumed.1, (upgrade building).1)
  else Some (res, building).

(** [n] frames of [update()]. *)
Fixpoint frames (n : nat) (res : gmap string Z) (this : t)
  : option (gmap string Z * t) :=
  match n with
  | O => Some (res, this)
  | S n' => '(res1, this1) ← update res this; frames n' res1 this1
  end.

End Production.


(** ** The build menu (ui/UIManager.js) *)

Module UIManager.

(** [selectBuildingToBuild(buildingType)] *)
Definition selectBuildingToBuild (buildingType : BuildingType) (w : World.t)
  : World.t :=
  if negb (ResourceManager.hasResources (World.resources w)
             (buildingCosts buildingType))
  then w
  else Coordinator.startBuildingPlacement buildingType w.

(** A click on an item of the build menu. The listener of the item selects
    the building; nothing stops the propagation of the event, so the
    listener of the window, [World._onClick], receives the same click. *)
Definition menu_click (buildingType : BuildingType) (w : World.t)
  : option World.t :=
  Coordinator._onClick (selectBuildingToBuild buildingType w).

End UIManager.

(** ** Arrays of rows *)

Module Grid.

(** [grid[y][x]]; [None] where JavaScript finds no element. *)
Definition at_ {A} (grid : list (list A)) (x y : Z) : option A :=
  if (x <? 0) || (y <? 0) then None
  else row ← grid !! Z.to_nat y; row !! Z.to_nat x.

(** [grid[y][x] = v], which needs the row [grid[y]]; the embedding also
    asks for the element, which is there wherever the code writes. *)
Definition set_ {A} (v : A) (x y : Z) (grid : list (list A))
  : option (list (list A)) :=
  _ ← at_ grid x y;
  Some (alter (alter (λ _, v) (Z.to_nat x)) (Z.to_nat y) grid).

(** The array has [rows] rows of [cols] elements. *)
Definition rect {A} (rows cols : Z) (grid : list (list A)) : Prop :=
  length grid = Z.to_nat rows ∧
  ∀ row, row ∈ grid → length row = Z.to_nat cols.

End Grid.

(** ** Fog of war (core/World.js) *)

(** utils/Enums.js *)
Inductive VisibilityState := UNEXPLORED | EXPLORED | VISIBLE.

Module Fog.
Import Grid.

(** An element of [world.fogOfWar]. *)
Record cell := { visible : bool; explored : bool }.

(** The fog state of the world: [visibility] holds the field [visibility]
    of every tile of [world.terrain], [fogOfWar] is the array of the same
    name, [fogOfWarMesh] tells whether the mesh exists. *)
Record t := mk {
  visibility : list (list VisibilityState);
  fogOfWar : list (list cell);
  fogOfWarMesh : bool
}.

(** utils/Constants.js, [FOG_OF_WAR]. *)
Definition ENABLED : bool := true.
Definition INITIAL_VISIBILITY_RADIUS : Z := 20.
Definition BUILDING_VISIBILITY_RADIUS (type : BuildingType) : Z :=
  match type with
  | WAREHOUSE => 20 | WOODCUTTER => 10 | SAWMILL => 10 | STONEMASON => 10
  | MINE => 12 | IRONSMITH => 10 | FARM => 15 | MILL => 10 | BAKERY => 10
  | HUNTER => 15
  end.

(** [_initFogOfWar()]: a fresh row for every [y] below the height. *)
Definition _initFogOfWar (w : World.t) (this : t) : t :=
  if negb ENABLED then this
  else
    let row := replicate (Z.to_nat (width (World.size w)))
                 {| visible := false; explored := false |} in
    mk (visibility this)
       (replicate (Z.to_nat (height (World.size w))) row
        ++ drop (Z.to_nat (height (World.size w))) (fogOfWar this))
       true.

(** The body of the loops of [_revealArea] for the tile [c]. *)
Definition reveal_cell (w : World.t) (centerX centerY radius : Z) (this : t)
    (c : Z * Z) : option t :=
  if PathFinder.out_of_bounds w c.1 c.2 then Some this
  else
    let dx := c.1 - centerX in
    let dy := c.2 - centerY in
    if dx * dx + dy * dy <=? radius * radius then
      vis ← set_ VISIBLE c.1 c.2 (visibility this);
      fog ← set_ {| visible := true; explored := true |} c.1 c.2 (fogOfWar this);
      Some (mk vis fog (fogOfWarMesh this))
    else Some this.

Fixpoint reveal_cells (w : World.t) (centerX centerY radius : Z)
    (cs : list (Z * Z)) (this : t) : option t :=
  match cs with
  | [] => Some this
  | c :: cs' =>
      this1 ← reveal_cell w centerX centerY radius this c;
      reveal_cells w centerX centerY radius cs' this1
  end.

(** [_revealArea(centerX, centerY, radius)]: the square of tiles from
    [center - radius] to [center + radius]. *)
Definition _revealArea (w : World.t) (centerX centerY radius : Z) (this : t)
  : option t :=
  reveal_cells w centerX centerY radius
    (footprint_cells (centerX - radius, centerY - radius)
       {| width := 2 * radius + 1; height := 2 * radius + 1 |})
    this.

(** The first loops of [_updateFogOfWar]: the visibility of every tile is
    reset from the [explored] flag. *)
Fixpoint reset_cells (cs : list (Z * Z)) (this : t) : option t :=
  match cs with
  | [] => Some this
  | c :: cs' =>
      fog ← at_ (fogOfWar this) c.1 c.2;
      vis ← set_ (if explored fog then EXPLORED else UNEXPLORED) c.1 c.2
              (visibility this);
      reset_cells cs' (mk vis (fogOfWar this) (fogOfWarMesh this))
  end.

(** The loop of [_updateFogOfWar] over the buildings. *)
Fixpoint reveal_buildings (w : World.t) (bs : list Entity.t) (this : t)
  : option t :=
  match bs with
  | [] => Some this
  | building :: bs' =>
      let r := BUILDING_VISIBILITY_RADIUS (Entity.type building) in
      let radius := if r =? 0 then INITIAL_VISIBILITY_RADIUS else r in
      this1 ← _revealArea w (Entity.position building).1
                 (Entity.position building).2 radius this;
      reveal_buildings w bs' this1
  end.

(** [_updateFogOfWar()], without the colours of the mesh. *)
Definition _updateFogOfWar (w : World.t) (this : t) : option t :=
  if negb ENABLED || negb (fogOfWarMesh this) then Some this
  else
    this1 ← reset_cells (footprint_cells (0, 0) (World.size w)) this;
    bs ← mapM (λ ref, World.objects w !! ref) (World.buildings w);
    reveal_buildings w bs this1.

(** Both arrays have the rows and columns of the world. *)
Definition grid_shaped {A} (w : World.t) (grid : list (list A)) : Prop :=
  rect (height (World.size w)) (width (World.size w)) grid.

Definition shaped (w : World.t) (this : t) : Prop :=
  grid_shaped w (visibility this) ∧ grid_shaped w (fogOfWar this).

(** The tile [(x, y)] lies within the radius of the building. *)
Definition in_sight (building : Entity.t) (x y : Z) : Prop :=
  let r := BUILDING_VISIBILITY_RADIUS (Entity.type building) in
  (x - (Entity.position building).1) * (x - (Entity.position building).1)
  + (y - (Entity.position building).2) * (y - (Entity.position building).2)
  ≤ r * r.

(** The test of [_revealArea] on the square distance. *)
Definition near (centerX centerY radius x y : Z) : bool :=
  (x - centerX) * (x - centerX) + (y - centerY) * (y - centerY)
  <=? radius * radius.

End Fog.


(** ** Terrain generation (utils/MapGen.js) *)

Module MapGen.
Import Grid.

(** The indices from [Math.max(0, v - 1)] to [Math.min(limit - 1, v + 1)]. *)
Definition around (limit v : Z) : list Z :=
  seqZ (Z.max 0 (v - 1)) (Z.min (limit - 1) (v + 1) - Z.max 0 (v - 1) + 1).

(** The cells [getNeighbors] reads, in the order of its loops. *)
Definition neighbor_cells (height width x y : Z) : list (Z * Z) :=
  filter (λ c : Z * Z, c.1 ≠ x ∨ c.2 ≠ y)
    (ny ← around height y; nx ← around width x; [(nx, ny)]).

(** [getNeighbors(map, x, y)]; [map[0]] must be a row. *)
Definition getNeighbors {A} (map : list (list A)) (x y : Z) : option (list A) :=
  row0 ← map !! 0%nat;
  let height := Z.of_nat (length map) in
  let width := Z.of_nat (length row0) in
  mapM (λ c : Z * Z, at_ map c.1 c.2) (neighbor_cells height width x y).

(** [acc[terrain] = (acc[terrain] || 0) + 1] on the object [counts], whose
    keys a [for ... in] loop visits in the order of their insertion. *)
Fixpoint bump (terrain : TerrainType) (counts : list (TerrainType * Z))
  : list (TerrainType * Z) :=
  match counts with
  | [] => [(terrain, 0 + 1)]
  | e :: counts' =>
      if decide (e.1 = terrain) then (e.1, e.2 + 1) :: counts'
      else e :: bump terrain counts'
  end.

Definition count_terrains (neighbors : list TerrainType)
  : list (TerrainType * Z) :=
  foldl (λ acc terrain, bump terrain acc) [] neighbors.

(** The loop that keeps the first terrain with the greatest count,
    starting from [(currentTile, 0)]. *)
Definition most_common (currentTile : TerrainType)
    (neighbors : list TerrainType) : TerrainType :=
  (foldl (λ best e : TerrainType * Z, if best.2 <? e.2 then e else best)
         (currentTile, 0) (count_terrains neighbors)).1.

(** A loop of assignments [grid[y][x] = v] over the cells [cs]; [value c]
    is the value to write, [Some None] when the cell is not written and
    [None] when computing it fails. *)
Fixpoint write_cells {A} (value : Z * Z → option (option A))
    (cs : list (Z * Z)) (grid : list (list A)) : option (list (list A)) :=
  match cs with
  | [] => Some grid
  | c :: cs' =>
      v ← value c;
      grid1 ← match v with
              | Some v' => set_ v' c.1 c.2 grid
              | None => Some grid
              end;
      write_cells value cs' grid1
  end.

(** The body of the loops of [applyCellularAutomata]; [coin x y] tells
    whether [Math.random() < clusteringFactor] at the cell. *)
Definition automaton_cell (coin : Z → Z → bool)
    (map : list (list TerrainType)) (c : Z * Z)
  : option (option TerrainType) :=
  neighbors ← getNeighbors map c.1 c.2;
  currentTile ← at_ map c.1 c.2;
  Some (if coin c.1 c.2 then Some (most_common currentTile neighbors)
        else None).

(** [applyCellularAutomata(map, clusteringFactor)]: the new terrains are
    written to a copy of the map, which is then copied back. *)
Definition applyCellularAutomata (coin : Z → Z → bool)
    (map : list (list TerrainType)) : option (list (list TerrainType)) :=
  row0 ← map !! 0%nat;
  let cells :=
    footprint_cells (0, 0)
      {| width := Z.of_nat (length row0); height := Z.of_nat (length map) |} in
  newMap ← write_cells (automaton_cell coin map) cells map;
  write_cells (λ c, v ← at_ newMap c.1 c.2; Some (Some v)) cells map.

(** A small map for examples, of 2 rows and 3 columns. *)
Definition patch : list (list TerrainType) :=
  [ [GRASS; WATER; GRASS];
    [FOREST; FOREST; WATER] ].

(** How often [terrain] occurs in a list. *)
Definition occurrences (terrain : TerrainType) (l : list TerrainType) : Z :=
  Z.of_nat (length (filter (λ t, t = terrain) l)).

(** [counts[terrain] || 0] *)
Definition tally (counts : list (TerrainType * Z)) (terrain : TerrainType) : Z :=
  match list_find (λ e : TerrainType * Z, e.1 = terrain) counts with
  | Some (_, e) => e.2
  | None => 0
  end.

End MapGen.


(** ** Statements about the frame loop *)

(** The references of the world lead to objects: the lists of buildings and
    constructions, the targets of the settlers and the tiles; in placement
    mode the preview mesh exists and the type to place is set. *)
Definition world_sound (w : World.t) : Prop :=
  World.well_formed w ∧
  (∀ ref, ref ∈ World.constructions w → is_Some (site_of w ref)) ∧
  (∀ ref, ref ∈ World.buildings w → is_Some (World.objects w !! ref)) ∧
  (∀ this ref, this ∈ World.settlers w →
     Settler.targetConstruction this = Some ref → is_Some (site_of w ref)) ∧
  World.placementPreviewMesh w = World.buildingPlacementMode w ∧
  (World.buildingPlacementMode w = true →
   is_Some (World.buildingTypeToPlace w)).

(** The event names a settler of the world or a construction site. *)
Definition event_valid (w : World.t) (ev : Game.event) : Prop :=
  match ev with
  | Game.UpdateSettler i _ | Game.Timer _ i =>
      (i < length (World.settlers w))%nat
  | Game.UpdateConstruction ref => is_Some (site_of w ref)
  | _ => True
  end.

(** From [w] to [w'] no settler and no construction site is lost. *)
Definition world_extends (w w' : World.t) : Prop :=
  length (World.settlers w') = length (World.settlers w) ∧
  ∀ ref, is_Some (site_of w ref) → is_Some (site_of w' ref).

(** From [w] to [w1] only the ledger and the fields of sites change. *)
Definition sites_kept (w w1 : World.t) : Prop :=
  World.size w1 = World.size w ∧ World.terrain w1 = World.terrain w ∧
  World.buildings w1 = World.buildings w ∧
  World.constructions w1 = World.constructions w ∧
  World.settlers w1 = World.settlers w ∧
  World.buildingPlacementMode w1 = World.buildingPlacementMode w ∧
  World.buildingTypeToPlace w1 = World.buildingTypeToPlace w ∧
  World.placementPreviewMesh w1 = World.placementPreviewMesh w ∧
  (∀ ref, is_Some (World.objects w !! ref) →
          is_Some (World.objects w1 !! ref)) ∧
  (∀ ref, is_Some (site_of w ref) → is_Some (site_of w1 ref)).

(** The construction a settler targets is in the store. *)
Definition target_valid (w : World.t) (this : Settler.t) : Prop :=
  ∀ ref, Settler.targetConstruction this = Some ref → is_Some (site_of w ref).


(** ** Statements about allocation over time *)

(** A settler carries nothing or one unit. *)
Definition carries_unit (this : Settler.t) : Prop :=
  0 ≤ Settler.carriedAmount this ≤ 1.

(** From the site [c] to [c'] the target type and the requirements stay
    and no allocated amount drops. *)
Definition allocation_grows (c c' : Site) : Prop :=
  targetBuildingType c' = targetBuildingType c ∧
  requiredResources c' = requiredResources c ∧
  ∀ r, Allocation.amount (allocatedResources c) r
       ≤ Allocation.amount (allocatedResources c') r.

(** Every site of [w] is still a site of [w'], with its allocation grown. *)
Definition sites_grow (w w' : World.t) : Prop :=
  ∀ ref e c, site_of w ref = Some (e, c) →
    ∃ e' c', site_of w' ref = Some (e', c') ∧ allocation_grows c c'.

(** * Properties *)

(** ** The resource ledger *)

Module LedgerProofs.
Import ResourceManager.

Lemma getResource_lookup res t v :
  res !! t = Some v → getResource res t = v.
Proof.
  intros H. unfold getResource. rewrite H.
  destruct (Z.eqb_spec v 0); congruence.
Qed.

Lemma getResource_absent res t : res !! t = None → getResource res t = 0.
Proof. intros H. unfold getResource. by rewrite H. Qed.

Lemma entry_ok_true res t a :
  entry_ok res (t, a) = true ↔ getResource res t ≠ 0 ∧ a ≤ getResource res t.
Proof.
  unfold entry_ok, getResource; simpl.
  destruct (res !! t) as [v|]; simpl; [|intuition congruence].
  destruct (Z.eqb_spec v 0); simpl; [intuition congruence|].
  destruct (Z.ltb_spec v a); simpl; [|intuition lia].
  split; [done|lia].
Qed.

Lemma entry_ok_present res e : entry_ok res e = true → is_Some (res !! e.1).
Proof. unfold entry_ok. destruct (res !! e.1); [eauto|done]. Qed.

Lemma hasResources_available res reqs :
  hasResources res reqs = true ↔ available res reqs.
Proof.
  unfold hasResources, available. rewrite forallb_forall. split.
  - intros H t a Hta. apply entry_ok_true, H, list_elem_of_In.
    by apply elem_of_map_to_list.
  - intros H [t a] Hin%list_elem_of_In%elem_of_map_to_list.
    by apply entry_ok_true, H.
Qed.

(** The loop of [consumeResources] on entries with distinct, present keys. *)
Lemma consume_loop_lookup es : ∀ res,
  NoDup es.*1 →
  (∀ e, e ∈ es → is_Some (res !! e.1)) →
  ∃ res', consume_loop es res = Some res' ∧
    (∀ t a, (t, a) ∈ es → res' !! t = (λ v, v - a) <$> res !! t) ∧
    (∀ t, t ∉ es.*1 → res' !! t = res !! t).
Proof.
  induction es as [|[t0 a0] es IH]; intros res Hnd Hpres.
  - exists res. split; [done|]. split; [|done].
    intros t a Hin. by apply elem_of_nil in Hin.
  - rewrite fmap_cons in Hnd. apply NoDup_cons in Hnd as [Hfresh Hnd].
    destruct (Hpres (t0, a0)) as [v0 Hv0]; [left|]. simpl in Hv0.
    destruct (IH (<[t0 := v0 - a0]> res) Hnd) as (res' & Hrun & Hin & Hout).
    { intros e He. destruct (decide (e.1 = t0)) as [->|Hne].
      - rewrite lookup_insert_eq. eauto.
      - rewrite lookup_insert_ne; [|done]. apply Hpres. by right. }
    exists res'. split.
    { simpl. unfold decrement. simpl. rewrite Hv0. simpl. exact Hrun. }
    split.
    + intros t a [Heq|Hta]%elem_of_cons.
      * inversion Heq; subst. rewrite (Hout t0 Hfresh).
        by rewrite lookup_insert_eq, Hv0.
      * rewrite (Hin t a Hta). rewrite lookup_insert_ne; [done|].
        intros ->. apply Hfresh. apply list_elem_of_fmap. by exists (t, a).
    + intros t Ht. simpl in Ht. apply not_elem_of_cons in Ht as [Hne Ht].
      rewrite (Hout t Ht). by rewrite lookup_insert_ne.
Qed.

Lemma consumeResources_accepts res reqs :
  hasResources res reqs = true →
  ∃ res', consumeResources res reqs = Some (res', true) ∧
          decremented res reqs res'.
Proof.
  intros Hhas. unfold consumeResources. rewrite Hhas. simpl.
  destruct (consume_loop_lookup (map_to_list reqs) res) as (res' & -> & Hin & Hout).
  - apply NoDup_fst_map_to_list.
  - intros e He. apply entry_ok_present.
    unfold hasResources in Hhas. rewrite forallb_forall in Hhas.
    by apply Hhas, list_elem_of_In.
  - exists res'. split; [done|]. intros t.
    destruct (reqs !! t) as [a|] eqn:Hreq.
    + by apply Hin, elem_of_map_to_list.
    + apply Hout. intros ((t' & a) & -> & Hin')%list_elem_of_fmap.
      apply elem_of_map_to_list in Hin'. simpl in Hreq. congruence.
Qed.

Lemma consumeResources_rejects res reqs :
  hasResources res reqs = false → consumeResources res reqs = Some (res, false).
Proof. intros Hhas. unfold consumeResources. by rewrite Hhas. Qed.

(** C1, as stated, fails: a requirement of zero units of a resource whose
    count is zero is covered by the ledger, and [consumeResources] refuses
    it. *)
Lemma consumeAll_zero_requirement_refused :
  ¬ consumeAll_spec initial {[ "iron" := 0 ]}.
Proof.
  intros [Hyes _]. destruct Hyes as (res' & Heq & _).
  - intros t a Hta. apply lookup_singleton_Some in Hta as [<- <-].
    vm_compute. discriminate.
  - assert (Hc : snd <$> consumeResources initial {[ "iron" := 0 ]} = Some false)
      by (vm_compute; reflexivity).
    rewrite Heq in Hc. discriminate Hc.
Qed.

(** C1, amended: [consumeResources] is atomic. If every required type has a
    count that is not zero and is at least the required amount, every entry
    is decremented by its amount and the result is [true]; otherwise the
    result is [false] and the ledger is unchanged. From plank=10,
    consuming 5 planks succeeds and leaves 5; consuming 6 more is refused
    and leaves 5. *)
Theorem consumeResources_atomic (res reqs : gmap string Z) :
  (available res reqs →
     ∃ res', consumeResources res reqs = Some (res', true) ∧
             decremented res reqs res') ∧
  (¬ available res reqs → consumeResources res reqs = Some (res, false)) ∧
  consumeResources {[ "plank" := 10 ]} {[ "plank" := 5 ]}
    = Some ({[ "plank" := 5 ]}, true) ∧
  consumeResources {[ "plank" := 5 ]} {[ "plank" := 6 ]}
    = Some ({[ "plank" := 5 ]}, false).
Proof.
  split; [|split; [|split]].
  - intros H. by apply consumeResources_accepts, hasResources_available.
  - intros H. apply consumeResources_rejects.
    destruct (hasResources res reqs) eqn:E; [|done].
    by apply hasResources_available in E.
  - by vm_compute.
  - by vm_compute.
Qed.

Lemma consumeResources_atomic_witness :
  (∃ res', consumeResources initial {[ "plank" := 5 ]} = Some (res', true) ∧
           decremented initial {[ "plank" := 5 ]} res') ∧
  consumeResources initial {[ "iron" := 1 ]} = Some (initial, false).
Proof.
  split.
  - apply (consumeResources_atomic initial {[ "plank" := 5 ]}).
    intros t a Hta. apply lookup_singleton_Some in Hta as [<- <-].
    vm_compute. split; discriminate.
  - apply (consumeResources_atomic initial {[ "iron" := 1 ]}).
    intros H. destruct (H "iron"%string 1) as [Hnz _].
    + apply lookup_singleton_eq.
    + by apply Hnz.
Defined.

(** *** Counts never go below zero *)

Lemma nonneg_initial : nonneg initial.
Proof.
  intros t v. unfold initial.
  repeat (rewrite lookup_insert; case_decide; [intros [= <-]; lia|]).
  by rewrite lookup_empty.
Qed.

Lemma nonneg_getResource res t : nonneg res → 0 ≤ getResource res t.
Proof.
  intros H. unfold getResource. destruct (res !! t) as [v|] eqn:E; [|done].
  destruct (v =? 0); [done|]. by apply (H t).
Qed.

Lemma nonneg_addResource res t n :
  nonneg res → 0 ≤ n → nonneg (addResource res t n).1.
Proof.
  intros Hres Hn t' v'. unfold addResource. simpl.
  destruct (decide (t = t')) as [<-|Hne].
  - rewrite lookup_insert_eq. intros [= <-].
    destruct (truthy (res !! t)).
    + destruct (res !! t) as [v|] eqn:E; simpl; [|lia].
      specialize (Hres t v E). lia.
    + rewrite lookup_insert_eq. simpl. lia.
  - rewrite lookup_insert_ne; [|done].
    destruct (truthy (res !! t)); [apply Hres|].
    rewrite lookup_insert_ne; [|done]. apply Hres.
Qed.

Lemma removeResource_cases res t n :
  (removeResource res t n = (res, false) ∧ (getResource res t = 0 ∨ getResource res t < n)) ∨
  (∃ v, res !! t = Some v ∧ v ≠ 0 ∧ n ≤ v ∧
        removeResource res t n = (<[t := v - n]> res, true)).
Proof.
  unfold removeResource, getResource.
  destruct (res !! t) as [v|]; [|left; auto].
  simpl. destruct (Z.eqb_spec v 0); simpl; [left; auto|].
  destruct (Z.ltb_spec v n); [left; auto|].
  right. exists v. auto.
Qed.

Lemma nonneg_removeResource res t n :
  nonneg res → nonneg (removeResource res t n).1.
Proof.
  intros Hres. destruct (removeResource_cases res t n)
    as [[-> _]|(v & Hv & _ & Hle & ->)]; [done|].
  intros t' v'. simpl. destruct (decide (t = t')) as [<-|Hne].
  - rewrite lookup_insert_eq. intros [= <-]. lia.
  - rewrite lookup_insert_ne; [|done]. apply Hres.
Qed.

Lemma nonneg_consumeResources res reqs :
  nonneg res → (∀ t a, reqs !! t = Some a → 0 ≤ a) →
  ∃ res' b, consumeResources res reqs = Some (res', b) ∧ nonneg res'.
Proof.
  intros Hres Hreqs. destruct (hasResources res reqs) eqn:Hhas.
  - destruct (consumeResources_accepts res reqs Hhas) as (res' & -> & Hdec).
    exists res', true. split; [done|]. intros t v. rewrite (Hdec t).
    apply hasResources_available in Hhas.
    destruct (reqs !! t) as [a|] eqn:Ha; [|apply Hres].
    destruct (res !! t) as [w|] eqn:Hw; simpl; [|done]. intros [= <-].
    destruct (Hhas t a Ha) as [_ Hle].
    rewrite (getResource_lookup res t w Hw) in Hle. lia.
  - rewrite (consumeResources_rejects res reqs Hhas). eauto.
Qed.

Lemma nonneg_do_call res c :
  nonneg res → call_nonneg c → ∃ res', do_call res c = Some res' ∧ nonneg res'.
Proof.
  intros Hres Hc. destruct c as [t n|t n|reqs]; simpl in *.
  - eexists. split; [done|]. by apply nonneg_addResource.
  - eexists. split; [done|]. by apply nonneg_removeResource.
  - destruct (nonneg_consumeResources res reqs Hres Hc) as (res' & b & -> & H).
    by exists res'.
Qed.

Lemma nonneg_run cs : ∀ res,
  nonneg res → Forall call_nonneg cs →
  ∃ res', run cs res = Some res' ∧ nonneg res'.
Proof.
  induction cs as [|c cs IH]; intros res Hres Hcs; [by exists res|].
  apply Forall_cons in Hcs as [Hc Hcs].
  destruct (nonneg_do_call res c Hres Hc) as (res1 & Hstep & Hres1).
  destruct (IH res1 Hres1 Hcs) as (res' & Hrun & Hres').
  exists res'. simpl. by rewrite Hstep.
Qed.

(** C2: along every run of add, remove and consumeAll calls with
    non-negative amounts from the initial ledger (that is, after every
    prefix of the run), every count is at least zero; and a removal of
    more than the current count returns [false] and changes nothing. *)
Theorem ledger_counts_never_negative (cs : list call) :
  Forall call_nonneg cs →
  (∀ n : nat, ∃ res, run (take n cs) initial = Some res ∧
                     ∀ t, 0 ≤ getResource res t) ∧
  (∀ res t n, getResource res t < n → removeResource res t n = (res, false)).
Proof.
  intros Hcs. split.
  - intros n.
    destruct (nonneg_run (take n cs) initial nonneg_initial) as (res & Hrun & Hres).
    { by apply Forall_take. }
    exists res. split; [done|]. intros t. by apply nonneg_getResource.
  - intros res t n Hlt.
    destruct (removeResource_cases res t n)
      as [[-> _]|(v & Hv & _ & Hle & _)]; [done|].
    rewrite (getResource_lookup res t v Hv) in Hlt. lia.
Qed.

Lemma ledger_counts_never_negative_witness :
  (∃ res, run (take 3 [Add "wood" 2; Remove "plank" 4;
                       ConsumeAll {[ "stone" := 10 ]}; Remove "meat" 9]) initial
          = Some res ∧ ∀ t, 0 ≤ getResource res t) ∧
  removeResource initial "meat" 9 = (initial, false).
Proof.
  assert (H : Forall call_nonneg
                [Add "wood" 2; Remove "plank" 4;
                 ConsumeAll {[ "stone" := 10 ]}; Remove "meat" 9]).
  { repeat constructor; simpl; try lia.
    intros t a Hta. apply lookup_singleton_Some in Hta as [_ <-]. lia. }
  split.
  - exact (proj1 (ledger_counts_never_negative _ H) 3%nat).
  - apply (proj2 (ledger_counts_never_negative _ H)). by vm_compute.
Defined.

End LedgerProofs.

(** ** Path finding *)

Module PathProofs.
Import PathFinder.

Section grid.
Context (w : World.t) (Hwf : World.well_formed w).

Lemma out_of_bounds_false x y :
  out_of_bounds w x y = false ↔
  0 ≤ x < width (World.size w) ∧ 0 ≤ y < height (World.size w).
Proof. unfold out_of_bounds. lia. Qed.

Lemma tileAt_in_bounds x y :
  out_of_bounds w x y = false →
  ∃ row tile, row ∈ World.terrain w ∧ tile ∈ row ∧ World.tileAt w x y = Some tile.
Proof.
  intros Hb%out_of_bounds_false. destruct Hwf as (_ & _ & Hrows & Hcols & _).
  unfold World.tileAt.
  destruct (lookup_lt_is_Some_2 (World.terrain w) (Z.to_nat y)) as [row Hrow]; [lia|].
  assert (Hin : row ∈ World.terrain w) by (by eapply list_elem_of_lookup_2).
  destruct (lookup_lt_is_Some_2 row (Z.to_nat x)) as [tile Htile].
  { rewrite (Hcols row Hin). lia. }
  exists row, tile. split; [done|]. split; [by eapply list_elem_of_lookup_2|].
  replace ((x <? 0) || (y <? 0)) with false by lia.
  rewrite Hrow. simpl. done.
Qed.

Lemma isPassable_total x y : is_Some (_isPassable w x y).
Proof.
  unfold _isPassable. destruct (out_of_bounds w x y) eqn:Hb; [eauto|].
  destruct (tileAt_in_bounds x y Hb) as (row & tile & Hrow & Htile & ->). simpl.
  case_bool_decide; [eauto|].
  destruct (Tile.building tile) as [ref|] eqn:Href; [|eauto].
  destruct Hwf as (_ & _ & _ & _ & Hrefs).
  destruct (Hrefs row tile ref Hrow Htile Href) as [b ->]. simpl.
  case_bool_decide; eauto.
Qed.

Lemma isPassable_passable x y : _isPassable w x y = Some (passable w (x, y)).
Proof.
  unfold passable. simpl. by destruct (isPassable_total x y) as [b ->].
Qed.

Lemma passable_in_bounds c :
  passable w c = true → out_of_bounds w c.1 c.2 = false.
Proof.
  unfold passable, _isPassable.
  destruct (out_of_bounds w c.1 c.2); [done|done].
Qed.

Lemma createGrid_grid_of : ∃ grid, _createGrid w = Some grid ∧ grid_of w grid.
Proof.
  destruct (mapM_is_Some_2
    (λ y, mapM (λ x, _isPassable w x y) (seqZ 0 (width (World.size w))))
    (seqZ 0 (height (World.size w)))) as [grid Hgrid].
  { apply Forall_forall. intros y _. apply mapM_is_Some_2.
    apply Forall_forall. intros x _. apply isPassable_total. }
  exists grid. split; [done|].
  intros x y Hb%out_of_bounds_false.
  apply mapM_Some in Hgrid.
  destruct (Forall2_lookup_l _ _ _ (Z.to_nat y) y Hgrid) as (row & Hrow & Hmap).
  { apply lookup_seqZ. lia. }
  exists row. split; [done|].
  apply mapM_Some in Hmap.
  destruct (Forall2_lookup_l _ _ _ (Z.to_nat x) x Hmap) as (b & Hcell & Hpass).
  { apply lookup_seqZ. lia. }
  rewrite isPassable_passable in Hpass. congruence.
Qed.

Lemma neighbor_at_passable grid x y dir :
  grid_of w grid →
  neighbor_at w grid x y dir =
    Some (filter (λ c', passable w c' = true) [(x + dir.1, y + dir.2)]).
Proof.
  intros Hgrid. unfold neighbor_at.
  destruct (out_of_bounds w (x + dir.1) (y + dir.2)) eqn:Hb.
  - rewrite filter_cons, filter_nil. case_decide as Hp; [|done].
    apply passable_in_bounds in Hp. simpl in Hp. congruence.
  - destruct (Hgrid _ _ Hb) as (row & -> & Hcell). simpl. rewrite Hcell.
    rewrite filter_cons, filter_nil.
    destruct (passable w (x + dir.1, y + dir.2)); by case_decide.
Qed.

Lemma getNeighbors_nbrs grid x y :
  grid_of w grid → _getNeighbors w x y grid = Some (nbrs w (x, y)).
Proof.
  intros Hgrid. unfold _getNeighbors, nbrs, directions.
  simpl. rewrite !(neighbor_at_passable grid x y _ Hgrid). simpl.
  rewrite !filter_cons, !filter_nil.
  repeat case_decide; reflexivity.
Qed.

Lemma elem_of_nbrs c c' : c' ∈ nbrs w c ↔ step w c c'.
Proof.
  unfold nbrs, step, adjacent, directions. rewrite list_elem_of_filter.
  destruct c as [cx cy], c' as [x' y']. simpl.
  rewrite !elem_of_cons, elem_of_nil.
  split.
  - intros [Hp H]. split; [|done].
    destruct H as [H|[H|[H|[H|[]]]]]; inversion H; lia.
  - intros [Hadj Hp]. split; [done|].
    assert ((x' = cx + 0 ∧ y' = cy + -1) ∨ (x' = cx + 1 ∧ y' = cy + 0) ∨
            (x' = cx + 0 ∧ y' = cy + 1) ∨ (x' = cx + -1 ∧ y' = cy + 0)) as H by lia.
    destruct H as [[-> ->]|[[-> ->]|[[-> ->]|[-> ->]]]]; auto.
Qed.

End grid.

Lemma sort_by_f_all_Infinity l :
  (∀ n, n ∈ l → f n = Infinity) → sort_by_f l = l.
Proof.
  induction l as [|a l IH]; intros Hl; [done|].
  simpl. rewrite IH by (intros n Hn; apply Hl; by right).
  destruct l as [|b l']; [done|]. simpl.
  rewrite (Hl b) by (right; left). rewrite (Hl a) by left. done.
Qed.

Lemma list_find_key_None (l : list node) (k : Z * Z) :
  list_find (λ n, key n = k) l = None ↔ k ∉ key <$> l.
Proof.
  rewrite list_find_None, Forall_forall. split.
  - intros H (n & -> & Hn)%list_elem_of_fmap. by apply (H n).
  - intros H n Hn Heq. apply H. apply list_elem_of_fmap. by exists n.
Qed.

Section visit.
Context (w : World.t) (s goal : Z * Z) (endX endY : Z).

Lemma tentative_Infinity d st k :
  core_inv w s goal d st →
  score_add (or_Infinity (gScore st !! k)) 1 = Infinity.
Proof.
  intros Hc. destruct (gScore st !! k) as [v|] eqn:Hv; [|done].
  by destruct (ci_gscore _ _ _ _ _ Hc k v Hv) as [-> | ->].
Qed.

(** What [visit] does in a state that satisfies the invariant. *)
Lemma visit_cases d st current c' :
  core_inv w s goal d st →
  (discovered st c' ∧ visit endX endY current st c' = st) ∨
  (¬ discovered st c' ∧
   visit endX endY current st c' =
     {| openSet := openSet st ++
          [{| key := c'; x := c'.1; y := c'.2; f := Infinity |}];
        closedSet := closedSet st;
        cameFrom := <[c' := key current]> (cameFrom st);
        gScore := <[c' := Infinity]> (gScore st);
        fScore := <[c' := Infinity]> (fScore st) |}).
Proof.
  intros Hc. unfold visit, _nodeKey. rewrite <- (surjective_pairing c').
  case_bool_decide as Hcl; [left; split; [by left|done]|].
  rewrite (tentative_Infinity d st _ Hc). simpl.
  destruct (list_find _ (openSet st)) as [[i n]|] eqn:Hfind.
  - left. split; [|done]. right.
    apply list_find_Some in Hfind as (Hi & <- & _).
    apply list_elem_of_fmap. exists n. split; [done|].
    by eapply list_elem_of_lookup_2.
  - right. apply list_find_key_None in Hfind. split; [|done].
    intros [?|?]; done.
Qed.

Lemma visit_inner d u pend st current c' :
  key current = u →
  step w u c' →
  inner_inv w s goal d u (c' :: pend) st →
  ∃ d', inner_inv w s goal d' u pend (visit endX endY current st c') ∧
        closedSet (visit endX endY current st c') = closedSet st.
Proof.
  intros Hkey Hstep (Hc & Hu & Hsteps & Hclosed & Hopen).
  destruct (visit_cases d st current c' Hc) as [[Hdisc ->]|[Hnew ->]].
  - exists d. split; [|done]. split; [done|]. split; [done|].
    split; [|done].
    intros c c'' Hcc Hst. destruct (Hsteps c c'' Hcc Hst) as [[-> Hin]|?]; [|by right].
    apply elem_of_cons in Hin as [->|Hin]; [|by left].
    right. split; [done|]. destruct Hdisc as [Hd|Hd].
    + specialize (Hclosed c' Hd). lia.
    + specialize (Hopen c' Hd). lia.
  - assert (Hnc : c' ∉ closedSet st) by (intros ?; apply Hnew; by left).
    assert (Hnk : c' ∉ keys st) by (intros ?; apply Hnew; by right).
    assert (Hus : c' ≠ s) by (intros ->; apply Hnc, (ci_start _ _ _ _ _ Hc)).
    assert (Huc : c' ≠ u) by (intros ->; done).
    assert (Hfresh : cameFrom st !! c' = None).
    { destruct (cameFrom st !! c') eqn:E; [|done].
      destruct (proj1 (ci_dom _ _ _ _ _ Hc c')) as [? _]; [eauto|done]. }
    set (d' := λ k, if decide (k = c') then S (d u) else d k).
    assert (Hd'c : d' c' = S (d u)) by (unfold d'; by rewrite decide_True).
    assert (Hd' : ∀ k, k ≠ c' → d' k = d k) by (intros k ?; unfold d'; by rewrite decide_False).
    assert (Hd'cl : ∀ k, k ∈ closedSet st → d' k = d k).
    { intros k Hk. apply Hd'. by intros ->. }
    assert (Hd'op : ∀ k, k ∈ keys st → d' k = d k).
    { intros k Hk. apply Hd'. by intros ->. }
    exists d'. split; [|done]. split; [|split; [done|split; [|split]]].
    + constructor; simpl.
      * intros n [Hn|Hn%list_elem_of_singleton]%elem_of_app.
        -- by apply (ci_nodes _ _ _ _ _ Hc).
        -- subst n. simpl. by rewrite <- surjective_pairing.
      * unfold keys. simpl. rewrite fmap_app. simpl.
        apply NoDup_app. split; [apply (ci_nodup _ _ _ _ _ Hc)|].
        split; [|apply NoDup_singleton].
        intros k Hk ->%list_elem_of_singleton. done.
      * unfold keys. simpl. rewrite fmap_app. simpl.
        intros k [Hk| ->%list_elem_of_singleton]%elem_of_app; [|done].
        by apply (ci_open_not_closed _ _ _ _ _ Hc).
      * unfold keys. simpl. rewrite fmap_app. simpl.
        intros k [Hk| ->%list_elem_of_singleton]%elem_of_app.
        -- by apply (ci_open_cells _ _ _ _ _ Hc).
        -- apply Hstep.
      * apply (ci_closed_cells _ _ _ _ _ Hc).
      * apply (ci_start _ _ _ _ _ Hc).
      * apply (ci_goal _ _ _ _ _ Hc).
      * intros k. unfold discovered, keys. simpl. rewrite fmap_app. simpl.
        rewrite elem_of_app, list_elem_of_singleton.
        destruct (decide (k = c')) as [->|Hne].
        -- rewrite lookup_insert_eq. split; [intros _; auto|eauto].
        -- rewrite lookup_insert_ne by done.
           rewrite (ci_dom _ _ _ _ _ Hc k). unfold discovered, keys. tauto.
      * intros k p. destruct (decide (k = c')) as [->|Hne].
        -- rewrite lookup_insert_eq. intros [= <-]. rewrite Hkey.
           split; [done|]. split; [done|]. by rewrite Hd'c, Hd'cl.
        -- rewrite lookup_insert_ne by done. intros Hk.
           destruct (ci_parent _ _ _ _ _ Hc k p Hk) as (Hp & Hst & Hdk).
           split; [done|]. split; [done|]. by rewrite Hd', Hd'cl.
      * rewrite Hd' by done. apply (ci_depth0 _ _ _ _ _ Hc).
      * intros k Hk. rewrite map_size_insert_None by done.
        destruct (decide (k = c')) as [->|Hne].
        -- rewrite Hd'c. destruct (decide (u = s)) as [->|Hne].
           ++ rewrite (ci_depth0 _ _ _ _ _ Hc). lia.
           ++ assert (d u ≤ size (cameFrom st))%nat; [|lia].
              apply (ci_depth_size _ _ _ _ _ Hc), (ci_dom _ _ _ _ _ Hc).
              split; [by left|done].
        -- rewrite lookup_insert_ne in Hk by done. rewrite Hd' by done.
           pose proof (ci_depth_size _ _ _ _ _ Hc k Hk). lia.
      * intros k v. destruct (decide (k = c')) as [->|Hne].
        -- rewrite lookup_insert_eq. intros [= <-]. by right.
        -- rewrite lookup_insert_ne by done. apply (ci_gscore _ _ _ _ _ Hc).
      * unfold keys. simpl. rewrite fmap_app. simpl.
        intros i j a b Hij Ha Hb.
        apply lookup_app_Some in Hb as [Hb|[Hjl Hb]].
        -- assert (Ha' : (key <$> openSet st) !! i = Some a).
           { rewrite lookup_app_l in Ha; [done|].
             apply lookup_lt_Some in Hb. lia. }
           rewrite !Hd'op by (by eapply list_elem_of_lookup_2).
           by apply (ci_sorted _ _ _ _ _ Hc i j).
        -- apply list_lookup_singleton_Some in Hb as [_ <-]. rewrite Hd'c.
           apply lookup_app_Some in Ha as [Ha|[_ Ha]].
           ++ assert (Hak : a ∈ keys st) by (by eapply list_elem_of_lookup_2).
              rewrite Hd'op by done. specialize (Hopen a Hak). lia.
           ++ apply list_lookup_singleton_Some in Ha as [_ <-]. rewrite Hd'c. lia.
    + intros c c'' Hcc Hst. simpl in Hcc.
      destruct (Hsteps c c'' Hcc Hst) as [[-> Hin]|[Hdisc Hle]].
      * apply elem_of_cons in Hin as [->|Hin]; [|by left].
        right. split.
        -- right. unfold keys. simpl. rewrite fmap_app. simpl.
           apply elem_of_app. right. by apply list_elem_of_singleton.
        -- rewrite Hd'c, (Hd'cl u) by done. lia.
      * right. split.
        -- destruct Hdisc as [Hd|Hd]; [left; exact Hd|right].
           unfold keys. simpl. rewrite fmap_app. apply elem_of_app. by left.
        -- rewrite (Hd'cl c) by done. rewrite (Hd' c''); [done|].
           intros ->. by apply Hnew.
    + intros c Hcc. simpl in Hcc. rewrite !Hd'cl by done. by apply Hclosed.
    + unfold keys. simpl. rewrite fmap_app. simpl.
      intros q [Hq| ->%list_elem_of_singleton]%elem_of_app.
      * rewrite (Hd'op q), (Hd'cl u) by done. by apply Hopen.
      * rewrite Hd'c, (Hd'cl u) by done. lia.
Qed.

Lemma visit_all d u current : ∀ pend st,
  key current = u →
  (∀ c', c' ∈ pend → step w u c') →
  inner_inv w s goal d u pend st →
  ∃ d', inner_inv w s goal d' u [] (foldl (visit endX endY current) st pend) ∧
        closedSet (foldl (visit endX endY current) st pend) = closedSet st.
Proof.
  intros pend. revert d. induction pend as [|c' pend IH]; intros d st Hkey Hpend Hinv.
  - by exists d.
  - destruct (visit_inner d u pend st current c' Hkey) as (d1 & Hinv1 & Hcl1);
      [apply Hpend; by left|done|].
    destruct (IH d1 (visit endX endY current st c') Hkey) as (d2 & Hinv2 & Hcl2);
      [intros c'' ?; apply Hpend; by right|done|].
    exists d2. simpl. split; [done|]. by rewrite Hcl2.
Qed.

Lemma inner_outer d u st :
  inner_inv w s goal d u [] st → outer_inv w s goal d st.
Proof.
  intros (Hc & Hu & Hsteps & Hclosed & Hopen). split; [done|]. split.
  - intros c c' Hcc Hst.
    destruct (Hsteps c c' Hcc Hst) as [[_ Hin]|?]; [|done].
    by apply elem_of_nil in Hin.
  - intros c q Hcc Hq. specialize (Hclosed c Hcc). specialize (Hopen q Hq). lia.
Qed.

End visit.

Lemma size_list_to_set_le (l : list (Z * Z)) :
  (size (list_to_set l : gset (Z * Z)) ≤ length l)%nat.
Proof.
  unfold size, set_size. simpl. apply submseteq_length, NoDup_submseteq.
  - apply NoDup_elements.
  - intros c Hc. apply elem_of_elements in Hc. by apply elem_of_list_to_set in Hc.
Qed.

Lemma size_cells w :
  0 ≤ width (World.size w) → 0 ≤ height (World.size w) →
  (size (cells w) ≤ Z.to_nat (width (World.size w) * height (World.size w)))%nat.
Proof.
  intros HW HH. etrans; [apply size_list_to_set_le|].
  rewrite length_prod, !length_seqZ. lia.
Qed.

Lemma elem_of_cells w c : out_of_bounds w c.1 c.2 = false → c ∈ cells w.
Proof.
  intros [Hx Hy]%out_of_bounds_false. destruct c as [cx cy]. simpl in *.
  unfold cells. apply elem_of_list_to_set, list_elem_of_In, in_prod;
    apply list_elem_of_In, elem_of_seqZ; lia.
Qed.

Lemma route_snoc w a q b c :
  route w a q b → step w b c → route w a (q ++ [c]) c.
Proof.
  induction 1 as [a|a a1 q b Hst Hr IH]; intros Hbc; simpl.
  - apply route_cons; [done|apply route_nil].
  - apply route_cons; [done|by apply IH].
Qed.

Section search.
Context (w : World.t) (Hwf : World.well_formed w).
Context (s : Z * Z) (endX endY : Z).
Let goal : Z * Z := (endX, endY).

Lemma start_no_parent d st : core_inv w s goal d st → cameFrom st !! s = None.
Proof.
  intros Hc. destruct (cameFrom st !! s) eqn:E; [|done].
  destruct (proj1 (ci_dom _ _ _ _ _ Hc s)) as [_ ?]; [eauto|done].
Qed.

Lemma reconstruct_route d st : core_inv w s goal d st →
  ∀ (n : nat) k acc fuel,
    d k = n → k = s ∨ is_Some (cameFrom st !! k) → (n < fuel)%nat →
    ∃ p, reconstruct_loop fuel (cameFrom st) k acc = Some (p ++ acc) ∧
         route w s p k ∧ length p = n.
Proof.
  intros Hc. induction n as [|n IH]; intros k acc fuel Hd Hk Hfuel;
    (destruct fuel as [|fuel]; [lia|]); simpl.
  - destruct (cameFrom st !! k) as [p|] eqn:Hp.
    + destruct (ci_parent _ _ _ _ _ Hc k p Hp) as (_ & _ & ?). lia.
    + destruct Hk as [->|[? ?]]; [|done].
      exists []. split; [done|]. split; [apply route_nil|done].
  - destruct (cameFrom st !! k) as [p|] eqn:Hp.
    + destruct (ci_parent _ _ _ _ _ Hc k p Hp) as (Hpc & Hst & Hdk).
      destruct (IH p (k :: acc) fuel) as (q & Hq & Hroute & Hlen); [lia| |lia|].
      { destruct (decide (p = s)) as [->|Hne]; [by left|right].
        apply (ci_dom _ _ _ _ _ Hc). split; [by left|done]. }
      exists (q ++ [k]). rewrite Hq. split; [by rewrite <- app_assoc|].
      split; [by eapply route_snoc|]. rewrite length_app. simpl. lia.
    + destruct Hk as [->|[? ?]]; [|done].
      rewrite (ci_depth0 _ _ _ _ _ Hc) in Hd. lia.
Qed.

Lemma reconstructPath_route d st k :
  core_inv w s goal d st → k = s ∨ is_Some (cameFrom st !! k) →
  ∃ p, _reconstructPath (cameFrom st) k = Some p ∧
       route w s p k ∧ length p = d k.
Proof.
  intros Hc Hk. unfold _reconstructPath.
  destruct (reconstruct_route d st Hc (d k) k [] (S (size (cameFrom st))))
    as (p & Hp & Hr & Hl); [done|done| |].
  - destruct Hk as [->|Hk].
    + rewrite (ci_depth0 _ _ _ _ _ Hc). lia.
    + pose proof (ci_depth_size _ _ _ _ _ Hc k Hk). lia.
  - exists p. by rewrite app_nil_r in Hp.
Qed.

(** No route from a closed cell reaches the head of the queue in fewer
    steps than the depths say. *)
Lemma head_depth_minimal d st n rest :
  outer_inv w s goal d st → openSet st = n :: rest →
  ∀ c p' c2, route w c p' c2 → c2 = key n → c ∈ closedSet st →
    (d (key n) ≤ d c + length p')%nat.
Proof.
  intros (Hc & Hsteps & Hlevels) Hopen.
  assert (Hhead : keys st !! 0%nat = Some (key n)) by (unfold keys; by rewrite Hopen).
  induction 1 as [c|c c1 p' c2 Hst Hr IH]; intros -> Hcl.
  - lia.
  - destruct (Hsteps c c1 Hcl Hst) as [[Hc1|Hc1] Hle]; simpl.
    + specialize (IH eq_refl Hc1). lia.
    + apply list_elem_of_lookup in Hc1 as [j Hj].
      destruct (ci_sorted _ _ _ _ _ Hc 0%nat j (key n) c1) as [? _]; [lia|done|done|].
      lia.
Qed.

Lemma closed_when_exhausted d st :
  outer_inv w s goal d st → openSet st = [] →
  ∀ c p' c2, route w c p' c2 → c ∈ closedSet st → c2 ∈ closedSet st.
Proof.
  intros (Hc & Hsteps & _) Hopen.
  induction 1 as [c|c c1 p' c2 Hst Hr IH]; intros Hcl; [done|].
  destruct (Hsteps c c1 Hcl Hst) as [[Hc1|Hc1] _]; [by apply IH|].
  unfold keys in Hc1. rewrite Hopen in Hc1. by apply elem_of_nil in Hc1.
Qed.

(** Taking the head [n] of the queue and closing it. *)
Lemma pop_inner d st n rest :
  outer_inv w s goal d st → openSet st = n :: rest → key n ≠ goal →
  inner_inv w s goal d (key n) (nbrs w (key n))
    {| openSet := rest; closedSet := {[key n]} ∪ closedSet st;
       cameFrom := cameFrom st; gScore := gScore st; fScore := fScore st |}.
Proof.
  intros (Hc & Hsteps & Hlevels) Hopen Hng.
  assert (Hkeys : keys st = key n :: (key <$> rest)) by (unfold keys; by rewrite Hopen).
  pose proof (ci_nodup _ _ _ _ _ Hc) as Hnd. rewrite Hkeys in Hnd.
  apply NoDup_cons in Hnd as [Hnr Hnd].
  assert (Hnk : key n ∈ keys st) by (rewrite Hkeys; left).
  split; [|split; [by apply elem_of_union_l, elem_of_singleton|split; [|split]]].
  - constructor; simpl; unfold keys; simpl.
    + intros m Hm. apply (ci_nodes _ _ _ _ _ Hc). rewrite Hopen. by right.
    + done.
    + intros k Hk. apply not_elem_of_union. split.
      * intros ->%elem_of_singleton. done.
      * apply (ci_open_not_closed _ _ _ _ _ Hc). rewrite Hkeys. by right.
    + intros k Hk. apply (ci_open_cells _ _ _ _ _ Hc). rewrite Hkeys. by right.
    + intros k [->%elem_of_singleton|Hk]%elem_of_union.
      * right. by apply (ci_open_cells _ _ _ _ _ Hc).
      * by apply (ci_closed_cells _ _ _ _ _ Hc).
    + apply elem_of_union_r, (ci_start _ _ _ _ _ Hc).
    + apply not_elem_of_union. split; [|apply (ci_goal _ _ _ _ _ Hc)].
      intros ?%elem_of_singleton. done.
    + intros k. rewrite (ci_dom _ _ _ _ _ Hc k). unfold discovered. simpl.
      rewrite Hkeys. unfold keys. simpl. rewrite elem_of_cons, elem_of_union, elem_of_singleton.
      tauto.
    + intros k p Hk. destruct (ci_parent _ _ _ _ _ Hc k p Hk) as (? & ? & ?).
      split; [by apply elem_of_union_r|done].
    + apply (ci_depth0 _ _ _ _ _ Hc).
    + apply (ci_depth_size _ _ _ _ _ Hc).
    + apply (ci_gscore _ _ _ _ _ Hc).
    + intros i j a b Hij Ha Hb.
      apply (ci_sorted _ _ _ _ _ Hc (S i) (S j)); [lia| |]; by rewrite Hkeys.
  - intros c c' [->%elem_of_singleton|Hcl]%elem_of_union Hst.
    + left. split; [done|]. by apply elem_of_nbrs.
    + right. destruct (Hsteps c c' Hcl Hst) as [Hdisc Hle]. split; [|done].
      unfold discovered in *. simpl. rewrite Hkeys in Hdisc. unfold keys. simpl.
      rewrite elem_of_union, elem_of_singleton.
      destruct Hdisc as [?|Hd]; [auto|].
      apply elem_of_cons in Hd as [?|?]; auto.
  - simpl. intros c [->%elem_of_singleton|Hcl]%elem_of_union; [done|].
    by apply Hlevels.
  - unfold keys. simpl. intros q Hq.
    apply list_elem_of_lookup in Hq as [j Hj].
    apply (ci_sorted _ _ _ _ _ Hc 0%nat (S j)); [lia| |]; by rewrite Hkeys.
Qed.

Lemma search_loop_correct grid : grid_of w grid →
  ∀ fuel st d,
    outer_inv w s goal d st →
    (size (({[s]} ∪ cells w) ∖ closedSet st) < fuel)%nat →
    ∃ p, search_loop fuel w grid endX endY st = Some p ∧
         shortest_or_none w s goal p.
Proof.
  intros Hgrid. induction fuel as [|fuel IH]; intros st d Hinv Hfuel; [lia|].
  pose proof Hinv as (Hc & Hsteps & Hlevels).
  simpl. rewrite sort_by_f_all_Infinity
    by (intros n Hn; by apply (ci_nodes _ _ _ _ _ Hc)).
  destruct (openSet st) as [|n rest] eqn:Hopen.
  - exists []. split; [done|]. right. split; [done|]. intros p' Hr.
    apply (ci_goal _ _ _ _ _ Hc).
    eapply (closed_when_exhausted d st Hinv Hopen); [done|].
    apply (ci_start _ _ _ _ _ Hc).
  - assert (Hn : n ∈ openSet st) by (rewrite Hopen; left).
    destruct (ci_nodes _ _ _ _ _ Hc n Hn) as [Hkey _].
    assert (Hnk : key n ∈ keys st) by (unfold keys; rewrite Hopen; left).
    destruct ((x n =? endX) && (y n =? endY)) eqn:Hgoal.
    + assert (Hng : key n = goal) by (rewrite Hkey; unfold goal; f_equal; lia).
      destruct (reconstructPath_route d st (key n) Hc) as (p & -> & Hr & Hl).
      { right. apply (ci_dom _ _ _ _ _ Hc). split; [by right|].
        intros Heq. apply (ci_open_not_closed _ _ _ _ _ Hc _ Hnk).
        rewrite Heq. apply (ci_start _ _ _ _ _ Hc). }
      exists p. split; [done|]. left. rewrite <- Hng. split; [done|].
      intros p' Hr'. rewrite Hl.
      pose proof (head_depth_minimal d st n rest Hinv Hopen s p' (key n) Hr'
                    eq_refl (ci_start _ _ _ _ _ Hc)) as Hmin.
      rewrite (ci_depth0 _ _ _ _ _ Hc) in Hmin. lia.
    + assert (Hng : key n ≠ goal).
      { rewrite Hkey. unfold goal. intros [= ? ?]. lia. }
      rewrite (getNeighbors_nbrs w grid _ _ Hgrid), <- Hkey. simpl.
      destruct (visit_all w s goal endX endY d (key n) n (nbrs w (key n)) _ eq_refl
                  (λ c', proj1 (elem_of_nbrs w (key n) c'))
                  (pop_inner d st n rest Hinv Hopen Hng))
        as (d' & Hinner & Hclosed).
      apply (IH _ d'); [by eapply inner_outer|].
      rewrite Hclosed. simpl.
      assert (size (({[s]} ∪ cells w) ∖ ({[key n]} ∪ closedSet st)) <
              size (({[s]} ∪ cells w) ∖ closedSet st))%nat; [|lia].
      rewrite (union_comm_L {[key n]}), <- difference_difference_l_L.
      apply subset_size, subset_difference_elem_of, elem_of_difference. split.
      * apply elem_of_union_r, elem_of_cells, passable_in_bounds.
        by apply (ci_open_cells _ _ _ _ _ Hc).
      * by apply (ci_open_not_closed _ _ _ _ _ Hc).
Qed.


Lemma first_inner : s ≠ goal →
  inner_inv w s goal (λ _, 0%nat) s (nbrs w s)
    {| openSet := []; closedSet := {[s]} ∪ ∅; cameFrom := ∅;
       gScore := {[ s := Fin 0 ]};
       fScore := {[ s := Fin (_heuristic s.1 s.2 endX endY) ]} |}.
Proof.
  intros Hne.
  assert (Hcl : ∀ k : Z * Z, k ∈ ({[s]} ∪ ∅ : gset (Z * Z)) ↔ k = s).
  { intros k. rewrite elem_of_union, elem_of_singleton, elem_of_empty. tauto. }
  split; [|split; [by apply Hcl|split; [|split]]].
  - constructor; simpl; unfold keys, discovered; simpl.
    + intros n Hn. by apply elem_of_nil in Hn.
    + apply NoDup_nil_2.
    + intros k Hk. by apply elem_of_nil in Hk.
    + intros k Hk. by apply elem_of_nil in Hk.
    + intros k Hk. left. by apply Hcl.
    + by apply Hcl.
    + rewrite Hcl. congruence.
    + intros k. rewrite lookup_empty, Hcl, elem_of_nil. split; [by intros [? ?]|tauto].
    + intros k p. by rewrite lookup_empty.
    + done.
    + intros k. rewrite lookup_empty. by intros [? ?].
    + intros k v [_ <-]%lookup_singleton_Some. by left.
    + intros i j a b _ Ha. by rewrite lookup_nil in Ha.
  - simpl. intros c c' Hc%Hcl Hst. subst c. left. split; [done|].
    by apply elem_of_nbrs.
  - done.
  - unfold keys. simpl. intros q Hq. by apply elem_of_nil in Hq.
Qed.

End search.

Lemma search_loop_first fuel w grid startX startY endX endY :
  search_loop (S fuel) w grid endX endY (start_search startX startY endX endY) =
  if (startX =? endX) && (startY =? endY) then Some []
  else
    neighbors ← _getNeighbors w startX startY grid;
    search_loop fuel w grid endX endY
      (foldl (visit endX endY
                {| key := (startX, startY); x := startX; y := startY;
                   f := Fin (_heuristic startX startY endX endY) |})
             {| openSet := []; closedSet := {[(startX, startY)]} ∪ ∅;
                cameFrom := ∅; gScore := {[ (startX, startY) := Fin 0 ]};
                fScore := {[ (startX, startY) :=
                               Fin (_heuristic startX startY endX endY) ]} |}
             neighbors).
Proof. reflexivity. Qed.

Lemma findPath_correct w startX startY endX endY :
  World.well_formed w →
  ∃ p, findPath w startX startY endX endY = Some p ∧
       shortest_or_none w (startX, startY) (endX, endY) p.
Proof.
  intros Hwf. destruct (createGrid_grid_of w Hwf) as (grid & Hcreate & Hgrid).
  unfold findPath. rewrite Hcreate.
  replace (search_fuel w) with
    (S (S (Z.to_nat (width (World.size w) * height (World.size w)))))
    by (unfold search_fuel; lia).
  cbn [mbind option_bind]. rewrite search_loop_first.
  destruct ((startX =? endX) && (startY =? endY)) eqn:Hgoal.
  - exists []. split; [done|]. left.
    replace endX with startX by lia. replace endY with startY by lia.
    split; [apply route_nil|]. intros p' _. simpl. lia.
  - assert (Hne : (startX, startY) ≠ (endX, endY)) by (intros [= ? ?]; lia).
    rewrite (getNeighbors_nbrs w grid _ _ Hgrid). cbn [mbind option_bind].
    destruct (visit_all w (startX, startY) (endX, endY) endX endY _ (startX, startY)
                {| key := (startX, startY); x := startX; y := startY;
                   f := Fin (_heuristic startX startY endX endY) |}
                (nbrs w (startX, startY)) _ eq_refl
                (λ c', proj1 (elem_of_nbrs w (startX, startY) c'))
                (first_inner w (startX, startY) endX endY Hne))
      as (d' & Hinner & Hclosed).
    cbn [fst snd] in Hinner, Hclosed.
    eapply (search_loop_correct w); [done|by eapply inner_outer|].
    rewrite Hclosed. cbn [closedSet].
    destruct Hwf as (HW & HH & _).
    assert (size (({[(startX, startY)]} ∪ cells w) ∖ ({[(startX, startY)]} ∪ ∅))
            ≤ size (cells w))%nat.
    { apply subseteq_size. intros k.
      rewrite elem_of_difference, !elem_of_union, elem_of_singleton. tauto. }
    pose proof (size_cells w HW HH). lia.
Qed.

Lemma route_manhattan w c p c' :
  route w c p c' → manhattan c c' ≤ Z.of_nat (length p).
Proof.
  unfold manhattan, _heuristic.
  induction 1 as [c|c c1 p c' [Hadj _] _ IH]; simpl length; [lia|].
  unfold adjacent in Hadj. lia.
Qed.

Lemma clear_route w : ∀ (n : nat) c c',
  manhattan c c' = Z.of_nat n → clear_between w c c' →
  ∃ p, route w c p c' ∧ length p = n.
Proof.
  unfold manhattan, _heuristic.
  induction n as [|n IH]; intros [cx cy] [gx gy] Hn Hclear; simpl in Hn.
  - exists []. split; [|done].
    replace gx with cx by lia. replace gy with cy by lia. apply route_nil.
  - set (c1 := if decide (cx < gx) then (cx + 1, cy)
               else if decide (gx < cx) then (cx - 1, cy)
               else if decide (cy < gy) then (cx, cy + 1) else (cx, cy - 1)).
    assert (Hc1 : Z.abs (cx - c1.1) + Z.abs (cy - c1.2) = 1 ∧
                  Z.abs (c1.1 - gx) + Z.abs (c1.2 - gy) = Z.of_nat n ∧
                  Z.min cx gx ≤ c1.1 ≤ Z.max cx gx ∧
                  Z.min cy gy ≤ c1.2 ≤ Z.max cy gy ∧
                  (∀ x y, Z.min c1.1 gx ≤ x ≤ Z.max c1.1 gx →
                          Z.min c1.2 gy ≤ y ≤ Z.max c1.2 gy →
                          (x ≠ cx ∨ y ≠ cy) ∧
                          Z.min cx gx ≤ x ≤ Z.max cx gx ∧
                          Z.min cy gy ≤ y ≤ Z.max cy gy)).
    { unfold c1. repeat case_decide; simpl;
        (split; [lia|split; [lia|split; [lia|split; [lia|]]]]);
        intros x y ? ?; lia. }
    destruct Hc1 as (Hadj & Hdist & Hx & Hy & Hsub).
    destruct (IH c1 (gx, gy)) as (p & Hp & Hlen); [done| |].
    { intros x y Hxr Hyr Hne. simpl in Hxr, Hyr.
      destruct (Hsub x y Hxr Hyr) as (Hnc & ? & ?).
      apply Hclear; simpl; [done|done|]. intros [= ? ?]. lia. }
    exists (c1 :: p). split; [|simpl; lia].
    apply route_cons; [|done]. split; [done|].
    rewrite (surjective_pairing c1). apply Hclear; simpl; [done|done|].
    intros [= ? ?]. lia.
Qed.

Lemma route_cells w c p c' :
  route w c p c' →
  last (c :: p) = Some c' ∧
  (∀ i a b, (c :: p) !! i = Some a → p !! i = Some b → adjacent a b) ∧
  (∀ a, a ∈ p → passable w a = true).
Proof.
  induction 1 as [c|c c1 p c' [Hadj Hpass] _ (IHl & IHa & IHp)].
  - split; [done|]. split; [by intros i a b _ ?|]. by intros a ?%elem_of_nil.
  - split; [by rewrite last_cons_cons|]. split.
    + intros [|i] a b Ha Hb.
      * simpl in Ha, Hb. by simplify_eq.
      * by apply (IHa i).
    + intros a [->|Ha]%elem_of_cons; [done|by apply IHp].
Qed.

Lemma shortest_or_none_found w s goal p p' :
  shortest_or_none w s goal p → route w s p' goal →
  route w s p goal ∧ ∀ q, route w s q goal → (length p ≤ length q)%nat.
Proof. intros [?|[_ Hno]] Hr; [done|]. by destruct (Hno p'). Qed.

(** C6: when some passable route joins the start cell and the goal cell,
    [findPath] returns a route between them that no route is shorter than;
    and when no obstacle lies between the two cells, its length is their
    Manhattan distance. *)
Theorem findPath_shortest w startX startY endX endY :
  World.well_formed w →
  (∃ p0, route w (startX, startY) p0 (endX, endY)) →
  ∃ p, findPath w startX startY endX endY = Some p ∧
       route w (startX, startY) p (endX, endY) ∧
       (∀ p', route w (startX, startY) p' (endX, endY) →
              (length p ≤ length p')%nat) ∧
       (clear_between w (startX, startY) (endX, endY) →
        Z.of_nat (length p) = manhattan (startX, startY) (endX, endY)).
Proof.
  intros Hwf [p0 Hp0].
  destruct (findPath_correct w startX startY endX endY Hwf) as (p & Hfind & Hres).
  destruct (shortest_or_none_found _ _ _ _ _ Hres Hp0) as [Hr Hmin].
  exists p. split; [done|]. split; [done|]. split; [done|].
  intros Hclear. pose proof (route_manhattan _ _ _ _ Hr) as Hlow.
  assert (Hnn : 0 ≤ manhattan (startX, startY) (endX, endY))
    by (unfold manhattan, _heuristic; lia).
  destruct (clear_route w (Z.to_nat (manhattan (startX, startY) (endX, endY)))
              (startX, startY) (endX, endY)) as (q & Hq & Hlen); [lia|done|].
  specialize (Hmin q Hq). lia.
Qed.

Lemma well_formed_pond : World.well_formed pond.
Proof.
  split; [simpl; lia|]. split; [simpl; lia|]. split; [done|]. split.
  - intros row Hrow.
    assert (H : Forall (λ row, length row = 4%nat) (World.terrain pond))
      by (by repeat constructor).
    by apply (proj1 (Forall_forall _ _) H).
  - intros row tile id Hrow Htile.
    assert (H : Forall (Forall (λ tile, Tile.building tile = None))
                  (World.terrain pond))
      by (by repeat constructor).
    pose proof (proj1 (Forall_forall _ _) H row Hrow) as Hr.
    by rewrite (proj1 (Forall_forall _ _) Hr tile Htile).
Qed.

Lemma route_pond :
  route pond (0, 0) [(1, 0); (2, 0); (3, 0); (3, 1); (3, 2); (2, 2)] (2, 2).
Proof. repeat (apply route_cons; [by split|]). apply route_nil. Qed.

Lemma findPath_shortest_witness :
  ∃ p, findPath pond 0 0 2 2 = Some p ∧
       route pond (0, 0) p (2, 2) ∧
       (∀ p', route pond (0, 0) p' (2, 2) → (length p ≤ length p')%nat) ∧
       (clear_between pond (0, 0) (2, 2) →
        Z.of_nat (length p) = manhattan (0, 0) (2, 2)).
Proof.
  apply (findPath_shortest pond 0 0 2 2 well_formed_pond).
  eexists. apply route_pond.
Defined.

(** C7: [findPath] stops and returns a list for every start and goal: the
    empty list when no route reaches the goal, and, when a route exists, a
    route that runs from the first cell after the start to the goal. *)
Theorem findPath_terminates w startX startY endX endY :
  World.well_formed w →
  ∃ p, findPath w startX startY endX endY = Some p ∧
       ((∀ p', ¬ route w (startX, startY) p' (endX, endY)) → p = []) ∧
       ((∃ p', route w (startX, startY) p' (endX, endY)) →
        route w (startX, startY) p (endX, endY) ∧
        last ((startX, startY) :: p) = Some (endX, endY)).
Proof.
  intros Hwf.
  destruct (findPath_correct w startX startY endX endY Hwf) as (p & Hfind & Hres).
  exists p. split; [done|]. split.
  - intros Hno. destruct Hres as [[Hr _]|[-> _]]; [|done]. by destruct (Hno p).
  - intros [p' Hp'].
    destruct (shortest_or_none_found _ _ _ _ _ Hres Hp') as [Hr _].
    split; [done|]. by apply (route_cells _ _ _ _ Hr).
Qed.

Lemma findPath_terminates_witness :
  ∃ p, findPath pond 0 0 3 3 = Some p ∧
       ((∀ p', ¬ route pond (0, 0) p' (3, 3)) → p = []) ∧
       ((∃ p', route pond (0, 0) p' (3, 3)) →
        route pond (0, 0) p (3, 3) ∧ last ((0, 0) :: p) = Some (3, 3)).
Proof. apply (findPath_terminates pond 0 0 3 3 well_formed_pond). Defined.

(** C10: a non-empty path returned by [findPath] is a chain of neighbouring
    cells: its first cell is a neighbour of the start, every two consecutive
    cells are neighbours, its last cell is the goal, and every cell is
    passable in the grid that [_createGrid] built for the query. *)
Theorem findPath_chain w startX startY endX endY p :
  World.well_formed w →
  findPath w startX startY endX endY = Some p → p ≠ [] →
  (∃ c1, head p = Some c1 ∧ adjacent (startX, startY) c1) ∧
  (∀ i a b, p !! i = Some a → p !! S i = Some b → adjacent a b) ∧
  last p = Some (endX, endY) ∧
  ∃ grid, _createGrid w = Some grid ∧
    ∀ c, c ∈ p →
      _isPassable w c.1 c.2 = Some true ∧
      (grid !! Z.to_nat c.2) ≫= (.!! Z.to_nat c.1) = Some true.
Proof.
  intros Hwf Hfind Hne.
  destruct (findPath_correct w startX startY endX endY Hwf) as (p' & Hfind' & Hres).
  assert (p' = p) as -> by congruence.
  destruct Hres as [[Hr _]|[-> _]]; [|done].
  destruct (route_cells _ _ _ _ Hr) as (Hlast & Hadj & Hpass).
  split; [|split; [|split]].
  - destruct p as [|c1 p]; [done|]. exists c1. split; [done|].
    by apply (Hadj 0%nat).
  - intros i a b Ha Hb. by apply (Hadj (S i)).
  - destruct p as [|c1 p]; [done|]. by rewrite last_cons_cons in Hlast.
  - destruct (createGrid_grid_of w Hwf) as (grid & Hcreate & Hgrid).
    exists grid. split; [done|]. intros c Hc. specialize (Hpass c Hc).
    split.
    + rewrite (isPassable_passable w Hwf c.1 c.2).
      by rewrite <- surjective_pairing, Hpass.
    + destruct (Hgrid c.1 c.2 (passable_in_bounds w c Hpass)) as (row & -> & Hcell).
      simpl. by rewrite Hcell, <- surjective_pairing, Hpass.
Qed.

Lemma findPath_chain_witness :
  (∃ c1, head [(1, 0); (2, 0); (3, 0)] = Some c1 ∧ adjacent (0, 0) c1) ∧
  (∀ i a b, [(1, 0); (2, 0); (3, 0)] !! i = Some a →
            [(1, 0); (2, 0); (3, 0)] !! S i = Some b → adjacent a b) ∧
  last [(1, 0); (2, 0); (3, 0)] = Some (3, 0) ∧
  ∃ grid, _createGrid pond = Some grid ∧
    ∀ c, c ∈ [(1, 0); (2, 0); (3, 0)] →
      _isPassable pond c.1 c.2 = Some true ∧
      (grid !! Z.to_nat c.2) ≫= (.!! Z.to_nat c.1) = Some true.
Proof.
  apply (findPath_chain pond 0 0 3 0 [(1, 0); (2, 0); (3, 0)] well_formed_pond).
  - by vm_compute.
  - done.
Defined.

End PathProofs.

(** ** Buildings, settlers and the world *)

Module SimProofs.
Import LedgerProofs PathProofs.

(** ** Interaction points *)

Lemma construction_interaction_point x y target :
  Entity.interactionPoint (Construction.new x y target) =
  designated_point (bool_decide (target = WAREHOUSE))
    (Entity.position (Construction.new x y target))
    (Entity.size (Construction.new x y target)).
Proof.
  unfold Construction.new, footprint, designated_point,
    Building._defineInteractionPoint. simpl.
  destruct target; simpl; f_equal; try lia;
    replace (1 `div` 2) with 0 by reflexivity; lia.
Qed.

Lemma woodcutter_interaction_point x y :
  Entity.interactionPoint (Woodcutter.new x y) =
  designated_point false (Entity.position (Woodcutter.new x y))
    (Entity.size (Woodcutter.new x y)).
Proof.
  unfold Woodcutter.new, Building.new, Building._defineInteractionPoint,
    designated_point. simpl. f_equal. lia.
Qed.

(** C4 fails on the warehouse: [Warehouse] sets its 2 by 2 size after the
    constructor of [Building] has defined the interaction point from the
    1 by 1 default, so the point is the top-left tile of the footprint and
    not its bottom-right corner. *)
Theorem warehouse_interaction_point x y :
  Entity.size (Warehouse.new x y) = {| width := 2; height := 2 |} ∧
  Entity.interactionPoint (Warehouse.new x y) = (x, y) ∧
  designated_point true (Entity.position (Warehouse.new x y))
    (Entity.size (Warehouse.new x y)) = (x + 1, y + 1) ∧
  Entity.interactionPoint (Warehouse.new x y) ≠
  designated_point true (Entity.position (Warehouse.new x y))
    (Entity.size (Warehouse.new x y)).
Proof.
  unfold Warehouse.new, Building.new, Building._defineInteractionPoint,
    designated_point. simpl.
  split; [done|]. split; [f_equal; lia|]. split; [done|].
  intros [= ? ?]. lia.
Qed.

(** The path finder takes the bottom-right corner for the entry of the
    warehouse: in the example world, the interaction point of the warehouse
    is not passable and the bottom-right corner is. *)
Lemma warehouse_corner_is_entry :
  ∃ w warehouse, Examples.site_placed = Some w ∧
    World.objects w !! 0%nat = Some warehouse ∧
    Entity.interactionPoint warehouse = (1, 1) ∧
    PathFinder._isPassable w 1 1 = Some false ∧
    PathFinder._isPassable w 2 2 = Some true.
Proof.
  eexists _, _.
  split; [vm_compute; reflexivity|]. split; [vm_compute; reflexivity|].
  split; [vm_compute; reflexivity|]. split; vm_compute; reflexivity.
Qed.

(** ** Porters *)

(** C3 fails: in the camp with 6 planks in the ledger, two porters serve
    the construction site of a woodcutter, which requires 5 planks; after
    seven frames 6 planks are allocated to it. *)
Theorem porters_overfill :
  ∃ w w' e c, Examples.camp 1 = Some w ∧ Game.frames 7 w = Some w' ∧
    site_of w' 1%nat = Some (e, c) ∧
    requiredResources c !! "plank" = Some 5 ∧
    allocatedResources c !! "plank" = Some 6.
Proof.
  eexists _, _, _, _.
  split; [vm_compute; reflexivity|]. split; [vm_compute; reflexivity|].
  split; [vm_compute; reflexivity|]. split; vm_compute; reflexivity.
Qed.

Lemma finds_warehouse_unique w a b :
  finds_warehouse w a → finds_warehouse w b → a = b.
Proof. intros (bs & i & H1 & H2) (bs' & j & H1' & H2'). congruence. Qed.

(** C9, as stated, fails: in the camp, the second porter is fetching at the
    warehouse and the ledger has no plank, but the first porter has just
    delivered the last plank the site needs; the attempt of the second
    porter ends in the state Idle. *)
Lemma fetch_abandons_resourced_target :
  ∃ w this, Examples.late_fetch = Some (w, this) ∧
    fetching_at_warehouse w this ∧ ¬ fetch_outcome w this.
Proof.
  eexists _, _. split; [by vm_compute|]. split.
  - split; [done|]. split; [done|]. split; [done|].
    eexists. split; [eexists _, _; by vm_compute|by vm_compute].
  - intros [Hzero _]. destruct Hzero as (w' & this' & Heq & Hst & _).
    + by vm_compute.
    + vm_compute in Heq. injection Heq as <- <-. discriminate Hst.
Qed.

(** C9, amended: a porter in the state FetchingResource, within the
    threshold of the interaction point of the warehouse and carrying
    nothing, whose target construction still lacks resources: while the
    ledger has none of the needed resource, an attempt leaves the porter in
    FetchingResource carrying nothing; once the count is positive, an
    attempt removes exactly one unit of that type from the ledger and the
    porter is in DeliveringResource carrying one unit. *)
Theorem porter_fetch w this :
  fetching_at_warehouse w this → target_in_need w this → fetch_outcome w this.
Proof.
  intros (Hst & Hcr & Hca & warehouse & (bs & i & Hbs & Hfind) & Hnear) Hneed.
  assert (Htarget :
    ∃ target,
      match Settler.targetConstruction this with
      | Some ref => Some <$> site_of w ref
      | None => Some None
      end = Some target ∧
      match target with
      | Some t => Construction._hasAllResources t.2
      | None => false
      end = false).
  { unfold target_in_need in Hneed.
    destruct (Settler.targetConstruction this) as [ref|].
    - destruct Hneed as (e & c & -> & Hc). by exists (Some (e, c)).
    - by exists None. }
  destruct Htarget as (target & Htarget & Hunfinished).
  unfold fetch_outcome, Porter._fetchResourceFromWarehouse.
  rewrite Hbs. simpl. rewrite Hfind, Htarget. simpl.
  rewrite Hunfinished, Hnear.
  set (type := resource_key (Settler.resourceToFetch this)).
  split.
  - intros Hzero. rewrite Hzero. simpl. by exists w, this.
  - intros Hpos.
    replace (0 <? ResourceManager.getResource (World.resources w) type)
      with true by lia.
    eexists _, _. split; [done|]. simpl.
    destruct (removeResource_cases (World.resources w) type 1)
      as [[_ [H|H]]|(v & Hv & _ & _ & ->)]; [lia|lia|]. simpl.
    rewrite (getResource_lookup _ _ _ Hv).
    split; [apply getResource_lookup, lookup_insert_eq|].
    split; [|done]. intros t Ht. by rewrite lookup_insert_ne.
Qed.

Lemma porter_fetch_witness :
  ∃ w this, (w' ← Examples.camp 0; Game.frames 5 w') = Some w ∧
    World.settlers w !! 0%nat = Some this ∧ fetch_outcome w this.
Proof.
  eexists _, _. split; [by vm_compute|]. split; [by vm_compute|].
  apply porter_fetch.
  - split; [done|]. split; [done|]. split; [done|].
    eexists. split; [eexists _, _; by vm_compute|by vm_compute].
  - eexists _, _. by vm_compute.
Defined.

(** ** Placement *)

Lemma elem_of_footprint_cells c position size :
  c ∈ footprint_cells position size ↔
  position.1 ≤ c.1 < position.1 + width size ∧
  position.2 ≤ c.2 < position.2 + height size.
Proof.
  unfold footprint_cells. rewrite list_elem_of_bind. split.
  - intros (gy & Hc & Hgy). apply list_elem_of_bind in Hc as (gx & Hc & Hgx).
    apply list_elem_of_singleton in Hc as ->. simpl.
    apply elem_of_seqZ in Hgx, Hgy. lia.
  - intros [Hx Hy]. exists c.2. split; [|apply elem_of_seqZ; lia].
    apply list_elem_of_bind. exists c.1. split; [|apply elem_of_seqZ; lia].
    rewrite <- surjective_pairing. by apply list_elem_of_singleton.
Qed.

Lemma costs_positive type t a : buildingCosts type !! t = Some a → 0 < a.
Proof.
  destruct type; simpl;
    repeat (rewrite lookup_insert; case_decide; [intros [= <-]; lia|]);
    by intros [_ <-]%lookup_singleton_Some.
Qed.

Lemma hasResources_costs res type :
  ResourceManager.hasResources res (buildingCosts type) = true ↔
  ResourceManager.covered res (buildingCosts type).
Proof.
  rewrite hasResources_available. split.
  - intros H t a Hta. by apply H.
  - intros H t a Hta. specialize (H t a Hta).
    pose proof (costs_positive type t a Hta). lia.
Qed.

Lemma tiles_free_all w cs :
  (∀ c, c ∈ cs → is_Some (World.tileAt w c.1 c.2)) →
  ∃ b, Coordinator.tiles_free w cs = Some b ∧
       (b = true ↔ ∀ c, c ∈ cs → tile_free w c).
Proof.
  induction cs as [|c cs IH]; intros Htiles.
  - exists true. split; [done|]. split; [|done]. by intros _ c ?%elem_of_nil.
  - destruct (Htiles c) as [tile Htile]; [left|].
    destruct IH as (b & Hb & Hbt); [intros c' ?; apply Htiles; by right|].
    simpl. rewrite Htile. simpl.
    destruct (bool_decide (Tile.type tile ≠ GRASS)
              || bool_decide (is_Some (Tile.building tile))) eqn:Hbad.
    + exists false. split; [done|]. split; [done|]. intros Hall.
      destruct (Hall c) as (tile' & Htile' & Hgrass & Hnone); [left|].
      assert (tile' = tile) as -> by congruence.
      apply orb_true_iff in Hbad as [Hbad%bool_decide_eq_true|Hbad%bool_decide_eq_true].
      * done.
      * rewrite Hnone in Hbad. by destruct Hbad.
    + exists b. split; [done|]. rewrite Hbt. split.
      * intros Hall c' [->|Hc']%elem_of_cons; [|by apply Hall].
        exists tile. split; [done|].
        apply orb_false_iff in Hbad as [Hg%bool_decide_eq_false Hn%bool_decide_eq_false].
        split; [by destruct (decide (Tile.type tile = GRASS))|].
        destruct (Tile.building tile); [|done]. destruct Hn. eauto.
      * intros Hall c' Hc'. apply Hall. by right.
Qed.

Lemma isPlacementValid_site w type x y :
  World.well_formed w → World.buildingTypeToPlace w = Some type →
  ∃ b, Coordinator._isPlacementValid w x y = Some b ∧
       (b = true ↔ site_free w type x y ∧
                   ResourceManager.covered (World.resources w) (buildingCosts type)).
Proof.
  intros Hwf Htype. unfold Coordinator._isPlacementValid, site_free.
  rewrite Htype.
  assert (Hsize : 1 ≤ width (footprint (Some type)) ∧
                  1 ≤ height (footprint (Some type))).
  { unfold footprint. simpl. case_bool_decide; lia. }
  revert Hsize. generalize (footprint (Some type)). intros size Hsize.
  destruct ((x <? 0) || (y <? 0) || (width (World.size w) <? x + width size)
            || (height (World.size w) <? y + height size)) eqn:Hout.
  - exists false. split; [done|]. split; [done|]. intros [Hfree _].
    destruct (Hfree (x, y)) as [Hb1 _];
      [apply elem_of_footprint_cells; cbn [fst snd]; lia|].
    destruct (Hfree (x + width size - 1, y + height size - 1)) as [Hb2 _];
      [apply elem_of_footprint_cells; cbn [fst snd]; lia|].
    apply out_of_bounds_false in Hb1, Hb2. cbn [fst snd] in Hb1, Hb2. lia.
  - assert (Hin : ∀ c, c ∈ footprint_cells (x, y) size →
                       PathFinder.out_of_bounds w c.1 c.2 = false).
    { intros c Hc%elem_of_footprint_cells. cbn [fst snd] in Hc.
      apply out_of_bounds_false. lia. }
    destruct (tiles_free_all w (footprint_cells (x, y) size)) as (b & -> & Hb).
    { intros c Hc. destruct (tileAt_in_bounds w Hwf c.1 c.2 (Hin c Hc))
        as (row & tile & _ & _ & ->). eauto. }
    simpl. destruct b; simpl.
    + eexists. split; [done|]. rewrite hasResources_costs.
      split; [|tauto]. intros Hcov. split; [|done].
      intros c Hc. split; [by apply Hin|]. by apply Hb.
    + exists false. split; [done|]. split; [done|]. intros [Hfree _].
      enough (false = true) by done. apply Hb. intros c Hc. by apply Hfree.
Qed.

Lemma mark_tiles_total w ref cs : ∀ terrain,
  length terrain = Z.to_nat (height (World.size w)) →
  (∀ row, row ∈ terrain → length row = Z.to_nat (width (World.size w))) →
  is_Some (Coordinator.mark_tiles w ref cs terrain).
Proof.
  induction cs as [|c cs IH]; intros terrain Hrows Hcols; [by eexists|].
  simpl. unfold Coordinator.mark_tile.
  destruct (PathFinder.out_of_bounds w c.1 c.2) eqn:Hb; simpl; [by apply IH|].
  apply out_of_bounds_false in Hb.
  destruct (lookup_lt_is_Some_2 terrain (Z.to_nat c.2)) as [row Hrow]; [lia|].
  rewrite Hrow. simpl.
  destruct (lookup_lt_is_Some_2 row (Z.to_nat c.1)) as [tile Htile].
  { rewrite (Hcols row) by (by eapply list_elem_of_lookup_2). lia. }
  rewrite Htile. simpl. apply IH.
  - by rewrite length_alter.
  - intros row' [j Hj]%list_elem_of_lookup.
    destruct (decide (Z.to_nat c.2 = j)) as [<-|Hne].
    + rewrite list_lookup_alter_eq, Hrow in Hj. simpl in Hj.
      injection Hj as <-. rewrite length_alter.
      apply Hcols. by eapply list_elem_of_lookup_2.
    + rewrite list_lookup_alter_ne in Hj by done.
      apply Hcols. by eapply list_elem_of_lookup_2.
Qed.

Lemma addConstruction_fields w e :
  World.well_formed w →
  ∃ w', Coordinator.addConstruction w e = Some w' ∧
    World.objects w !! Coordinator.new_ref w = None ∧
    World.objects w' = <[Coordinator.new_ref w := e]> (World.objects w) ∧
    World.constructions w' = World.constructions w ++ [Coordinator.new_ref w] ∧
    World.buildings w' = World.buildings w ∧
    World.resources w' = World.resources w ∧
    World.settlers w' = World.settlers w.
Proof.
  intros (_ & _ & Hrows & Hcols & _). unfold Coordinator.addConstruction.
  destruct (mark_tiles_total w (Coordinator.new_ref w)
              (footprint_cells (Entity.position e) (Entity.size e))
              (World.terrain w) Hrows Hcols) as [terrain' ->].
  eexists. split; [done|]. split; [|done].
  apply not_elem_of_dom. unfold Coordinator.new_ref. apply is_fresh.
Qed.

Lemma addBuilding_fields w e :
  World.well_formed w →
  ∃ w', Coordinator.addBuilding w e = Some w' ∧
    World.objects w !! Coordinator.new_ref w = None ∧
    World.objects w' = <[Coordinator.new_ref w := e]> (World.objects w) ∧
    World.buildings w' = World.buildings w ++ [Coordinator.new_ref w] ∧
    World.constructions w' = World.constructions w ∧
    World.resources w' = World.resources w ∧
    World.settlers w' = World.settlers w.
Proof.
  intros (_ & _ & Hrows & Hcols & _). unfold Coordinator.addBuilding.
  destruct (mark_tiles_total w (Coordinator.new_ref w)
              (footprint_cells (Entity.position e) (Entity.size e))
              (World.terrain w) Hrows Hcols) as [terrain' ->].
  eexists. split; [done|]. split; [|done].
  apply not_elem_of_dom. unfold Coordinator.new_ref. apply is_fresh.
Qed.

Lemma cancelBuildingPlacement_fields w :
  let w' := Coordinator.cancelBuildingPlacement w in
  World.size w' = World.size w ∧ World.terrain w' = World.terrain w ∧
  World.objects w' = World.objects w ∧
  World.buildings w' = World.buildings w ∧
  World.constructions w' = World.constructions w ∧
  World.settlers w' = World.settlers w ∧
  World.resources w' = World.resources w.
Proof.
  unfold Coordinator.cancelBuildingPlacement.
  by destruct (World.buildingPlacementMode w).
Qed.

Lemma startBuildingPlacement_fields type w :
  let w' := Coordinator.startBuildingPlacement type w in
  World.size w' = World.size w ∧ World.terrain w' = World.terrain w ∧
  World.objects w' = World.objects w ∧
  World.buildings w' = World.buildings w ∧
  World.constructions w' = World.constructions w ∧
  World.settlers w' = World.settlers w ∧
  World.resources w' = World.resources w ∧
  World.buildingPlacementMode w' = true ∧
  World.buildingTypeToPlace w' = Some type ∧
  World.placementPreviewMesh w' = true.
Proof.
  unfold Coordinator.startBuildingPlacement, Coordinator.cancelBuildingPlacement.
  by destruct (World.buildingPlacementMode w).
Qed.

(** Well-formedness and the statements about tiles only read the size, the
    terrain and the store. *)
Lemma well_formed_same w w' :
  World.size w' = World.size w → World.terrain w' = World.terrain w →
  World.objects w' = World.objects w →
  World.well_formed w → World.well_formed w'.
Proof. unfold World.well_formed. by intros -> -> ->. Qed.

Lemma site_free_same w w' type x y :
  World.size w' = World.size w → World.terrain w' = World.terrain w →
  site_free w' type x y ↔ site_free w type x y.
Proof.
  intros Hs Ht.
  unfold site_free, tile_free, World.tileAt, PathFinder.out_of_bounds.
  by rewrite Hs, Ht.
Qed.

(** When the preview is moved to [(x, y)] between the choice of the type
    and the click, the placement is validated: it succeeds only when every
    tile of the footprint is in bounds, grass and unoccupied and the ledger
    covers the cost of the type; then it consumes exactly that cost and adds
    a new construction site for the type at [(x, y)]; in every other case
    the ledger, the terrain and the list of constructions stay as they
    are. *)
Theorem placeBuilding_validated type x y w :
  World.well_formed w →
  ∃ w', Coordinator.placeBuilding type x y w = Some w' ∧
    (site_free w type x y ∧
     ResourceManager.covered (World.resources w) (buildingCosts type) →
       ResourceManager.decremented (World.resources w) (buildingCosts type)
         (World.resources w') ∧
       ∃ ref, World.objects w !! ref = None ∧
         World.constructions w' = World.constructions w ++ [ref] ∧
         World.objects w' !! ref = Some (Construction.new x y type) ∧
         Entity.position (Construction.new x y type) = (x, y)) ∧
    (¬ (site_free w type x y ∧
        ResourceManager.covered (World.resources w) (buildingCosts type)) →
       World.resources w' = World.resources w ∧
       World.terrain w' = World.terrain w ∧
       World.constructions w' = World.constructions w ∧
       World.objects w' = World.objects w).
Proof.
  intros Hwf.
  pose proof (startBuildingPlacement_fields type w)
    as (Hsz & Hter & Hobj & Hbld & Hcon & Hset & Hres & Hmode & Htype & Hmesh).
  unfold Coordinator.placeBuilding.
  remember (Coordinator.startBuildingPlacement type w) as w1 eqn:Hw1.
  clear Hw1. simpl in *.
  assert (Hwf1 : World.well_formed w1) by (by apply (well_formed_same w)).
  destruct (isPlacementValid_site w1 type x y Hwf1 Htype) as (b & Hvalid & Hb).
  rewrite (site_free_same w w1) in Hb by done. rewrite Hres in Hb.
  unfold Coordinator._updatePlacementPreview.
  rewrite Hmesh. simpl. rewrite Hvalid. simpl.
  unfold Coordinator._onClick. simpl. rewrite Hmode.
  destruct b.
  - unfold Coordinator._placeBuilding. simpl. rewrite Htype. simpl.
    destruct Hb as [[Hfree Hcov] _]; [done|].
    destruct (consumeResources_accepts _ _ (proj2 (hasResources_costs _ _) Hcov))
      as (res' & Hcons & Hdec).
    rewrite Hres, Hcons. simpl.
    set (w2 := SetWorld.resources res' _).
    destruct (addConstruction_fields w2 (Construction.new x y type))
      as (w3 & -> & Hfresh & Hobj3 & Hcon3 & _ & Hres3 & _).
    { by apply (well_formed_same w1). }
    simpl.
    pose proof (cancelBuildingPlacement_fields w3)
      as (_ & _ & Hobj4 & _ & Hcon4 & _ & Hres4).
    eexists. split; [done|]. split; [|tauto]. intros _.
    rewrite Hres4, Hres3. split; [done|].
    exists (Coordinator.new_ref w2).
    rewrite Hcon4, Hcon3, Hobj4, Hobj3. simpl in *.
    rewrite Hobj in Hfresh. rewrite Hcon, lookup_insert_eq. done.
  - eexists. split; [done|]. simpl. split; [|done].
    intros H. apply Hb in H. done.
Qed.

Lemma well_formed_field : World.well_formed Examples.field.
Proof.
  split; [by vm_compute|]. split; [by vm_compute|]. split; [by vm_compute|].
  split.
  - intros row [-> _]%elem_of_replicate. by vm_compute.
  - intros row tile id [-> _]%elem_of_replicate [-> _]%elem_of_replicate.
    discriminate.
Qed.

Lemma placeBuilding_validated_witness :
  ∃ w', Coordinator.placeBuilding WOODCUTTER 3 1 Examples.field = Some w' ∧
    ResourceManager.decremented (World.resources Examples.field)
      (buildingCosts WOODCUTTER) (World.resources w').
Proof.
  destruct (placeBuilding_validated WOODCUTTER 3 1 Examples.field
              well_formed_field) as (w' & Hplace & Hyes & _).
  exists w'. split; [exact Hplace|]. apply Hyes. split.
  - intros c Hc%elem_of_footprint_cells.
    assert (c = (3, 1)) as ->.
    { change (footprint (Some WOODCUTTER))
        with {| width := 1; height := 1 |} in Hc.
      destruct c as [cx cy]. cbn [fst snd width height] in Hc. f_equal; lia. }
    split; [vm_compute; reflexivity|].
    exists PathFinder.grass. vm_compute. repeat split.
  - intros t a Hta.
    change (buildingCosts WOODCUTTER) with ({[ "plank" := 5 ]} : gmap string Z)
      in Hta.
    apply lookup_singleton_Some in Hta as [<- <-]. vm_compute. discriminate.
Defined.

(** ** Progress of a construction *)

Lemma progress_kept_objects w w' :
  World.objects w' = World.objects w → progress_kept w w'.
Proof.
  intros Hobj ref e' c' Hsite. right. exists e', c'.
  unfold site_of in *. by rewrite <- Hobj.
Qed.

Lemma progress_kept_trans w1 w2 w3 :
  progress_kept w1 w2 → progress_kept w2 w3 → progress_kept w1 w3.
Proof.
  intros H12 H23 ref e3 c3 H3.
  destruct (H23 ref e3 c3 H3) as [?|(e2 & c2 & H2 & Heq)]; [by left|].
  destruct (H12 ref e2 c2 H2) as [?|(e1 & c1 & H1 & Heq')].
  - left. congruence.
  - right. exists e1, c1. split; [done|congruence].
Qed.

Lemma site_of_update_site f ref w ref' e' c' :
  site_of (update_site f ref w) ref' = Some (e', c') →
  ∃ e c, site_of w ref' = Some (e, c) ∧
         (c' = c ∨ (ref' = ref ∧ c' = f c)).
Proof.
  unfold site_of, update_site. simpl.
  destruct (decide (ref = ref')) as [<-|Hne].
  - rewrite lookup_alter_eq.
    destruct (World.objects w !! ref) as [e|]; [|done]. simpl.
    destruct (Entity.site e) as [c|] eqn:Hc; simpl.
    + intros [= <- <-]. exists e, c. auto.
    + by rewrite Hc.
  - rewrite lookup_alter_ne by done. intros H. exists e', c'. auto.
Qed.

Lemma progress_kept_allocated a ref w :
  progress_kept w (update_site (set_allocatedResources a) ref w).
Proof.
  intros ref' e' c' (e & c & Hsite & [->|[_ ->]])%site_of_update_site;
    right; by exists e, c.
Qed.

Lemma progress_kept_new w w' new e :
  World.objects w' = <[new := e]> (World.objects w) →
  (∀ c, Entity.site e = Some c → progress c = 0) →
  progress_kept w w'.
Proof.
  intros Hobj Hnew ref e' c'. unfold site_of. rewrite Hobj.
  destruct (decide (new = ref)) as [<-|Hne].
  - rewrite lookup_insert_eq. simpl.
    destruct (Entity.site e) as [c|] eqn:Hc; simpl; [|done].
    intros [= <- <-]. left. by apply Hnew.
  - rewrite lookup_insert_ne by done. intros H. right. by exists e', c'.
Qed.

Lemma progress_kept_not_reached w w' ref :
  progress_kept w w' → ¬ reaches_100 w w' ref.
Proof.
  intros Hkept [(e' & c' & Hsite & Hge) Hnot].
  destruct (Hkept ref e' c' Hsite) as [?|(e & c & Hs & Heq)]; [lia|].
  apply Hnot. exists e, c. split; [done|lia].
Qed.

Lemma fetch_keeps_objects w this w1 this1 :
  Porter._fetchResourceFromWarehouse w this = Some (w1, this1) →
  World.objects w1 = World.objects w.
Proof.
  unfold Porter._fetchResourceFromWarehouse. intros H.
  repeat (simplify_option_eq; try case_match); done.
Qed.

Lemma porter_deliver_kept w this w1 this1 :
  Porter._deliverResourceToConstruction w this = Some (w1, this1) →
  progress_kept w w1.
Proof.
  unfold Porter._deliverResourceToConstruction. intros H.
  repeat (simplify_option_eq; try case_match);
    first [ apply progress_kept_allocated | by apply progress_kept_objects ].
Qed.

Lemma porter_handle_kept w this w1 this1 :
  Porter.handle w this = Some (w1, this1) → progress_kept w w1.
Proof.
  unfold Porter.handle. intros H.
  repeat case_bool_decide; simplify_option_eq;
    eauto using porter_deliver_kept, progress_kept_objects, fetch_keeps_objects.
Qed.

Lemma porter_update_kept arrived w this w1 this1 :
  Porter.update arrived w this = Some (w1, this1) → progress_kept w w1.
Proof.
  unfold Porter.update. destruct (SettlerOps.moving this).
  - intros [= <- _]. by apply progress_kept_objects.
  - apply porter_handle_kept.
Qed.

Lemma porter_retry_kept w this w1 this1 :
  Porter.retry w this = Some (w1, this1) → progress_kept w w1.
Proof.
  unfold Porter.retry. intros H.
  repeat case_bool_decide; simplify_option_eq;
    eauto using progress_kept_objects, fetch_keeps_objects.
Qed.

(** [_performBuilding] writes the progress of the target, and only when
    the building time is complete. *)
Lemma performBuilding_progress w this w1 this1 :
  Builder._performBuilding w this = Some (w1, this1) →
  progress_kept w w1 ∨
  ∃ ref, Settler.targetConstruction this = Some ref ∧
    ref ∈ World.constructions w ∧
    Settler.buildingTime this
      ≤ Settler.currentBuildingTime this + Builder.frame_time ∧
    w1 = update_site (set_progress 100) ref w.
Proof.
  unfold Builder._performBuilding. intros H.
  destruct (Settler.targetConstruction this) as [ref|];
    [|left; simplify_eq; by apply progress_kept_objects].
  case_bool_decide as Hlive;
    [left; simplify_eq; by apply progress_kept_objects|].
  simpl in H.
  destruct (Settler.buildingTime this <=?
            Settler.currentBuildingTime this + Builder.frame_time) eqn:Htime;
    [|left; simplify_eq; by apply progress_kept_objects].
  simplify_option_eq. right. exists ref. split; [done|].
  split; [by destruct (decide (ref ∈ World.constructions w))|].
  split; [lia|done].
Qed.

Lemma builder_handle_progress w this w1 this1 :
  Builder.handle w this = Some (w1, this1) →
  progress_kept w w1 ∨
  ∃ ref, Settler.state this = "BUILDING" ∧
    Settler.targetConstruction this = Some ref ∧
    ref ∈ World.constructions w ∧
    Settler.buildingTime this
      ≤ Settler.currentBuildingTime this + Builder.frame_time ∧
    w1 = update_site (set_progress 100) ref w.
Proof.
  unfold Builder.handle. intros H.
  case_bool_decide; [left; simplify_option_eq; by apply progress_kept_objects|].
  case_bool_decide; [left; simplify_option_eq; by apply progress_kept_objects|].
  case_bool_decide as Hst; [|left; simplify_eq; by apply progress_kept_objects].
  destruct (performBuilding_progress _ _ _ _ H) as [?|(ref & ? & ? & ? & ?)];
    [by left|right]. by exists ref.
Qed.

Lemma addBuilding_objects w e w' :
  Coordinator.addBuilding w e = Some w' →
  World.objects w' = <[Coordinator.new_ref w := e]> (World.objects w).
Proof. unfold Coordinator.addBuilding. intros H. by simplify_option_eq. Qed.

Lemma addConstruction_objects w e w' :
  Coordinator.addConstruction w e = Some w' →
  World.objects w' = <[Coordinator.new_ref w := e]> (World.objects w).
Proof. unfold Coordinator.addConstruction. intros H. by simplify_option_eq. Qed.

Lemma completeConstruction_kept w ref w' :
  Coordinator.completeConstruction w ref = Some w' → progress_kept w w'.
Proof.
  unfold Coordinator.completeConstruction. intros H.
  destruct (site_of w ref) as [[e c]|]; [|done]. simpl in H.
  destruct (targetBuildingType c);
    try (simplify_eq; by apply progress_kept_objects);
    apply addBuilding_objects in H;
    by eapply (progress_kept_trans _ (SetWorld.constructions _ w));
      [apply progress_kept_objects|eapply progress_kept_new].
Qed.

Lemma updateConstruction_kept w ref w' :
  Coordinator.updateConstruction w ref = Some w' → progress_kept w w'.
Proof.
  unfold Coordinator.updateConstruction. intros H.
  destruct (site_of w ref) as [[e c]|]; [|done]. simpl in H.
  destruct (100 <=? progress c); [by eapply completeConstruction_kept|].
  simplify_eq. by apply progress_kept_objects.
Qed.

Lemma placeBuilding_kept w w' :
  Coordinator._placeBuilding w = Some w' → progress_kept w w'.
Proof.
  unfold Coordinator._placeBuilding. intros H.
  destruct (World.placementValid w); simpl in H;
    [|simplify_eq; by apply progress_kept_objects].
  destruct (World.placementGridPosition w) as [[x y]|];
    [|simplify_eq; by apply progress_kept_objects].
  simplify_option_eq.
  match goal with Hadd : Coordinator.addConstruction _ _ = Some ?w2 |- _ =>
    apply addConstruction_objects in Hadd;
    apply (progress_kept_trans _ w2);
      [|apply progress_kept_objects, cancelBuildingPlacement_fields];
    eapply (progress_kept_trans _ (SetWorld.resources _ w));
      [by apply progress_kept_objects|];
    eapply progress_kept_new; [exact Hadd|by intros c [= <-]]
  end.
Qed.

Lemma onClick_kept w w' : Coordinator._onClick w = Some w' → progress_kept w w'.
Proof.
  unfold Coordinator._onClick. intros H.
  destruct (World.buildingPlacementMode w), (World.placementValid w);
    simplify_eq; try (by apply progress_kept_objects).
  by apply placeBuilding_kept.
Qed.

Lemma updatePlacementPreview_kept w hit w' :
  Coordinator._updatePlacementPreview w hit = Some w' → progress_kept w w'.
Proof.
  unfold Coordinator._updatePlacementPreview. intros H.
  destruct (World.placementPreviewMesh w), hit; simplify_option_eq;
    by apply progress_kept_objects.
Qed.

Lemma fireTimer_kept t w i w' :
  Game.fireTimer t w i = Some w' → progress_kept w w'.
Proof.
  unfold Game.fireTimer. intros H.
  destruct (World.settlers w !! i) as [this|]; [|done]. simpl in H.
  destruct t; [destruct (Settler.type this)| |].
  - destruct (Porter.retry w this) as [[w1 this1]|] eqn:Hretry; [|done].
    simpl in H. injection H as <-.
    apply (progress_kept_trans _ w1); [by eapply porter_retry_kept|].
    by apply progress_kept_objects.
  - destruct (Builder.retry w this) as [this1|]; [|done].
    simpl in H. injection H as <-. by apply progress_kept_objects.
  - simpl in H. injection H as <-. by apply progress_kept_objects.
  - simpl in H. injection H as <-. by apply progress_kept_objects.
Qed.

(** The progress of a construction reaches 100 only in the update of a
    builder that completes its building time on it. *)
Lemma reaches_100_by_builder w ev w' ref :
  Game.perform w ev = Some w' → reaches_100 w w' ref →
  ∃ i arrived, ev = Game.UpdateSettler i arrived ∧ builder_finishes w i ref ∧
    ∃ e' c', site_of w' ref = Some (e', c') ∧ progress c' = 100.
Proof.
  intros Hperform Hreach.
  assert (Hkept : ∀ P : Prop, progress_kept w w' → P).
  { intros P Hk. by destruct (progress_kept_not_reached w w' ref Hk). }
  destruct ev as [i arrived|t i|r|hit| | |]; simpl in Hperform.
  - unfold Game.updateSettler in Hperform.
    destruct (World.settlers w !! i) as [this|] eqn:Hthis; [|done].
    simpl in Hperform.
    destruct (Settler.type this) eqn:Htype.
    + apply Hkept.
      destruct (Porter.update arrived w this) as [[w1 this1]|] eqn:Hupdate;
        [|done].
      simpl in Hperform. injection Hperform as <-.
      apply (progress_kept_trans _ w1); [by eapply porter_update_kept|].
      by apply progress_kept_objects.
    + unfold Builder.update in Hperform.
      destruct (SettlerOps.moving this) eqn:Hmoving.
      { apply Hkept. simpl in Hperform. injection Hperform as <-.
        by apply progress_kept_objects. }
      destruct (Builder.handle w this) as [[w1 this1]|] eqn:Hhandle; [|done].
      simpl in Hperform. injection Hperform as <-.
      destruct (builder_handle_progress _ _ _ _ Hhandle)
        as [Hk|(target & Hst & Htarget & Hlive & Htime & ->)].
      { apply Hkept. apply (progress_kept_trans _ w1); [done|].
        by apply progress_kept_objects. }
      destruct Hreach as [(e' & c' & Hsite & Hge) Hnot].
      destruct (site_of_update_site (set_progress 100) target w ref e' c' Hsite)
        as (e & c & Hs & [->|[-> ->]]).
      { destruct Hnot. by exists e, c. }
      exists i, arrived. split; [done|]. split; [by exists this|].
      by exists e', (set_progress 100 c).
  - apply Hkept. by eapply fireTimer_kept.
  - apply Hkept. by eapply updateConstruction_kept.
  - apply Hkept. by eapply updatePlacementPreview_kept.
  - apply Hkept. by eapply onClick_kept.
  - apply Hkept. injection Hperform as <-.
    apply progress_kept_objects, startBuildingPlacement_fields.
  - apply Hkept. injection Hperform as <-.
    apply progress_kept_objects, cancelBuildingPlacement_fields.
Qed.

Lemma updateConstruction_complete w ref e c :
  site_of w ref = Some (e, c) → 100 ≤ progress c →
  Coordinator.updateConstruction w ref =
    let w1 := SetWorld.constructions
                (filter (λ r, r ≠ ref) (World.constructions w)) w in
    match targetBuildingType c with
    | WAREHOUSE =>
        Coordinator.addBuilding w1
          (Warehouse.new (Entity.position e).1 (Entity.position e).2)
    | WOODCUTTER =>
        Coordinator.addBuilding w1
          (Woodcutter.new (Entity.position e).1 (Entity.position e).2)
    | _ => Some w1
    end.
Proof.
  intros Hsite Hge.
  unfold Coordinator.updateConstruction, Coordinator.completeConstruction.
  rewrite Hsite. simpl. by replace (100 <=? progress c) with true by lia.
Qed.

Lemma construction_replaced w ref :
  World.well_formed w →
  (∀ e c, site_of w ref = Some (e, c) →
          targetBuildingType c = WAREHOUSE ∨ targetBuildingType c = WOODCUTTER) →
  replaced_by_building w ref.
Proof.
  intros Hwf Htarget e c Hsite Hge.
  rewrite (updateConstruction_complete w ref e c Hsite Hge).
  set (w1 := SetWorld.constructions _ w). simpl.
  assert (Hwf1 : World.well_formed w1) by (by apply (well_formed_same w)).
  assert (Hgone : ref ∉ World.constructions w1).
  { simpl. intros [? _]%list_elem_of_filter. done. }
  destruct (Htarget e c Hsite) as [Ht|Ht]; rewrite Ht.
  - destruct (addBuilding_fields w1
                (Warehouse.new (Entity.position e).1 (Entity.position e).2) Hwf1)
      as (w' & -> & Hfresh & Hobj & Hbld & Hcon & _).
    eexists w', (Coordinator.new_ref w1), _.
    split; [done|]. split; [by rewrite Hcon|]. split; [done|].
    split; [done|]. split; [by rewrite Hobj, lookup_insert_eq|].
    split; [done|]. split; [done|]. simpl. by rewrite <- surjective_pairing.
  - destruct (addBuilding_fields w1
                (Woodcutter.new (Entity.position e).1 (Entity.position e).2) Hwf1)
      as (w' & -> & Hfresh & Hobj & Hbld & Hcon & _).
    eexists w', (Coordinator.new_ref w1), _.
    split; [done|]. split; [by rewrite Hcon|]. split; [done|].
    split; [done|]. split; [by rewrite Hobj, lookup_insert_eq|].
    split; [done|]. split; [done|]. simpl. by rewrite <- surjective_pairing.
Qed.

Lemma construction_removed_only w ref e c :
  site_of w ref = Some (e, c) → 100 ≤ progress c →
  targetBuildingType c ≠ WAREHOUSE → targetBuildingType c ≠ WOODCUTTER →
  Coordinator.updateConstruction w ref =
    Some (SetWorld.constructions
            (filter (λ r, r ≠ ref) (World.constructions w)) w).
Proof.
  intros Hsite Hge Hw Hc.
  rewrite (updateConstruction_complete w ref e c Hsite Hge). simpl.
  by destruct (targetBuildingType c).
Qed.

(** C5, as stated, fails: the construction site of a sawmill whose progress
    is 100 is taken off the list of constructions, and no building takes
    its place; [completeConstruction] knows the warehouse and the
    woodcutter only. *)
Lemma sawmill_not_replaced :
  ∃ w, Examples.sawmill_built = Some w ∧ ¬ replaced_by_building w 1%nat.
Proof.
  eexists. split; [vm_compute; reflexivity|]. intros Hrep.
  edestruct Hrep as (w' & new & b & Hupd & _ & Hfresh & Hbld & _);
    [vm_compute; reflexivity|vm_compute; discriminate|].
  vm_compute in Hupd. injection Hupd as <-.
  vm_compute in Hbld. discriminate Hbld.
Qed.

(** C5, amended: the progress of a construction reaches 100 only in the
    update of a builder at rest in the state Building, whose target is that
    construction and is on the list of constructions, and whose accumulated
    building time reaches the building time with this frame (5000 ms for
    every builder); and when its progress is at least 100, the update of the
    construction takes it off the list of constructions and, for the target
    types warehouse and woodcutter, puts a building of the target type at
    the same grid position; for every other target type it is only taken
    off the list. *)
Theorem construction_completion :
  (∀ w ev w' ref, Game.perform w ev = Some w' → reaches_100 w w' ref →
     ∃ i arrived, ev = Game.UpdateSettler i arrived ∧
       builder_finishes w i ref ∧
       ∃ e' c', site_of w' ref = Some (e', c') ∧ progress c' = 100) ∧
  (∀ x y, Settler.buildingTime (Builder.new x y) = 500000) ∧
  (∀ w ref, World.well_formed w →
     (∀ e c, site_of w ref = Some (e, c) →
        targetBuildingType c = WAREHOUSE ∨ targetBuildingType c = WOODCUTTER) →
     replaced_by_building w ref) ∧
  (∀ w ref e c, site_of w ref = Some (e, c) → 100 ≤ progress c →
     targetBuildingType c ≠ WAREHOUSE → targetBuildingType c ≠ WOODCUTTER →
     Coordinator.updateConstruction w ref =
       Some (SetWorld.constructions
               (filter (λ r, r ≠ ref) (World.constructions w)) w)).
Proof.
  split; [apply reaches_100_by_builder|]. split; [done|].
  split; [apply construction_replaced|apply construction_removed_only].
Qed.

Lemma construction_completion_witness :
  ∃ w w', Examples.almost_built = Some w ∧
    Game.perform w (Game.UpdateSettler 2 None) = Some w' ∧
    builder_finishes w 2 1.
Proof.
  assert (∃ w w', Examples.almost_built = Some w ∧
            Game.perform w (Game.UpdateSettler 2 None) = Some w' ∧
            reaches_100 w w' 1) as (w & w' & Hw & Hperform & Hreach).
  { eexists _, _. split; [vm_compute; reflexivity|].
    split; [vm_compute; reflexivity|]. split.
    - eexists _, _. split; [vm_compute; reflexivity|]. vm_compute. discriminate.
    - intros (e & c & Hs & Hge). vm_compute in Hs. injection Hs as <- <-.
      vm_compute in Hge. by apply Hge. }
  exists w, w'. split; [exact Hw|]. split; [exact Hperform|].
  destruct (proj1 construction_completion w _ w' 1%nat Hperform Hreach)
    as (i & arrived & Hev & Hb & _).
  injection Hev as <- _. exact Hb.
Defined.

End SimProofs.

(** * Further properties *)

Module LedgerFacts.
Import ResourceManager LedgerProofs.

Lemma addResource_getResource res t n :
  (addResource res t n).2 = true ∧
  getResource (addResource res t n).1 t = getResource res t + n ∧
  ∀ t', t' ≠ t → getResource (addResource res t n).1 t' = getResource res t'.
Proof.
  unfold addResource, getResource, truthy. split; [done|]. simpl.
  destruct (res !! t) as [v|] eqn:Hv; simpl.
  - destruct (v =? 0) eqn:Hz; simpl.
    + rewrite !lookup_insert_eq. simpl. split.
      { destruct (0 + n =? 0) eqn:?; lia. }
      intros t' Hne. by rewrite !lookup_insert_ne.
    + rewrite Hv. rewrite lookup_insert_eq. simpl. split.
      { destruct (v + n =? 0) eqn:?; lia. }
      intros t' Hne. by rewrite lookup_insert_ne.
  - rewrite !lookup_insert_eq. simpl. split.
    { destruct (0 + n =? 0) eqn:?; lia. }
    intros t' Hne. by rewrite !lookup_insert_ne.
Qed.

(** X1: on a ledger whose count of [t] is not negative, adding a positive
    amount [n] of [t] and removing it again succeeds and gives back every
    count; and when the ledger holds at least [n], removing [n] and adding
    it again gives back every count as well. *)
Theorem add_remove_round_trip res t n :
  0 ≤ getResource res t → 0 < n →
  (∃ res', removeResource (addResource res t n).1 t n = (res', true) ∧
           ∀ t', getResource res' t' = getResource res t') ∧
  (n ≤ getResource res t →
   ∃ res1, removeResource res t n = (res1, true) ∧
     ∀ t', getResource (addResource res1 t n).1 t' = getResource res t').
Proof.
  intros Hge Hn. split.
  - destruct (addResource_getResource res t n) as (_ & Hget & Hother).
    destruct (removeResource_cases (addResource res t n).1 t n)
      as [[_ H]|(v & Hv & Hv0 & Hle & ->)]; [lia|].
    eexists. split; [done|]. intros t'.
    destruct (decide (t' = t)) as [->|Hne].
    + rewrite (getResource_lookup _ _ _ Hv) in Hget.
      unfold getResource at 1. rewrite lookup_insert_eq.
      destruct (v - n =? 0) eqn:?; lia.
    + rewrite <- (Hother t' Hne). unfold getResource.
      by rewrite lookup_insert_ne.
  - intros Hle.
    destruct (removeResource_cases res t n)
      as [[_ H]|(v & Hv & Hv0 & Hle' & ->)]; [lia|].
    eexists. split; [done|]. intros t'.
    destruct (addResource_getResource (<[t := v - n]> res) t n)
      as (_ & Hget & Hother).
    destruct (decide (t' = t)) as [->|Hne].
    + rewrite Hget. rewrite (getResource_lookup _ _ _ Hv).
      unfold getResource. rewrite lookup_insert_eq.
      destruct (v - n =? 0) eqn:?; lia.
    + rewrite (Hother t' Hne). unfold getResource. by rewrite lookup_insert_ne.
Qed.

Lemma add_remove_round_trip_witness :
  (∃ res', removeResource (addResource initial "plank" 3).1 "plank" 3
           = (res', true) ∧
           ∀ t', getResource res' t' = getResource initial t') ∧
  (∃ res1, removeResource initial "plank" 3 = (res1, true) ∧
     ∀ t', getResource (addResource res1 "plank" 3).1 t'
           = getResource initial t').
Proof.
  destruct (add_remove_round_trip initial "plank" 3) as [Hadd Hremove].
  - vm_compute. discriminate.
  - lia.
  - split; [exact Hadd|]. apply Hremove. vm_compute. discriminate.
Defined.

(** X2: [consumeResources] with a single requirement [{t: a}] is
    [removeResource(t, a)]: same ledger afterwards, same result. *)
Theorem consumeResources_single res t a :
  consumeResources res {[ t := a ]} = Some (removeResource res t a).
Proof.
  unfold consumeResources, hasResources, removeResource.
  rewrite map_to_list_singleton. simpl. unfold entry_ok, decrement. simpl.
  destruct (res !! t) as [v|] eqn:Hv; simpl; [|done].
  destruct (negb (v =? 0)); simpl; [|done].
  destruct (v <? a); simpl; done.
Qed.

(** X3: [consumeResources] with no requirement succeeds and changes
    nothing; and a requirement on a resource of which the ledger holds
    nothing is refused whatever amount it names, the ledger unchanged. *)
Theorem consumeResources_edges res reqs t a :
  consumeResources res ∅ = Some (res, true) ∧
  (reqs !! t = Some a → getResource res t = 0 →
   hasResources res reqs = false ∧ consumeResources res reqs = Some (res, false)).
Proof.
  split; [done|]. intros Hreq Hzero.
  assert (Hhas : hasResources res reqs = false).
  { destruct (hasResources res reqs) eqn:Hhas; [|done].
    apply hasResources_available in Hhas. destruct (Hhas t a Hreq). lia. }
  split; [done|]. by apply consumeResources_rejects.
Qed.

Lemma consumeResources_edges_witness :
  hasResources initial {[ "gold" := -1 ]} = false ∧
  consumeResources initial {[ "gold" := -1 ]} = Some (initial, false).
Proof.
  apply (proj2 (consumeResources_edges initial {[ "gold" := -1 ]} "gold" (-1))).
  - apply lookup_singleton_eq.
  - reflexivity.
Defined.

End LedgerFacts.

Module SiteFacts.
Import ResourceManager LedgerProofs Allocation.

(** One entry: the resource of the entry moves by at most one unit from the
    ledger to the site, and only below the required amount. *)
Lemma allocate_entry_step st r a :
  let st' := allocate_entry st (r, a) in
  (∀ r', r' ≠ r → ledger st' !! r' = ledger st !! r' ∧
                  allocated st' !! r' = allocated st !! r') ∧
  dom (allocated st') = dom (allocated st) ∧
  ((ledger st' = ledger st ∧ allocated st' = allocated st ∧
    resourcesAllocated st' = resourcesAllocated st) ∨
   (amount (allocated st) r < a ∧
    amount (allocated st') r = amount (allocated st) r + 1 ∧
    getResource (ledger st') r = getResource (ledger st) r - 1 ∧
    0 < getResource (ledger st) r ∧
    resourcesAllocated st' = true)).
Proof.
  unfold allocate_entry, amount. simpl.
  destruct (allocated st !! r) as [al|] eqn:Hal;
    [|by split; [|split; [|left]]].
  destruct (0 <? a - al) eqn:Hneed; [|by split; [|split; [|left]]].
  destruct (0 <? getResource (ledger st) r) eqn:Havail;
    [|by split; [|split; [|left]]].
  simpl. unfold consumeResource.
  destruct (removeResource_cases (ledger st) r 1)
    as [[_ H]|(v & Hv & Hv0 & Hle & ->)]; [lia|]. simpl.
  split; [intros r' Hne; by rewrite !lookup_insert_ne|].
  split.
  { apply dom_insert_lookup_L. eauto. }
  right. rewrite lookup_insert_eq. simpl.
  rewrite (getResource_lookup _ _ _ Hv).
  rewrite (getResource_lookup _ _ _ Hv) in Havail.
  rewrite (getResource_lookup (<[r:=v - 1]> (ledger st)) r (v - 1))
    by apply lookup_insert_eq.
  repeat split; lia.
Qed.

(** The loop over entries with distinct keys. *)
Lemma allocate_entries es : ∀ st,
  NoDup es.*1 →
  let st' := foldl allocate_entry st es in
  (∀ r, r ∉ es.*1 → ledger st' !! r = ledger st !! r ∧
                     allocated st' !! r = allocated st !! r) ∧
  dom (allocated st') = dom (allocated st) ∧
  (∀ r a, (r, a) ∈ es →
     (getResource (ledger st') r = getResource (ledger st) r ∧
      amount (allocated st') r = amount (allocated st) r) ∨
     (amount (allocated st) r < a ∧
      amount (allocated st') r = amount (allocated st) r + 1 ∧
      getResource (ledger st') r = getResource (ledger st) r - 1 ∧
      resourcesAllocated st' = true)) ∧
  (resourcesAllocated st = true → resourcesAllocated st' = true) ∧
  (resourcesAllocated st' = true → resourcesAllocated st = true ∨
     ∃ r, amount (allocated st') r ≠ amount (allocated st) r).
Proof.
  induction es as [|[r a] es IH]; intros st Hnd; simpl.
  { repeat split; auto; intros r a H; by apply elem_of_nil in H. }
  apply NoDup_cons in Hnd as [Hr Hnd].
  destruct (allocate_entry_step st r a) as (Hother & Hdom & Hstep).
  destruct (IH (allocate_entry st (r, a)) Hnd)
    as (IHother & IHdom & IHin & IHflag & IHflag').
  simpl in *.
  set (st1 := allocate_entry st (r, a)) in *.
  set (st' := foldl allocate_entry st1 es) in *.
  assert (Hkeep : getResource (ledger st') r = getResource (ledger st1) r ∧
                  amount (allocated st') r = amount (allocated st1) r).
  { destruct (IHother r Hr) as [H1 H2]. unfold getResource, amount.
    by rewrite H1, H2. }
  split; [|split; [|split; [|split]]].
  - intros r' Hr'. apply not_elem_of_cons in Hr' as [Hne Hr'].
    destruct (IHother r' Hr') as [-> ->]. by apply Hother.
  - by rewrite IHdom.
  - intros r' a' Hin. apply elem_of_cons in Hin as [[= -> ->]|Hin].
    + destruct Hkeep as [Hk1 Hk2]. rewrite Hk1, Hk2.
      destruct Hstep as [(-> & -> & _)|(Hlt & Ham & Hget & _ & Hflag)];
        [by left|].
      right. repeat split; [done|done|done|]. by apply IHflag.
    + assert (r' ≠ r).
      { intros ->. apply Hr. apply list_elem_of_fmap. by exists (r, a'). }
      destruct (Hother r' H) as [Ho1 Ho2].
      assert (getResource (ledger st1) r' = getResource (ledger st) r') as <-
        by (unfold getResource; by rewrite Ho1).
      assert (amount (allocated st1) r' = amount (allocated st) r') as <-
        by (unfold amount; by rewrite Ho2).
      apply (IHin r' a' Hin).
  - intros Hflag. apply IHflag.
    destruct Hstep as [(_ & _ & ->)|(_ & _ & _ & _ & ->)]; done.
  - intros Hflag. destruct (IHflag' Hflag) as [Hflag1|[r' Hr']].
    + destruct Hstep as [(_ & _ & <-)|(_ & Ham & _)]; [by left|].
      right. exists r. destruct Hkeep as [_ ->]. lia.
    + destruct (decide (r' = r)) as [->|Hne].
      * destruct Hkeep as [_ Hk]. by rewrite Hk in Hr'.
      * right. exists r'. destruct (Hother r' Hne) as [_ Ho2].
        unfold amount in *. by rewrite <- Ho2.
Qed.

(** X4: [_allocateResources] moves at most one unit of every required
    resource from the ledger to the site, only while less than the required
    amount is allocated; so it never allocates beyond the requirement, it
    keeps the sum of ledger and allocation, and it reports [true] exactly
    when it has allocated something. *)
Theorem allocateResources_bounded res c :
  let st := _allocateResources res c in
  (∀ r, amount (allocated st) r = amount (allocatedResources c) r ∨
        amount (allocated st) r = amount (allocatedResources c) r + 1) ∧
  (∀ r, getResource (ledger st) r + amount (allocated st) r
        = getResource res r + amount (allocatedResources c) r) ∧
  (∀ r a, requiredResources c !! r = Some a →
     amount (allocatedResources c) r ≤ a → amount (allocated st) r ≤ a) ∧
  (∀ r, requiredResources c !! r = None →
     allocated st !! r = allocatedResources c !! r) ∧
  (resourcesAllocated st = true ↔
   ∃ r, amount (allocated st) r ≠ amount (allocatedResources c) r).
Proof.
  unfold _allocateResources.
  set (st0 := {| ledger := res; allocated := allocatedResources c;
                 resourcesAllocated := false |}).
  destruct (allocate_entries (map_to_list (requiredResources c)) st0)
    as (Hother & _ & Hin & _ & Hflag).
  { apply NoDup_fst_map_to_list. }
  simpl in *.
  set (st := foldl allocate_entry st0 (map_to_list (requiredResources c))) in *.
  assert (Hcases : ∀ r,
    (getResource (ledger st) r = getResource res r ∧
     amount (allocated st) r = amount (allocatedResources c) r) ∨
    (∃ a, requiredResources c !! r = Some a ∧
     amount (allocatedResources c) r < a ∧
     amount (allocated st) r = amount (allocatedResources c) r + 1 ∧
     getResource (ledger st) r = getResource res r - 1 ∧
     resourcesAllocated st = true)).
  { intros r. destruct (requiredResources c !! r) as [a|] eqn:Hr.
    - destruct (Hin r a) as [H|H]; [by apply elem_of_map_to_list|by left|].
      right. exists a. tauto.
    - left. destruct (Hother r) as [H1 H2].
      { intros ((r' & a) & -> & Hin')%list_elem_of_fmap.
        apply elem_of_map_to_list in Hin'. simpl in *. congruence. }
      unfold getResource, amount. by rewrite H1, H2. }
  split; [|split; [|split; [|split]]].
  - intros r. destruct (Hcases r) as [[_ ?]|(a & _ & _ & ? & _)]; auto.
  - intros r. destruct (Hcases r) as [[? ?]|(a & _ & _ & ? & ? & _)]; lia.
  - intros r a Hr Hle.
    destruct (Hcases r) as [[_ ?]|(a' & Hr' & ? & ? & _)]; [lia|].
    assert (a' = a) by congruence. lia.
  - intros r Hr. apply Hother.
    intros ((r' & a) & -> & Hin')%list_elem_of_fmap.
    apply elem_of_map_to_list in Hin'. simpl in *. congruence.
  - split.
    + intros H. destruct (Hflag H) as [?|?]; [done|done].
    + intros [r Hr]. destruct (Hcases r) as [[_ ?]|(a & _ & _ & _ & _ & ?)]; done.
Qed.

End SiteFacts.

Module NeedFacts.
Import ResourceManager LedgerProofs Allocation.


Lemma hasAllResources_true c :
  Construction._hasAllResources c = true ↔
  ∀ r a, requiredResources c !! r = Some a →
         ∃ v, allocatedResources c !! r = Some v ∧ a ≤ v.
Proof.
  unfold Construction._hasAllResources. rewrite forallb_forall.
  split.
  - intros H r a Hr. specialize (H (r, a)). simpl in H.
    destruct (allocatedResources c !! r) as [v|].
    + exists v. split; [done|]. apply Z.leb_le, H.
      apply list_elem_of_In. by apply elem_of_map_to_list.
    + discriminate H. apply list_elem_of_In. by apply elem_of_map_to_list.
  - intros H [r a] Hin. apply list_elem_of_In, elem_of_map_to_list in Hin.
    destruct (H r a Hin) as (v & Hv & Hle). simpl. rewrite Hv. lia.
Qed.

Lemma first_missing_plank c a :
  requiredResources c !! "plank" = Some a →
  amount (allocatedResources c) "plank" < a →
  Porter.first_missing c = Some "plank".
Proof.
  intros Hreq Hlt. unfold Porter.first_missing, Porter.entries. simpl.
  rewrite Hreq. simpl. by rewrite filter_cons_True.
Qed.

Lemma first_missing_stone c a :
  (∀ a', requiredResources c !! "plank" = Some a' →
         a' ≤ amount (allocatedResources c) "plank") →
  requiredResources c !! "stone" = Some a →
  amount (allocatedResources c) "stone" < a →
  Porter.first_missing c = Some "stone".
Proof.
  intros Hplank Hreq Hlt. unfold Porter.first_missing, Porter.entries. simpl.
  rewrite Hreq. simpl.
  destruct (requiredResources c !! "plank") as [a'|] eqn:Hp; simpl.
  - rewrite filter_cons_False
      by (specialize (Hplank a' eq_refl); unfold amount in Hplank; simpl; lia).
    by rewrite filter_cons_True.
  - by rewrite filter_cons_True.
Qed.

Lemma elem_of_entries requirements r a :
  (r, a) ∈ Porter.entries requirements ↔ requirements !! r = Some a.
Proof.
  unfold Porter.entries. rewrite elem_of_app, list_elem_of_filter.
  rewrite elem_of_map_to_list, list_elem_of_omap. simpl. split.
  - intros [(k & Hk & Hka)|[_ Hr]]; [|done].
    destruct (requirements !! k) as [v|] eqn:Hv; [|done].
    simpl in Hka. by injection Hka as -> ->.
  - intros Hr. destruct (decide (r ∈ ["plank"; "stone"])) as [Hin|Hout].
    + left. exists r. split; [done|]. by rewrite Hr.
    + by right.
Qed.

Lemma first_missing_Some c r :
  Porter.first_missing c = Some r →
  ∃ a, requiredResources c !! r = Some a ∧ amount (allocatedResources c) r < a.
Proof.
  unfold Porter.first_missing. intros H.
  destruct (head _) as [[r' a]|] eqn:Hhead; [|done]. injection H as ->.
  apply head_Some_elem_of, list_elem_of_filter in Hhead as [Hlt Hin].
  apply elem_of_entries in Hin. by exists a.
Qed.

Lemma first_missing_None c :
  Porter.first_missing c = None ↔
  ∀ r a, requiredResources c !! r = Some a → a ≤ amount (allocatedResources c) r.
Proof.
  unfold Porter.first_missing. rewrite fmap_None. split.
  - intros H r a Hr. apply head_None in H.
    destruct (decide (amount (allocatedResources c) r < a)) as [Hlt|]; [|lia].
    assert ((r, a) ∈ filter (λ e : string * Z,
              default 0 (allocatedResources c !! e.1) < e.2)
              (Porter.entries (requiredResources c))) as Hin.
    { apply list_elem_of_filter. split; [done|]. by apply elem_of_entries. }
    rewrite H in Hin. by apply elem_of_nil in Hin.
  - intros H. apply head_None.
    apply elem_of_nil_inv. intros [r a] [Hlt Hin]%list_elem_of_filter.
    apply elem_of_entries in Hin. specialize (H r a Hin).
    unfold amount in H. simpl in Hlt. lia.
Qed.

(** X5: for a site whose allocation has an entry for every required
    resource (as the constructor makes it), [_hasAllResources] is false
    exactly when the loop of the porter finds a resource to fetch; and the
    resource it finds is a required one of which less than the required
    amount is allocated. *)
Theorem first_missing_in_need c :
  dom (requiredResources c) ⊆ dom (allocatedResources c) →
  (Construction._hasAllResources c = false ↔
   ∃ r, Porter.first_missing c = Some r) ∧
  (∀ r, Porter.first_missing c = Some r →
     ∃ a, requiredResources c !! r = Some a ∧
          amount (allocatedResources c) r < a).
Proof.
  intros Hdom. split; [|apply first_missing_Some].
  split.
  - intros Hno. destruct (Porter.first_missing c) as [r|] eqn:Hfm; [by exists r|].
    exfalso. rewrite first_missing_None in Hfm.
    assert (Construction._hasAllResources c = true); [|congruence].
    apply hasAllResources_true. intros r a Hr.
    assert (r ∈ dom (allocatedResources c)) as [v Hv]%elem_of_dom.
    { apply Hdom. by apply elem_of_dom_2 in Hr. }
    exists v. split; [done|]. specialize (Hfm r a Hr).
    unfold amount in Hfm. by rewrite Hv in Hfm.
  - intros [r Hr]. apply first_missing_Some in Hr as (a & Hr & Hlt).
    destruct (Construction._hasAllResources c) eqn:Hall; [|done].
    rewrite hasAllResources_true in Hall.
    destruct (Hall r a Hr) as (v & Hv & Hle).
    unfold amount in Hlt. rewrite Hv in Hlt. simpl in Hlt. lia.
Qed.

Lemma first_missing_in_need_witness :
  ∃ c, Entity.site (Construction.new 3 1 WOODCUTTER) = Some c ∧
    dom (requiredResources c) ⊆ dom (allocatedResources c) ∧
    (Construction._hasAllResources c = false ↔
     ∃ r, Porter.first_missing c = Some r) ∧
    (∀ r, Porter.first_missing c = Some r →
       ∃ a, requiredResources c !! r = Some a ∧
            amount (allocatedResources c) r < a).
Proof.
  eexists. split; [reflexivity|].
  assert (Hdom : dom (buildingCosts WOODCUTTER)
                 ⊆ dom ((λ _, 0) <$> buildingCosts WOODCUTTER)).
  { by rewrite dom_fmap_L. }
  split; [exact Hdom|]. apply first_missing_in_need. exact Hdom.
Defined.

End NeedFacts.

Module SettlerFacts.
Import ResourceManager LedgerProofs.

Lemma closest_from_least position l : ∀ best,
  (is_Some best ∨ l ≠ []) →
  ∃ r, closest_from position best l = Some r ∧
    (best = Some r ∨ r ∈ l) ∧
    (∀ b, best = Some b →
       distance_to position r.1.2 ≤ distance_to position b.1.2) ∧
    (∀ c, c ∈ l → distance_to position r.1.2 ≤ distance_to position c.1.2).
Proof.
  induction l as [|c l IH]; intros best Hne; simpl.
  - destruct Hne as [[b ->]|?]; [|done]. exists b.
    split; [done|]. split; [by left|]. split.
    + by intros ? [= <-].
    + intros c Hc. by apply elem_of_nil in Hc.
  - set (better := match best with
                   | Some b => distance_to position c.1.2 <? distance_to position b.1.2
                   | None => true
                   end).
    destruct (IH (if better then Some c else best)) as (r & -> & Hin & Hb & Hl).
    { left. subst better.
      destruct best as [b|]; [destruct (_ <? _); by eexists|by eexists]. }
    exists r. split; [done|].
    destruct better eqn:Hbetter.
    + split; [right; destruct Hin as [[= ->]|?]; [left|by right]|].
      specialize (Hb c eq_refl). split.
      * intros b ->. subst better. lia.
      * intros c' [->|?]%elem_of_cons; [done|by apply Hl].
    + destruct best as [b|]; [|done]. subst better.
      split; [destruct Hin as [?|?]; [by left|right; by right]|].
      specialize (Hb b eq_refl). split.
      * by intros ? [= <-].
      * intros c' [->|?]%elem_of_cons; [lia|by apply Hl].
Qed.

(** X6: [_findConstructionInNeedOfResources] leaves the porter as it is
    when every construction has its resources; otherwise the porter starts
    fetching for a construction that still lacks resources: the one it
    targeted before when that is among them, else one at the least
    Manhattan distance. The resource to fetch is the first one the site
    lacks in the order of its requirements: plank when planks are missing,
    stone when only stone is. *)
Theorem porter_targets_site_in_need w this all :
  sites w = Some all →
  ∃ this', Porter._findConstructionInNeedOfResources w this = Some this' ∧
    ((∀ s, s ∈ all → Construction._hasAllResources s.2 = true) → this' = this) ∧
    ((∃ s, s ∈ all ∧ Construction._hasAllResources s.2 = false) →
       Settler.state this' = "FETCHING_RESOURCE" ∧
       ∃ ref e c, (ref, e, c) ∈ all ∧
         Construction._hasAllResources c = false ∧
         Settler.targetConstruction this' = Some ref ∧
         (∀ r, Porter.first_missing c = Some r →
               Settler.resourceToFetch this' = Some r) ∧
         (∀ a, requiredResources c !! "plank" = Some a →
               Allocation.amount (allocatedResources c) "plank" < a →
               Settler.resourceToFetch this' = Some "plank") ∧
         (∀ a, requiredResources c !! "stone" = Some a →
               Allocation.amount (allocatedResources c) "stone" < a →
               (∀ a', requiredResources c !! "plank" = Some a' →
                      a' ≤ Allocation.amount (allocatedResources c) "plank") →
               Settler.resourceToFetch this' = Some "stone") ∧
         ((∃ s, s ∈ all ∧ Construction._hasAllResources s.2 = false ∧
                Some s.1.1 = Settler.targetConstruction this) →
            Settler.targetConstruction this' = Settler.targetConstruction this) ∧
         ((∀ s, s ∈ all → Construction._hasAllResources s.2 = false →
                Some s.1.1 ≠ Settler.targetConstruction this) →
            ∀ s, s ∈ all → Construction._hasAllResources s.2 = false →
              distance_to (Settler.position this) e
                ≤ distance_to (Settler.position this) s.1.2)).
Proof.
  intros Hsites. unfold Porter._findConstructionInNeedOfResources.
  rewrite Hsites. simpl.
  set (needy := filter (λ c : nat * Entity.t * Site,
                          Construction._hasAllResources c.2 = false) all).
  assert (Hneedy : ∀ s, s ∈ needy ↔
            Construction._hasAllResources s.2 = false ∧ s ∈ all).
  { intros s. unfold needy. by rewrite list_elem_of_filter. }
  case_bool_decide as Hlen.
  - assert (needy ≠ []) as Hnil by (destruct needy; [simpl in Hlen; lia|done]).
    assert (Hchoice : ∃ closest,
      match list_find (λ c : nat * Entity.t * Site,
                         Some c.1.1 = Settler.targetConstruction this) needy with
      | Some (_, existing) => Some existing
      | None => closest_from (Settler.position this) None needy
      end = Some closest ∧ closest ∈ needy ∧
      ((∃ s, s ∈ needy ∧ Some s.1.1 = Settler.targetConstruction this) →
         Some closest.1.1 = Settler.targetConstruction this) ∧
      ((∀ s, s ∈ needy → Some s.1.1 ≠ Settler.targetConstruction this) →
         ∀ s, s ∈ needy → distance_to (Settler.position this) closest.1.2
                           ≤ distance_to (Settler.position this) s.1.2)).
    { destruct (list_find _ needy) as [[i found]|] eqn:Hfind.
      - apply list_find_Some in Hfind as (Hi & Hfound & _).
        exists found. split; [done|].
        split; [by eapply list_elem_of_lookup_2|]. split; [done|].
        intros Hno. destruct (Hno found); [by eapply list_elem_of_lookup_2|done].
      - destruct (closest_from_least (Settler.position this) needy None)
          as (r & Hr & [?|Hin] & _ & Hleast); [by right|done|].
        exists r. split; [done|]. split; [done|]. split; [|by intros _].
        intros (s & Hs & Heq). apply list_find_None in Hfind.
        rewrite Forall_forall in Hfind. by destruct (Hfind s Hs). }
    destruct Hchoice as ([[ref e] c] & -> & Hin & Hkeep & Hnear). simpl.
    eexists. split; [done|]. split.
    + intros Hall. apply Hneedy in Hin as [Hno Hin]. simpl in Hno.
      specialize (Hall _ Hin). simpl in Hall. congruence.
    + intros _. split; [done|]. exists ref, e, c.
      apply Hneedy in Hin as Hin'. destruct Hin' as [Hno Hall]. simpl in *.
      split; [done|]. split; [done|]. split.
      { destruct (Porter.first_missing c); [|by destruct (Porter.first_missing c)]. done. }
      split.
      { destruct (Porter.first_missing c); simpl; done. }
      split.
      { intros a Hreq Hlt.
        by rewrite (NeedFacts.first_missing_plank c a Hreq Hlt). }
      split.
      { intros a Hreq Hlt Hplank.
        by rewrite (NeedFacts.first_missing_stone c a Hplank Hreq Hlt). }
      split.
      * intros (s & Hs & Hsno & Heq). destruct (Porter.first_missing c); simpl;
          apply Hkeep; exists s; (split; [by apply Hneedy|done]).
      * intros Hno' s Hs Hsno. apply Hnear.
        -- intros s' [Hs'1 Hs'2]%Hneedy. by apply Hno'.
        -- apply Hneedy. by split.
  - exists this. split; [done|]. split; [done|].
    intros (s & Hs & Hsno). exfalso.
    assert (s ∈ needy) as Hin by by apply Hneedy.
    destruct needy; [by apply elem_of_nil in Hin|simpl in Hlen; lia].
Qed.

Lemma porter_targets_site_in_need_witness :
  ∃ w all this', Examples.sawmill_built = Some w ∧ sites w = Some all ∧
    Porter._findConstructionInNeedOfResources w (Porter.new 2 1) = Some this' ∧
    Settler.state this' = "FETCHING_RESOURCE" ∧
    Settler.targetConstruction this' = Some 1%nat ∧
    Settler.resourceToFetch this' = Some "plank".
Proof.
  eexists _, _.
  assert (Hsites : ∀ w all,
    Examples.sawmill_built = Some w → sites w = Some all →
    ∃ this', Porter._findConstructionInNeedOfResources w (Porter.new 2 1)
             = Some this' ∧
      ((∃ s, s ∈ all ∧ Construction._hasAllResources s.2 = false) →
       Settler.state this' = "FETCHING_RESOURCE" ∧
       ∃ ref e c, (ref, e, c) ∈ all ∧
         Settler.targetConstruction this' = Some ref ∧
         (∀ a, requiredResources c !! "plank" = Some a →
               Allocation.amount (allocatedResources c) "plank" < a →
               Settler.resourceToFetch this' = Some "plank"))).
  { intros w all _ Hall.
    destruct (porter_targets_site_in_need w (Porter.new 2 1) all Hall)
      as (this' & Hfind & _ & Hneed).
    exists this'. split; [exact Hfind|]. intros Hs.
    destruct (Hneed Hs)
      as (Hstate & ref & e & c & Hin & _ & Htarget & _ & Hplank & _).
    split; [exact Hstate|]. by exists ref, e, c. }
  edestruct Hsites as (this' & Hfind & Hneed);
    [vm_compute; reflexivity|vm_compute; reflexivity|].
  exists this'. split; [vm_compute; reflexivity|].
  split; [vm_compute; reflexivity|]. split; [exact Hfind|].
  destruct Hneed as (Hstate & ref & e & c & Hin & Htarget & Hplank).
  { eexists. split; [apply list_elem_of_here|]. vm_compute. reflexivity. }
  split; [exact Hstate|].
  apply list_elem_of_singleton in Hin. injection Hin as -> -> ->.
  split; [exact Htarget|]. apply (Hplank 5); vm_compute; reflexivity.
Defined.

End SettlerFacts.

Module BuilderFacts.
Import ResourceManager LedgerProofs SettlerFacts.

(** X7: [_findConstructionToBuild] leaves the builder as it is when no
    construction has all its resources and progress below 100; otherwise
    the builder targets such a construction at the least Manhattan distance
    and starts moving to it. *)
Theorem builder_targets_ready_site w this all :
  sites w = Some all →
  ∃ this', Builder._findConstructionToBuild w this = Some this' ∧
    ((∀ s, s ∈ all → ¬ (Construction._hasAllResources s.2 = true ∧
                         progress s.2 < 100)) → this' = this) ∧
    ((∃ s, s ∈ all ∧ Construction._hasAllResources s.2 = true ∧
           progress s.2 < 100) →
       Settler.state this' = "MOVING_TO_CONSTRUCTION" ∧
       ∃ ref e c, (ref, e, c) ∈ all ∧
         Construction._hasAllResources c = true ∧ progress c < 100 ∧
         Settler.targetConstruction this' = Some ref ∧
         ∀ s, s ∈ all → Construction._hasAllResources s.2 = true →
              progress s.2 < 100 →
              distance_to (Settler.position this) e
                ≤ distance_to (Settler.position this) s.1.2).
Proof.
  intros Hsites. unfold Builder._findConstructionToBuild.
  rewrite Hsites. simpl.
  set (ready := filter (λ c : nat * Entity.t * Site,
                   Construction._hasAllResources c.2 = true ∧
                   progress c.2 < 100) all).
  assert (Hready : ∀ s, s ∈ ready ↔
            (Construction._hasAllResources s.2 = true ∧ progress s.2 < 100) ∧
            s ∈ all).
  { intros s. unfold ready. by rewrite list_elem_of_filter. }
  case_bool_decide as Hlen.
  - assert (ready ≠ []) as Hnil by (destruct ready; [simpl in Hlen; lia|done]).
    destruct (closest_from_least (Settler.position this) ready None)
      as ([[ref e] c] & -> & [?|Hin] & _ & Hleast); [by right|done|].
    simpl. eexists. split; [done|].
    apply Hready in Hin as Hin'. destruct Hin' as [[Hall Hprog] Hin'].
    simpl in *. split.
    + intros Hnone. by destruct (Hnone _ Hin').
    + intros _. split; [done|]. exists ref, e, c.
      split; [done|]. split; [done|]. split; [done|]. split; [done|].
      intros s Hs Hsall Hsprog. apply (Hleast s). apply Hready. by split.
  - exists this. split; [done|]. split; [done|].
    intros (s & Hs & Hsall & Hsprog). exfalso.
    assert (s ∈ ready) as Hin by (apply Hready; by split).
    destruct ready; [by apply elem_of_nil in Hin|simpl in Hlen; lia].
Qed.

Lemma builder_targets_ready_site_witness :
  ∃ w all this', Examples.almost_built = Some w ∧ sites w = Some all ∧
    Builder._findConstructionToBuild w (Builder.new 3 0) = Some this' ∧
    Settler.state this' = "MOVING_TO_CONSTRUCTION" ∧
    Settler.targetConstruction this' = Some 1%nat.
Proof.
  assert (Hsites : ∀ w all,
    Examples.almost_built = Some w → sites w = Some all →
    ∃ this', Builder._findConstructionToBuild w (Builder.new 3 0)
             = Some this' ∧
      ((∃ s, s ∈ all ∧ Construction._hasAllResources s.2 = true ∧
             progress s.2 < 100) →
       Settler.state this' = "MOVING_TO_CONSTRUCTION" ∧
       ∃ ref e c, (ref, e, c) ∈ all ∧
         Settler.targetConstruction this' = Some ref)).
  { intros w all _ Hall.
    destruct (builder_targets_ready_site w (Builder.new 3 0) all Hall)
      as (this' & Hfind & _ & Hready).
    exists this'. split; [exact Hfind|]. intros Hs.
    destruct (Hready Hs) as (Hstate & ref & e & c & Hin & _ & _ & Htarget & _).
    split; [exact Hstate|]. by exists ref, e, c. }
  eexists _, _.
  edestruct Hsites as (this' & Hfind & Hready);
    [vm_compute; reflexivity|vm_compute; reflexivity|].
  exists this'. split; [vm_compute; reflexivity|].
  split; [vm_compute; reflexivity|]. split; [exact Hfind|].
  destruct Hready as (Hstate & ref & e & c & Hin & Htarget).
  { eexists. split; [apply list_elem_of_here|].
    split; [vm_compute; reflexivity|vm_compute; reflexivity]. }
  split; [exact Hstate|].
  apply list_elem_of_singleton in Hin. injection Hin as -> _ _. exact Htarget.
Defined.

Lemma build_frames_before (n : nat) : ∀ w this ref,
  SettlerOps.moving this = false →
  Settler.state this = "BUILDING" →
  Settler.targetConstruction this = Some ref →
  ref ∈ World.constructions w →
  Settler.currentBuildingTime this + Builder.frame_time * Z.of_nat n
    < Settler.buildingTime this →
  Work.build_frames n w this =
    Some (w, SetSettler.currentBuildingTime
               (Settler.currentBuildingTime this
                + Builder.frame_time * Z.of_nat n) this).
Proof.
  induction n as [|n IH]; intros w this ref Hmov Hst Htarget Hin Hlt.
  - simpl. rewrite Z.mul_0_r, Z.add_0_r. by destruct this.
  - cbn [Work.build_frames]. unfold Builder.update. rewrite Hmov.
    unfold Builder.handle. rewrite Hst. simpl.
    unfold Builder._performBuilding. rewrite Htarget.
    rewrite bool_decide_eq_false_2 by (intros H; by apply H).
    cbn [SetSettler.currentBuildingTime Settler.buildingTime
         Settler.currentBuildingTime].
    destruct (Settler.buildingTime this <=?
              Settler.currentBuildingTime this + Builder.frame_time) eqn:Hdone.
    { unfold Builder.frame_time in *. lia. }
    cbn [mbind option_bind].
    rewrite (IH w _ ref);
      [|by destruct this|done|done|done
       |simpl; unfold Builder.frame_time in *; lia].
    simpl. do 2 f_equal. unfold SetSettler.currentBuildingTime. simpl.
    f_equal. lia.
Qed.

(** X8: a builder that starts building at a construction of the world, at
    rest and with the build time of 5000 ms, leaves the world unchanged for
    299 frames, adding 16.67 ms per frame; the 300th frame sets the progress
    of the site to 100 and returns the builder to idle without a target. *)
Theorem builder_needs_300_frames w this ref e c :
  SettlerOps.moving this = false →
  Settler.state this = "BUILDING" →
  Settler.targetConstruction this = Some ref →
  ref ∈ World.constructions w →
  site_of w ref = Some (e, c) →
  Settler.currentBuildingTime this = 0 →
  Settler.buildingTime this = 500000 →
  (∀ n, (n < 300)%nat →
     Work.build_frames n w this =
       Some (w, SetSettler.currentBuildingTime
                  (Builder.frame_time * Z.of_nat n) this)) ∧
  ∃ this', Work.build_frames 300 w this =
             Some (update_site (set_progress 100) ref w, this') ∧
    Settler.state this' = "IDLE" ∧ Settler.targetConstruction this' = None ∧
    Settler.isBuilding this' = false ∧
    site_of (update_site (set_progress 100) ref w) ref
      = Some (set_site (set_progress 100 c) e, set_progress 100 c).
Proof.
  intros Hmov Hst Htarget Hin Hsite Hzero Htime.
  assert (Hbefore : ∀ n, (n < 300)%nat →
     Work.build_frames n w this =
       Some (w, SetSettler.currentBuildingTime
                  (Builder.frame_time * Z.of_nat n) this)).
  { intros n Hn. rewrite (build_frames_before n w this ref); try done.
    - by rewrite Hzero.
    - rewrite Hzero, Htime. unfold Builder.frame_time. lia. }
  split; [done|].
  assert (Hsplit : ∀ n w this, Work.build_frames (S n) w this =
            '(w1, this1) ← Work.build_frames n w this;
            Builder.update None w1 this1).
  { clear. induction n as [|n IH]; intros w this.
    - simpl. by destruct (Builder.update None w this) as [[??]|].
    - change (Work.build_frames (S (S n)) w this)
        with ('(w1, this1) ← Builder.update None w this;
              Work.build_frames (S n) w1 this1).
      change (Work.build_frames (S n) w this)
        with ('(w1, this1) ← Builder.update None w this;
              Work.build_frames n w1 this1).
      destruct (Builder.update None w this) as [[w1 this1]|]; [|done].
      cbn [mbind option_bind]. apply IH. }
  change 300%nat with (S 299). rewrite Hsplit.
  rewrite (Hbefore 299%nat); [|repeat constructor].
  cbn [mbind option_bind]. unfold Builder.update.
  replace (SettlerOps.moving _) with false by (by destruct this).
  unfold Builder.handle. cbn [SetSettler.currentBuildingTime Settler.state].
  rewrite Hst. simpl. unfold Builder._performBuilding.
  cbn [SetSettler.currentBuildingTime Settler.targetConstruction].
  rewrite Htarget. rewrite bool_decide_eq_false_2 by (intros H; by apply H).
  cbn [SetSettler.currentBuildingTime Settler.buildingTime
       Settler.currentBuildingTime].
  rewrite Htime. unfold Builder.frame_time. simpl.
  rewrite Hsite. simpl. eexists. split; [done|]. simpl.
  split; [done|]. split; [done|]. split; [done|].
  unfold site_of, update_site in *. simpl. rewrite lookup_alter_eq.
  destruct (World.objects w !! ref) as [e0|]; [|done]. simpl in *.
  destruct (Entity.site e0) as [c0|] eqn:Hc0; [|done]. simpl in *.
  injection Hsite as -> ->. done.
Qed.

Lemma builder_needs_300_frames_witness :
  ∃ w this this', (w0 ← Examples.camp 0; Game.frames 8 w0) = Some w ∧
    World.settlers w !! 2%nat = Some this ∧
    Work.build_frames 300 w this =
      Some (update_site (set_progress 100) 1%nat w, this') ∧
    Settler.state this' = "IDLE".
Proof.
  assert (Hrun : ∀ w this e c,
    (w0 ← Examples.camp 0; Game.frames 8 w0) = Some w →
    World.settlers w !! 2%nat = Some this →
    SettlerOps.moving this = false → Settler.state this = "BUILDING" →
    Settler.targetConstruction this = Some 1%nat →
    1%nat ∈ World.constructions w → site_of w 1%nat = Some (e, c) →
    Settler.currentBuildingTime this = 0 →
    Settler.buildingTime this = 500000 →
    ∃ this', Work.build_frames 300 w this =
               Some (update_site (set_progress 100) 1%nat w, this') ∧
             Settler.state this' = "IDLE").
  { intros w this e c _ _ Hmov Hst Htarget Hin Hsite Hzero Htime.
    destruct (builder_needs_300_frames w this 1%nat e c
                Hmov Hst Htarget Hin Hsite Hzero Htime)
      as (_ & this' & Hframes & Hstate & _).
    by exists this'. }
  eexists _, _.
  edestruct Hrun as (this' & Hframes & Hstate);
    [vm_compute; reflexivity|vm_compute; reflexivity|vm_compute; reflexivity
    |vm_compute; reflexivity|vm_compute; reflexivity
    |vm_compute; apply list_elem_of_here|vm_compute; reflexivity
    |vm_compute; reflexivity|vm_compute; reflexivity|].
  exists this'. split; [vm_compute; reflexivity|].
  split; [vm_compute; reflexivity|]. split; [exact Hframes|exact Hstate].
Defined.

End BuilderFacts.

Module PathFacts.
Import PathFinder PathProofs.

(** X9: in a well-formed world [findPath] from a cell to the same cell
    returns the empty path, wherever the cell lies and whatever stands on
    it. *)
Theorem findPath_same_cell w x y :
  World.well_formed w → findPath w x y x y = Some [].
Proof.
  intros Hwf. unfold findPath.
  destruct (createGrid_grid_of w Hwf) as (grid & -> & _). simpl.
  unfold search_fuel. rewrite Nat.add_comm.
  change (2 + ?n)%nat with (S (S n)).
  rewrite search_loop_first. by rewrite !Z.eqb_refl.
Qed.

Lemma findPath_same_cell_witness : findPath pond 1 1 1 1 = Some [].
Proof. apply (findPath_same_cell pond 1 1). apply well_formed_pond. Defined.

Lemma route_end_passable w c p c' :
  route w c p c' → p ≠ [] → passable w c' = true.
Proof.
  intros Hr Hp. destruct (route_cells w c p c' Hr) as (Hlast & _ & Hpass).
  apply Hpass. destruct p as [|a p]; [done|].
  rewrite last_cons_cons in Hlast. by apply last_Some_elem_of.
Qed.

(** X10: in a well-formed world [findPath] to a goal that [_isPassable]
    refuses, from any other cell, returns the empty path. *)
Theorem findPath_blocked_goal w startX startY endX endY :
  World.well_formed w →
  (startX, startY) ≠ (endX, endY) →
  _isPassable w endX endY = Some false →
  findPath w startX startY endX endY = Some [].
Proof.
  intros Hwf Hne Hblocked.
  destruct (findPath_correct w startX startY endX endY Hwf) as (p & -> & Hp).
  f_equal. destruct Hp as [[Hr _]|[-> _]]; [|done].
  destruct p as [|a p]; [done|].
  apply route_end_passable in Hr; [|done].
  unfold passable in Hr. simpl in Hr. by rewrite Hblocked in Hr.
Qed.

Lemma findPath_blocked_goal_witness : findPath pond 0 0 1 1 = Some [].
Proof.
  apply (findPath_blocked_goal pond 0 0 1 1).
  - apply well_formed_pond.
  - discriminate.
  - vm_compute. reflexivity.
Defined.

Lemma route_split w : ∀ p a b (i : nat) x,
  route w a p b → p !! i = Some x →
  route w a (take (S i) p) x ∧ route w x (drop (S i) p) b.
Proof.
  induction p as [|c p IH]; intros a b i x Hr Hi; [done|].
  inversion Hr as [|? ? ? ? Hstep Hr']; subst.
  destruct i as [|i]; simpl in *.
  - injection Hi as ->. rewrite take_0, drop_0. split; [|done].
    apply route_cons; [done|apply route_nil].
  - destruct (IH _ _ _ _ Hr' Hi) as [H1 H2]. split; [|done].
    by apply route_cons.
Qed.

Lemma route_app w : ∀ p a b q c,
  route w a p b → route w b q c → route w a (p ++ q) c.
Proof.
  induction p as [|x p IH]; intros a b q c Hp Hq.
  - by inversion Hp; subst.
  - inversion Hp; subst. simpl. apply route_cons; [done|]. by eapply IH.
Qed.

Lemma shortest_simple w s goal p :
  route w s p goal →
  (∀ p', route w s p' goal → (length p ≤ length p')%nat) →
  NoDup p ∧ s ∉ p.
Proof.
  intros Hr Hmin. split.
  - apply NoDup_alt. intros i j x Hi Hj.
    assert (Hcut : ∀ i j, (i < j)%nat → p !! i = Some x → p !! j = Some x → False).
    { clear i j Hi Hj. intros i j Hlt Hi Hj.
      destruct (route_split w p s goal i x Hr Hi) as [H1 _].
      destruct (route_split w p s goal j x Hr Hj) as [_ H2].
      pose proof (Hmin _ (route_app w _ _ _ _ _ H1 H2)) as Hlen.
      apply lookup_lt_Some in Hi, Hj.
      rewrite length_app, length_take, length_drop in Hlen. lia. }
    destruct (Nat.lt_trichotomy i j) as [?|[?|?]]; [|done|].
    + by destruct (Hcut i j).
    + by destruct (Hcut j i).
  - intros [i Hi]%list_elem_of_lookup.
    destruct (route_split w p s goal i s Hr Hi) as [_ H2].
    pose proof (Hmin _ H2) as Hlen. apply lookup_lt_Some in Hi.
    rewrite length_drop in Hlen. lia.
Qed.

(** X11: a path that [findPath] returns in a well-formed world visits no
    cell twice and never returns to the start; when it is not empty it has
    at least as many cells as the Manhattan distance from start to goal,
    and it never has more cells than the world has tiles. *)
Theorem findPath_simple w startX startY endX endY p :
  World.well_formed w →
  findPath w startX startY endX endY = Some p →
  NoDup p ∧ ((startX, startY) ∉ p) ∧
  (p ≠ [] → manhattan (startX, startY) (endX, endY) ≤ Z.of_nat (length p)) ∧
  Z.of_nat (length p) ≤ width (World.size w) * height (World.size w).
Proof.
  intros Hwf Hfind.
  destruct (findPath_correct w startX startY endX endY Hwf) as (p' & Hp' & Hp).
  assert (p' = p) as -> by congruence. clear Hp'.
  destruct Hp as [[Hr Hmin]|[-> _]].
  - destruct (shortest_simple w _ _ p Hr Hmin) as [Hnd Hs].
    split; [done|]. split; [done|]. split.
    + intros _. by apply (route_manhattan w).
    + destruct Hwf as (Hw & Hh & _).
      pose proof (size_cells w Hw Hh) as Hsize.
      assert ((length p ≤ size (cells w))%nat); [|lia].
      rewrite <- (size_list_to_set (C := gset (Z * Z)) p) by done.
      apply subseteq_size. intros c Hc%elem_of_list_to_set.
      apply elem_of_cells, (passable_in_bounds w).
      destruct (route_cells w _ _ _ Hr) as (_ & _ & Hpass). by apply Hpass.
  - split; [apply NoDup_nil_2|]. split; [apply not_elem_of_nil|].
    split; [done|]. destruct Hwf as (Hw & Hh & _). simpl. lia.
Qed.

Lemma findPath_simple_witness :
  ∃ p, findPath pond 0 0 2 2 = Some p ∧
    NoDup p ∧ ((0, 0) ∉ p) ∧
    (p ≠ [] → manhattan (0, 0) (2, 2) ≤ Z.of_nat (length p)) ∧
    Z.of_nat (length p) ≤ width (World.size pond) * height (World.size pond).
Proof.
  eexists. split; [vm_compute; reflexivity|].
  apply (findPath_simple pond 0 0 2 2).
  - apply well_formed_pond.
  - vm_compute. reflexivity.
Defined.

End PathFacts.

Module TerrainFacts.
Import ResourceManager LedgerProofs PathFinder PathProofs SimProofs.

Lemma tileAt_terrain w terrain x y :
  World.tileAt (SetWorld.terrain terrain w) x y =
  if (x <? 0) || (y <? 0) then None
  else row ← terrain !! Z.to_nat y; row !! Z.to_nat x.
Proof. done. Qed.

Lemma of_nat_not_negative (i j : nat) :
  (Z.of_nat i <? 0) || (Z.of_nat j <? 0) = false.
Proof. apply orb_false_iff. split; apply Z.ltb_ge; lia. Qed.

Lemma tileAt_lookup w (i j : nat) row tile :
  World.terrain w !! j = Some row → row !! i = Some tile →
  World.tileAt w (Z.of_nat i) (Z.of_nat j) = Some tile.
Proof.
  intros Hrow Htile. unfold World.tileAt.
  rewrite of_nat_not_negative, !Nat2Z.id, Hrow. simpl. done.
Qed.

Lemma mark_tile_tileAt w ref terrain c terrain' :
  Coordinator.mark_tile w ref terrain c = Some terrain' →
  length terrain' = length terrain ∧
  (∀ j row', terrain' !! j = Some row' →
     ∃ row, terrain !! j = Some row ∧ length row' = length row) ∧
  ∀ x y, World.tileAt (SetWorld.terrain terrain' w) x y =
    if bool_decide ((x, y) = c) && negb (out_of_bounds w x y)
    then Coordinator.occupy ref <$> World.tileAt (SetWorld.terrain terrain w) x y
    else World.tileAt (SetWorld.terrain terrain w) x y.
Proof.
  unfold Coordinator.mark_tile. intros H.
  destruct (out_of_bounds w c.1 c.2) eqn:Hb.
  - injection H as <-. split; [done|]. split; [by eauto|].
    intros x y. case_bool_decide as Heq; [|done]. subst c. simpl in Hb.
    by rewrite Hb.
  - destruct (terrain !! Z.to_nat c.2) as [row|] eqn:Hrow; [|done].
    simpl in H. destruct (row !! Z.to_nat c.1) as [tile|] eqn:Htile; [|done].
    injection H as <-. apply out_of_bounds_false in Hb.
    split; [by rewrite length_alter|]. split.
    + intros j row' Hj. destruct (decide (Z.to_nat c.2 = j)) as [<-|Hne].
      * rewrite list_lookup_alter_eq, Hrow in Hj. injection Hj as <-.
        exists row. split; [done|]. by rewrite length_alter.
      * rewrite list_lookup_alter_ne in Hj by done. eauto.
    + intros x y. rewrite !tileAt_terrain.
      destruct ((x <? 0) || (y <? 0)) eqn:Hneg.
      { by destruct (_ && _). }
      case_bool_decide as Heq.
      * subst c. simpl in *.
        replace (out_of_bounds w x y) with false
          by (symmetry; apply out_of_bounds_false; lia).
        simpl. rewrite list_lookup_alter_eq, Hrow. simpl.
        by rewrite list_lookup_alter_eq.
      * simpl. destruct (decide (Z.to_nat c.2 = Z.to_nat y)) as [Hy|Hy].
        -- rewrite <- Hy, list_lookup_alter_eq, Hrow. simpl.
           rewrite list_lookup_alter_ne; [done|].
           intros Hx. apply Heq. destruct c as [cx cy]. simpl in *.
           f_equal; lia.
        -- by rewrite list_lookup_alter_ne.
Qed.

Lemma occupy_occupy ref (o : option Tile.t) :
  Coordinator.occupy ref <$> (Coordinator.occupy ref <$> o)
  = Coordinator.occupy ref <$> o.
Proof. by destruct o. Qed.

Lemma mark_tiles_tileAt w ref cs : ∀ terrain terrain',
  Coordinator.mark_tiles w ref cs terrain = Some terrain' →
  length terrain' = length terrain ∧
  (∀ j row', terrain' !! j = Some row' →
     ∃ row, terrain !! j = Some row ∧ length row' = length row) ∧
  ∀ x y, World.tileAt (SetWorld.terrain terrain' w) x y =
    if bool_decide ((x, y) ∈ cs) && negb (out_of_bounds w x y)
    then Coordinator.occupy ref <$> World.tileAt (SetWorld.terrain terrain w) x y
    else World.tileAt (SetWorld.terrain terrain w) x y.
Proof.
  induction cs as [|c cs IH]; intros terrain terrain' H; simpl in H.
  - injection H as <-. split; [done|]. split; [by eauto|].
    intros x y. rewrite bool_decide_eq_false_2; [done|apply not_elem_of_nil].
  - destruct (Coordinator.mark_tile w ref terrain c) as [terrain1|] eqn:H1;
      [|done]. simpl in H.
    destruct (mark_tile_tileAt _ _ _ _ _ H1) as (Hlen1 & Hrows1 & Hat1).
    destruct (IH _ _ H) as (Hlen & Hrows & Hat).
    split; [congruence|]. split.
    + intros j row' Hj. destruct (Hrows j row' Hj) as (row1 & Hj1 & Hl).
      destruct (Hrows1 j row1 Hj1) as (row & Hj0 & Hl1).
      exists row. split; [done|congruence].
    + intros x y. rewrite Hat, Hat1.
      destruct (negb (out_of_bounds w x y)); rewrite ?andb_false_r; [|done].
      rewrite !andb_true_r.
      destruct (decide ((x, y) = c)) as [Heq|Hne].
      * rewrite (bool_decide_eq_true_2 ((x, y) = c)) by done.
        rewrite (bool_decide_eq_true_2 ((x, y) ∈ c :: cs)) by (subst; left).
        case_bool_decide; [apply occupy_occupy|done].
      * rewrite (bool_decide_eq_false_2 ((x, y) = c)) by done.
        rewrite (bool_decide_ext ((x, y) ∈ c :: cs) ((x, y) ∈ cs)); [done|].
        rewrite elem_of_cons. tauto.
Qed.

(** What [addBuilding] and [addConstruction] do to the tiles, and that
    they keep the world well formed. *)
Lemma marked_well_formed w w' e :
  World.well_formed w →
  World.size w' = World.size w →
  World.objects w' = <[Coordinator.new_ref w := e]> (World.objects w) →
  Coordinator.mark_tiles w (Coordinator.new_ref w)
    (footprint_cells (Entity.position e) (Entity.size e)) (World.terrain w)
    = Some (World.terrain w') →
  World.well_formed w' ∧
  ∀ x y, World.tileAt w' x y =
    if bool_decide ((x, y) ∈ footprint_cells (Entity.position e) (Entity.size e))
       && negb (out_of_bounds w x y)
    then Coordinator.occupy (Coordinator.new_ref w) <$> World.tileAt w x y
    else World.tileAt w x y.
Proof.
  intros Hwf Hsize Hobj Hmark.
  destruct (mark_tiles_tileAt _ _ _ _ _ Hmark) as (Hlen & Hrows & Hat).
  assert (Hat' : ∀ x y, World.tileAt w' x y =
    if bool_decide ((x, y) ∈ footprint_cells (Entity.position e) (Entity.size e))
       && negb (out_of_bounds w x y)
    then Coordinator.occupy (Coordinator.new_ref w) <$> World.tileAt w x y
    else World.tileAt w x y).
  { intros x y. specialize (Hat x y). by rewrite !tileAt_terrain in Hat. }
  split; [|done].
  destruct Hwf as (Hw & Hh & Hr & Hc & Hids).
  unfold World.well_formed. rewrite Hsize.
  split; [done|]. split; [done|]. split; [congruence|]. split.
  - intros row' [j Hj]%list_elem_of_lookup.
    destruct (Hrows j row' Hj) as (row & Hj0 & ->).
    apply Hc. by eapply list_elem_of_lookup_2.
  - intros row' tile id [j Hj]%list_elem_of_lookup [i Hi]%list_elem_of_lookup Hid.
    pose proof (tileAt_lookup w' i j row' tile Hj Hi) as Htile.
    rewrite Hat' in Htile. rewrite Hobj.
    assert (Hold : ∀ tile0, World.tileAt w (Z.of_nat i) (Z.of_nat j) = Some tile0 →
              ∀ id0, Tile.building tile0 = Some id0 →
              is_Some (World.objects w !! id0)).
    { intros tile0 Htile0 id0 Hid0. unfold World.tileAt in Htile0.
      rewrite of_nat_not_negative, !Nat2Z.id in Htile0.
      destruct (World.terrain w !! j) as [row|] eqn:Hrow; [|done].
      simpl in Htile0. eapply Hids; [| |done].
      - by eapply list_elem_of_lookup_2.
      - by eapply list_elem_of_lookup_2. }
    destruct (_ && _).
    + destruct (World.tileAt w _ _) as [tile0|]; [|done].
      injection Htile as <-. simpl in Hid. injection Hid as <-.
      rewrite lookup_insert_eq. eauto.
    + destruct (decide (id = Coordinator.new_ref w)) as [->|Hne].
      * rewrite lookup_insert_eq. eauto.
      * rewrite lookup_insert_ne by done. by eapply Hold.
Qed.

Lemma addBuilding_tiles w e :
  World.well_formed w →
  ∃ w', Coordinator.addBuilding w e = Some w' ∧
    World.well_formed w' ∧ World.size w' = World.size w ∧
    World.objects w' = <[Coordinator.new_ref w := e]> (World.objects w) ∧
    World.objects w !! Coordinator.new_ref w = None ∧
    ∀ x y, World.tileAt w' x y =
      if bool_decide ((x, y) ∈ footprint_cells (Entity.position e) (Entity.size e))
         && negb (out_of_bounds w x y)
      then Coordinator.occupy (Coordinator.new_ref w) <$> World.tileAt w x y
      else World.tileAt w x y.
Proof.
  intros Hwf. pose proof Hwf as (_ & _ & Hrows & Hcols & _).
  unfold Coordinator.addBuilding.
  destruct (mark_tiles_total w (Coordinator.new_ref w)
              (footprint_cells (Entity.position e) (Entity.size e))
              (World.terrain w) Hrows Hcols) as [terrain' Hmark].
  rewrite Hmark. simpl. eexists. split; [done|].
  destruct (marked_well_formed w
    (SetWorld.terrain terrain'
       (SetWorld.buildings (World.buildings w ++ [Coordinator.new_ref w])
          (SetWorld.objects (<[Coordinator.new_ref w := e]> (World.objects w)) w)))
    e Hwf) as [Hwf' Hat]; try done.
  split; [done|]. split; [done|]. split; [done|]. split; [|done].
  apply not_elem_of_dom. unfold Coordinator.new_ref. apply is_fresh.
Qed.

Lemma addConstruction_tiles w e :
  World.well_formed w →
  ∃ w', Coordinator.addConstruction w e = Some w' ∧
    World.well_formed w' ∧ World.size w' = World.size w ∧
    World.objects w' = <[Coordinator.new_ref w := e]> (World.objects w) ∧
    World.objects w !! Coordinator.new_ref w = None ∧
    ∀ x y, World.tileAt w' x y =
      if bool_decide ((x, y) ∈ footprint_cells (Entity.position e) (Entity.size e))
         && negb (out_of_bounds w x y)
      then Coordinator.occupy (Coordinator.new_ref w) <$> World.tileAt w x y
      else World.tileAt w x y.
Proof.
  intros Hwf. pose proof Hwf as (_ & _ & Hrows & Hcols & _).
  unfold Coordinator.addConstruction.
  destruct (mark_tiles_total w (Coordinator.new_ref w)
              (footprint_cells (Entity.position e) (Entity.size e))
              (World.terrain w) Hrows Hcols) as [terrain' Hmark].
  rewrite Hmark. simpl. eexists. split; [done|].
  destruct (marked_well_formed w
    (SetWorld.terrain terrain'
       (SetWorld.constructions (World.constructions w ++ [Coordinator.new_ref w])
          (SetWorld.objects (<[Coordinator.new_ref w := e]> (World.objects w)) w)))
    e Hwf) as [Hwf' Hat]; try done.
  split; [done|]. split; [done|]. split; [done|]. split; [|done].
  apply not_elem_of_dom. unfold Coordinator.new_ref. apply is_fresh.
Qed.

End TerrainFacts.

Module PlacementFacts.
Import ResourceManager LedgerProofs PathFinder PathProofs SimProofs TerrainFacts.

Lemma site_free_cells w type x y :
  Forall (λ c, out_of_bounds w c.1 c.2 = false ∧ tile_free w c)
         (footprint_cells (x, y) (footprint (Some type))) →
  site_free w type x y.
Proof. intros Hall c Hc. by apply (proj1 (Forall_forall _ _) Hall). Qed.

Lemma grass_tile_free w c :
  World.tileAt w c.1 c.2 = Some grass → tile_free w c.
Proof. intros Htile. by exists grass. Qed.

(** X12: adding a warehouse at [(x, y)] on a free site of a well-formed
    world makes exactly its four tiles differ for the path finder: of these
    only the bottom-right corner [(x + 1, y + 1)] is passable, and every
    other cell is passable as before. *)
Theorem warehouse_entry_tile w x y :
  World.well_formed w → site_free w WAREHOUSE x y →
  ∃ w', Coordinator.addBuilding w (Warehouse.new x y) = Some w' ∧
    ∀ cx cy, _isPassable w' cx cy =
      if bool_decide (x ≤ cx ≤ x + 1 ∧ y ≤ cy ≤ y + 1)
      then Some (bool_decide (cx = x + 1 ∧ cy = y + 1))
      else _isPassable w cx cy.
Proof.
  intros Hwf Hfree.
  destruct (addBuilding_tiles w (Warehouse.new x y) Hwf)
    as (w' & Hadd & Hwf' & Hsize & Hobj & Hfresh & Hat).
  exists w'. split; [done|]. intros cx cy.
  assert (Hin : (cx, cy) ∈ footprint_cells (x, y) (footprint (Some WAREHOUSE))
                ↔ x ≤ cx ≤ x + 1 ∧ y ≤ cy ≤ y + 1).
  { rewrite elem_of_footprint_cells. simpl. lia. }
  unfold _isPassable.
  assert (Hoob : out_of_bounds w' cx cy = out_of_bounds w cx cy)
    by (unfold out_of_bounds; by rewrite Hsize).
  rewrite Hoob, Hat.
  change (footprint_cells (Entity.position (Warehouse.new x y))
            (Entity.size (Warehouse.new x y)))
    with (footprint_cells (x, y) (footprint (Some WAREHOUSE))).
  rewrite (bool_decide_ext _ _ Hin).
  case_bool_decide as Hcell.
  - destruct (Hfree (cx, cy)) as [Hb (tile & Htile & Hgrass & Hnone)];
      [by apply Hin|]. simpl in Hb, Htile.
    rewrite Hb, Htile. simpl.
    rewrite bool_decide_eq_false_2 by (rewrite Hgrass; intros [?|?]; done).
    rewrite Hobj, lookup_insert_eq. simpl.
    f_equal. apply eq_true_iff_eq. rewrite bool_decide_eq_true.
    rewrite andb_true_iff, !Z.eqb_eq. lia.
  - simpl. destruct (out_of_bounds w cx cy) eqn:Hb; [done|].
    destruct (tileAt_in_bounds w Hwf cx cy Hb) as (row & tile & Hrow & Htile & ->).
    simpl. case_bool_decide; [done|].
    destruct (Tile.building tile) as [id|] eqn:Hid; [|done].
    destruct Hwf as (_ & _ & _ & _ & Hids).
    destruct (Hids row tile id Hrow Htile Hid) as [b Hb'].
    rewrite Hobj, lookup_insert_ne; [done|]. intros <-. congruence.
Qed.

Lemma placeBuilding_cases type x y w :
  World.well_formed w →
  let wp := SetWorld.placementGridPosition (Some (x, y))
              (SetWorld.placementValid true
                 (Coordinator.startBuildingPlacement type w)) in
  (site_free w type x y ∧ covered (World.resources w) (buildingCosts type) →
   ∃ res' w2,
     consumeResources (World.resources w) (buildingCosts type) = Some (res', true) ∧
     Coordinator.addConstruction (SetWorld.resources res' wp)
       (Construction.new x y type) = Some w2 ∧
     Coordinator.placeBuilding type x y w
       = Some (Coordinator.cancelBuildingPlacement w2)) ∧
  (¬ (site_free w type x y ∧ covered (World.resources w) (buildingCosts type)) →
   ∃ w', Coordinator.placeBuilding type x y w = Some w' ∧
     World.size w' = World.size w ∧ World.terrain w' = World.terrain w ∧
     World.objects w' = World.objects w ∧
     World.constructions w' = World.constructions w ∧
     World.buildings w' = World.buildings w ∧
     World.resources w' = World.resources w).
Proof.
  intros Hwf wp.
  pose proof (startBuildingPlacement_fields type w)
    as (Hsz & Hter & Hobj & Hbld & Hcon & Hset & Hres & Hmode & Htype & Hmesh).
  unfold Coordinator.placeBuilding. subst wp.
  remember (Coordinator.startBuildingPlacement type w) as w1 eqn:Hw1.
  clear Hw1. simpl in *.
  assert (Hwf1 : World.well_formed w1) by (by apply (well_formed_same w)).
  destruct (isPlacementValid_site w1 type x y Hwf1 Htype) as (b & Hvalid & Hb).
  rewrite (site_free_same w w1) in Hb by done. rewrite Hres in Hb.
  unfold Coordinator._updatePlacementPreview.
  rewrite Hmesh. simpl. rewrite Hvalid. simpl.
  unfold Coordinator._onClick. simpl. rewrite Hmode.
  destruct b.
  - split; [|intros Hno; destruct Hno; by apply Hb].
    intros _. unfold Coordinator._placeBuilding. simpl. rewrite Htype. simpl.
    destruct Hb as [[Hfree Hcov] _]; [done|].
    destruct (consumeResources_accepts _ _ (proj2 (hasResources_costs _ _) Hcov))
      as (res' & Hcons & Hdec).
    rewrite Hres, Hcons. simpl.
    destruct (addConstruction_fields
                (SetWorld.resources res'
                   (SetWorld.placementGridPosition (Some (x, y))
                      (SetWorld.placementValid true w1)))
                (Construction.new x y type))
      as (w3 & Hadd & _).
    { by apply (well_formed_same w1). }
    exists res', w3. rewrite Hadd. done.
  - split; [intros H; apply Hb in H; done|].
    intros _. eexists. split; [done|]. simpl. done.
Qed.

Lemma warehouse_entry_tile_witness :
  ∃ w', Coordinator.addBuilding Examples.field (Warehouse.new 1 1) = Some w' ∧
    _isPassable w' 1 1 = Some false ∧ _isPassable w' 2 2 = Some true ∧
    _isPassable w' 3 2 = _isPassable Examples.field 3 2.
Proof.
  destruct (warehouse_entry_tile Examples.field 1 1 well_formed_field)
    as (w' & Hadd & Hpass).
  { apply site_free_cells. repeat constructor;
      apply grass_tile_free; reflexivity. }
  exists w'. split; [exact Hadd|]. rewrite !Hpass. repeat split.
Defined.

(** X14: outside placement mode, starting the placement of a building and
    cancelling it gives back the world as it was, and cancelling or
    clicking changes nothing. *)
Theorem placement_mode_round_trip type w :
  World.buildingPlacementMode w = false →
  World.buildingTypeToPlace w = None →
  World.placementPreviewMesh w = false →
  Coordinator.cancelBuildingPlacement
    (Coordinator.startBuildingPlacement type w) = w ∧
  Coordinator.cancelBuildingPlacement w = w ∧
  Coordinator._onClick w = Some w.
Proof.
  intros Hmode Htype Hmesh.
  unfold Coordinator.cancelBuildingPlacement, Coordinator.startBuildingPlacement,
    Coordinator._onClick.
  rewrite Hmode. simpl. split; [|done].
  destruct w. simpl in *. by subst.
Qed.

Lemma placement_mode_round_trip_witness :
  Coordinator.cancelBuildingPlacement
    (Coordinator.startBuildingPlacement SAWMILL Examples.field) = Examples.field ∧
  Coordinator.cancelBuildingPlacement Examples.field = Examples.field ∧
  Coordinator._onClick Examples.field = Some Examples.field.
Proof. apply (placement_mode_round_trip SAWMILL Examples.field); reflexivity. Defined.

End PlacementFacts.

Module ProductionFacts.
Import ResourceManager LedgerProofs LedgerFacts.

(** X15: [_upgradeBuilding] on a building not above its maximum level:
    when the ledger does not cover the upgrade cost, nothing changes; when
    it does, the cost is consumed, and the level rises by one and the cost
    of the next level is set, unless the building is at its maximum level:
    then the cost is consumed and the building stays as it is. *)
Theorem upgradeBuilding_outcome res b :
  Production.level b ≤ Production.maxLevel b →
  ∃ res' b', Production._upgradeBuilding res b = Some (res', b') ∧
    Production.level b ≤ Production.level b' ≤ Production.maxLevel b' ∧
    Production.maxLevel b' = Production.maxLevel b ∧
    (¬ available res (Production.upgradeCost b) → res' = res ∧ b' = b) ∧
    (available res (Production.upgradeCost b) →
       decremented res (Production.upgradeCost b) res' ∧
       (Production.level b < Production.maxLevel b →
          Production.level b' = Production.level b + 1 ∧
          Production.upgradeCost b' =
            {[ "plank" := 10 * Production.level b';
               "stone" := 5 * Production.level b' ]}) ∧
       (Production.level b = Production.maxLevel b → b' = b)).
Proof.
  intros Hle. unfold Production._upgradeBuilding.
  destruct (hasResources res (Production.upgradeCost b)) eqn:Hhas.
  - destruct (consumeResources_accepts _ _ Hhas) as (res' & -> & Hdec).
    simpl. unfold Production.upgrade.
    destruct (Production.maxLevel b <=? Production.level b) eqn:Hmax; simpl.
    + exists res', b. split; [done|]. split; [lia|]. split; [done|].
      split; [intros Hno; destruct Hno; by apply hasResources_available|].
      intros _. split; [done|]. split; [lia|done].
    + eexists _, _. split; [done|]. simpl. split; [lia|]. split; [done|].
      split; [intros Hno; destruct Hno; by apply hasResources_available|].
      intros _. split; [done|]. split; [done|lia].
  - exists res, b. split; [done|]. split; [lia|]. split; [done|].
    split; [done|]. intros Hav. apply hasResources_available in Hav. congruence.
Qed.

Lemma upgradeBuilding_outcome_witness :
  ∃ res' b',
    Production._upgradeBuilding initial (Production.new WOODCUTTER)
      = Some (res', b') ∧
    decremented initial (Production.upgradeCost (Production.new WOODCUTTER))
      res' ∧
    Production.level b' = 2.
Proof.
  destruct (upgradeBuilding_outcome initial (Production.new WOODCUTTER))
    as (res' & b' & Hup & _ & _ & _ & Hyes); [simpl; lia|].
  exists res', b'. split; [exact Hup|].
  destruct Hyes as (Hdec & Hlevel & _).
  { apply hasResources_available. vm_compute. reflexivity. }
  split; [exact Hdec|]. destruct Hlevel as [Hlevel _]; [simpl; lia|].
  exact Hlevel.
Defined.

(** X16: [startProduction] fails exactly when the building consumes
    inputs the ledger does not cover, and then changes nothing; otherwise
    it sets [isProducing] and takes the inputs, if any, from the ledger. *)
Theorem startProduction_pays_inputs res b :
  ∃ res' b' ok, Production.startProduction res b = Some (res', b', ok) ∧
    (ok = false ↔ ∃ inputs, Production.consumes b = Some inputs ∧
                            ¬ available res inputs) ∧
    (ok = false → res' = res ∧ b' = b) ∧
    (ok = true →
       b' = Production.set_isProducing true b ∧
       match Production.consumes b with
       | Some inputs => decremented res inputs res'
       | None => res' = res
       end).
Proof.
  unfold Production.startProduction.
  destruct (Production.consumes b) as [inputs|]; simpl.
  - destruct (hasResources res inputs) eqn:Hhas; simpl.
    + destruct (consumeResources_accepts _ _ Hhas) as (res' & -> & Hdec).
      simpl. eexists _, _, _. split; [done|]. split; [|done].
      split; [done|]. intros (inputs' & [= <-] & Hno). destruct Hno.
      by apply hasResources_available.
    + eexists _, _, _. split; [done|]. split; [|done]. split; [|done].
      intros _. exists inputs. split; [done|].
      intros Hav%hasResources_available. congruence.
  - eexists _, _, _. split; [done|]. split; [|done].
    split; [done|]. by intros (? & ? & _).
Qed.

Lemma frames_idle (n : nat) : ∀ res b,
  Production.isProducing b = true →
  Production.produces b ≠ None →
  Production.productionTimer b + 1667 * Z.of_nat n < Production.productionTime b →
  Production.frames n res b =
    Some (res, Production.set_productionTimer
                 (Production.productionTimer b + 1667 * Z.of_nat n) b).
Proof.
  induction n as [|n IH]; intros res b Hprod Hsome Hlt.
  - simpl. rewrite Z.mul_0_r, Z.add_0_r. by destruct b.
  - cbn [Production.frames]. unfold Production.update. rewrite Hprod.
    rewrite bool_decide_eq_false_2 by done. simpl.
    destruct (Production.productionTime b <=? Production.productionTimer b + 1667)
      eqn:Hdone; [lia|].
    cbn [mbind option_bind]. rewrite IH; [|done|done|simpl; lia].
    simpl. do 2 f_equal. unfold Production.set_productionTimer. simpl.
    f_equal. lia.
Qed.

Lemma frames_app (n m : nat) : ∀ res b,
  Production.frames (n + m) res b =
  '(res1, b1) ← Production.frames n res b; Production.frames m res1 b1.
Proof.
  induction n as [|n IH]; intros res b; [done|].
  cbn [Nat.add Production.frames].
  destruct (Production.update res b) as [[res1 b1]|]; [|done].
  cbn [mbind option_bind]. apply IH.
Qed.

(** One cycle of a building that consumes nothing. *)
Lemma frames_cycle res b resource rate :
  Production.isProducing b = true →
  Production.produces b = Some (resource, rate) →
  Production.consumes b = None →
  Production.productionTimer b = 0 →
  Production.productionTime b = 500000 →
  Production.frames 300 res b =
    Some ((addResource res resource (rate * Production.level b)).1, b).
Proof.
  intros Hprod Hres Hcons Htimer Htime.
  change 300%nat with (299 + 1)%nat. rewrite frames_app.
  rewrite frames_idle; [|done|congruence|lia].
  cbn [mbind option_bind Production.frames]. unfold Production.update.
  cbn [Production.set_productionTimer Production.isProducing
       Production.produces Production.productionTimer
       Production.productionTime].
  rewrite Hprod, Hres, Htimer, Htime. simpl.
  unfold Production._produce. simpl. rewrite Hres, Hcons. simpl.
  do 2 f_equal. destruct b. simpl in *. by subst.
Qed.

(** X17: a producing building without inputs, its timer at 0 and the
    production time at 5000 ms, leaves the ledger alone for 299 frames; and
    after every 300 frames it is in the same state again and has added
    [rate * level] of its product, so [k] cycles add [k] times as much and
    touch no other resource. *)
Theorem production_every_300_frames res b resource rate :
  Production.isProducing b = true →
  Production.produces b = Some (resource, rate) →
  Production.consumes b = None →
  Production.productionTimer b = 0 →
  Production.productionTime b = 500000 →
  (∀ n, (n < 300)%nat → ∃ b', Production.frames n res b = Some (res, b')) ∧
  ∀ k : nat, ∃ res',
    Production.frames (300 * k) res b = Some (res', b) ∧
    getResource res' resource =
      getResource res resource + Z.of_nat k * (rate * Production.level b) ∧
    ∀ t, t ≠ resource → getResource res' t = getResource res t.
Proof.
  intros Hprod Hres Hcons Htimer Htime. split.
  - intros n Hn. eexists. apply frames_idle; [done|congruence|lia].
  - induction k as [|k (res' & IH & Hget & Hother)].
    + exists res. split; [done|]. split; [lia|done].
    + replace (300 * S k)%nat with (300 * k + 300)%nat by lia.
      rewrite frames_app, IH. cbn [mbind option_bind].
      rewrite (frames_cycle res' b resource rate) by done.
      eexists. split; [done|].
      destruct (addResource_getResource res' resource (rate * Production.level b))
        as (_ & Hadd & Hadd').
      split; [rewrite Hadd, Hget; lia|].
      intros t Ht. rewrite Hadd' by done. by apply Hother.
Qed.

Lemma production_every_300_frames_witness :
  (∀ n, (n < 300)%nat →
     ∃ b', Production.frames n initial
             (Production.set_isProducing true (Production.new WOODCUTTER))
           = Some (initial, b')) ∧
  ∀ k : nat, ∃ res',
    Production.frames (300 * k) initial
      (Production.set_isProducing true (Production.new WOODCUTTER))
      = Some (res', Production.set_isProducing true (Production.new WOODCUTTER)) ∧
    getResource res' "wood" = getResource initial "wood" + Z.of_nat k * (1 * 1) ∧
    ∀ t, t ≠ "wood" → getResource res' t = getResource initial t.
Proof.
  apply (production_every_300_frames initial
           (Production.set_isProducing true (Production.new WOODCUTTER))
           "wood" 1); reflexivity.
Defined.

(** X18: [_produce] of a building with inputs first adds the product; it
    then takes the inputs of the next unit when the ledger covers them and
    keeps the building as it is, and otherwise stops the production, after
    which no number of frames changes the building or any ledger. *)
Theorem produce_stops_without_inputs res b resource rate inputs :
  Production.produces b = Some (resource, rate) →
  Production.consumes b = Some inputs →
  let res1 := (addResource res resource (rate * Production.level b)).1 in
  ∃ res' b', Production._produce res b = Some (res', b') ∧
    (available res1 inputs →
       decremented res1 inputs res' ∧ b' = b) ∧
    (¬ available res1 inputs →
       res' = res1 ∧ b' = Production.stopProduction b ∧
       ∀ n res2, Production.frames n res2 b' = Some (res2, b')).
Proof.
  intros Hres Hcons res1. unfold Production._produce.
  rewrite Hres, Hcons. fold res1.
  destruct (hasResources res1 inputs) eqn:Hhas.
  - destruct (consumeResources_accepts _ _ Hhas) as (res' & -> & Hdec).
    simpl. eexists _, _. split; [done|]. split; [done|].
    intros Hno. destruct Hno. by apply hasResources_available.
  - eexists _, _. split; [done|]. split.
    + intros Hav%hasResources_available. congruence.
    + intros _. split; [done|]. split; [done|].
      induction n as [|n IH]; intros res2; [done|].
      cbn [Production.frames]. unfold Production.update at 1. simpl.
      apply IH.
Qed.

Lemma produce_stops_without_inputs_witness :
  ∃ res' b', Production._produce ∅ (Production.new SAWMILL) = Some (res', b') ∧
    b' = Production.stopProduction (Production.new SAWMILL) ∧
    ∀ n res2, Production.frames n res2 b' = Some (res2, b').
Proof.
  destruct (produce_stops_without_inputs ∅ (Production.new SAWMILL)
              "plank" 1 {[ "wood" := 1 ]} eq_refl eq_refl)
    as (res' & b' & Hproduce & _ & Hno).
  exists res', b'. split; [exact Hproduce|]. apply Hno.
  intros Hav%hasResources_available. vm_compute in Hav. discriminate Hav.
Defined.

(** X19: assigning a worker to a building without workers and removing it
    again leaves the building without workers and not producing, all else
    as before; the ledger is as [startProduction] left it when the building
    produces something, so inputs taken at the start are not given back,
    and untouched when it produces nothing. *)
Theorem worker_round_trip worker res b :
  Production.workers b = [] →
  ∃ res' b', Production.assignWorker worker res b = Some (res', b') ∧
    Production.workers b' = [worker] ∧
    Production.removeWorker worker b' = Production.stopProduction b ∧
    (Production.produces b = None → res' = res ∧ b' = Production.set_workers [worker] b) ∧
    (Production.produces b ≠ None →
       ∃ ok, Production.startProduction res (Production.set_workers [worker] b)
             = Some (res', b', ok)).
Proof.
  intros Hworkers. unfold Production.assignWorker. rewrite Hworkers.
  cbn [app Production.set_workers Production.workers Production.produces
       length].
  rewrite (bool_decide_eq_true_2 (0 < 1)%nat) by lia. cbn [andb].
  assert (Hremove : ∀ producing,
    Production.removeWorker worker
      (Production.set_isProducing producing (Production.set_workers [worker] b))
    = Production.stopProduction b).
  { intros producing. unfold Production.removeWorker. simpl.
    assert (Hfilter : filter (λ w : nat, w ≠ worker) [worker] = []).
    { rewrite filter_cons_False by (intros Hne; by apply Hne). done. }
    rewrite Hfilter. simpl.
    unfold Production.stopProduction, Production.set_isProducing. simpl.
    destruct b. simpl in *. by subst. }
  assert (Hsame : Production.set_isProducing (Production.isProducing b)
                    (Production.set_workers [worker] b)
                  = Production.set_workers [worker] b) by done.
  destruct (Production.produces b) as [[resource rate]|] eqn:Hproduces.
  - rewrite bool_decide_eq_true_2 by done.
    unfold Production.startProduction.
    cbn [Production.set_workers Production.consumes].
    destruct (Production.consumes b) as [inputs|]; simpl.
    + destruct (hasResources res inputs) eqn:Hhas; simpl.
      * destruct (consumeResources_accepts _ _ Hhas) as (res' & -> & _).
        simpl. eexists _, _. split; [done|]. split; [done|].
        split; [apply Hremove|]. split; [done|]. intros _. by eexists.
      * eexists _, _. split; [done|]. split; [done|].
        split; [rewrite <- Hsame; apply Hremove|]. split; [done|].
        intros _. by eexists.
    + eexists _, _. split; [done|]. split; [done|].
      split; [apply Hremove|]. split; [done|]. intros _. by eexists.
  - rewrite bool_decide_eq_false_2 by (intros Hne; by apply Hne).
    eexists _, _. split; [done|]. split; [done|].
    split; [rewrite <- Hsame; apply Hremove|]. split; [done|]. done.
Qed.

Lemma worker_round_trip_witness :
  ∃ res' b',
    Production.assignWorker 0%nat ∅ (Production.new WOODCUTTER) = Some (res', b') ∧
    Production.workers b' = [0%nat] ∧
    Production.removeWorker 0%nat b'
      = Production.stopProduction (Production.new WOODCUTTER).
Proof.
  destruct (worker_round_trip 0%nat ∅ (Production.new WOODCUTTER) eq_refl)
    as (res' & b' & Hassign & Hworkers & Hremove & _).
  by exists res', b'.
Defined.

End ProductionFacts.

Module FogFacts.
Import PathFinder PathProofs Grid Fog.

Lemma at_rect {A} rows cols (grid : list (list A)) x y :
  rect rows cols grid → 0 ≤ x < cols → 0 ≤ y < rows → is_Some (at_ grid x y).
Proof.
  intros [Hrows Hcols] Hx Hy. unfold at_.
  replace ((x <? 0) || (y <? 0)) with false by lia.
  destruct (lookup_lt_is_Some_2 grid (Z.to_nat y)) as [row Hrow]; [lia|].
  rewrite Hrow. simpl. apply lookup_lt_is_Some_2.
  rewrite (Hcols row) by (by eapply list_elem_of_lookup_2). lia.
Qed.

Lemma set_rect {A} rows cols (v : A) x y grid :
  rect rows cols grid → 0 ≤ x < cols → 0 ≤ y < rows →
  ∃ grid', set_ v x y grid = Some grid' ∧ rect rows cols grid' ∧
    ∀ x' y', at_ grid' x' y' =
      if bool_decide ((x', y') = (x, y)) then Some v else at_ grid x' y'.
Proof.
  intros Hshape Hx Hy.
  destruct (at_rect rows cols grid x y Hshape Hx Hy) as [old Hold].
  unfold set_. rewrite Hold. simpl. eexists. split; [done|].
  unfold at_ in Hold.
  replace ((x <? 0) || (y <? 0)) with false in Hold by lia.
  destruct (grid !! Z.to_nat y) as [row|] eqn:Hrow; [|done]. simpl in Hold.
  destruct Hshape as [Hrows Hcols]. split; [split|].
  - by rewrite length_alter.
  - intros row' [j Hj]%list_elem_of_lookup.
    destruct (decide (Z.to_nat y = j)) as [<-|Hne].
    + rewrite list_lookup_alter_eq, Hrow in Hj. injection Hj as <-.
      rewrite length_alter. apply Hcols. by eapply list_elem_of_lookup_2.
    + rewrite list_lookup_alter_ne in Hj by done.
      apply Hcols. by eapply list_elem_of_lookup_2.
  - intros x' y'. unfold at_.
    destruct ((x' <? 0) || (y' <? 0)) eqn:Hneg.
    { rewrite bool_decide_eq_false_2; [done|]. intros [= -> ->]. lia. }
    case_bool_decide as Heq.
    + injection Heq as -> ->.
      rewrite list_lookup_alter_eq, Hrow. simpl.
      by rewrite list_lookup_alter_eq, Hold.
    + destruct (decide (Z.to_nat y = Z.to_nat y')) as [Hy'|Hy'].
      * rewrite <- Hy', list_lookup_alter_eq, Hrow. simpl.
        rewrite list_lookup_alter_ne; [done|]. intros Hx'. apply Heq.
        f_equal; lia.
      * by rewrite list_lookup_alter_ne.
Qed.

Lemma at_shaped {A} w (grid : list (list A)) x y :
  grid_shaped w grid → out_of_bounds w x y = false → is_Some (at_ grid x y).
Proof.
  intros Hshape [??]%out_of_bounds_false.
  by apply (at_rect (height (World.size w)) (width (World.size w))).
Qed.

Lemma set_at {A} w (v : A) x y grid :
  grid_shaped w grid → out_of_bounds w x y = false →
  ∃ grid', set_ v x y grid = Some grid' ∧ grid_shaped w grid' ∧
    ∀ x' y', at_ grid' x' y' =
      if bool_decide ((x', y') = (x, y)) then Some v else at_ grid x' y'.
Proof.
  intros Hshape [??]%out_of_bounds_false.
  by apply (set_rect (height (World.size w)) (width (World.size w))).
Qed.

Lemma reveal_cells_at w cx cy r cs : ∀ st,
  shaped w st →
  ∃ st', reveal_cells w cx cy r cs st = Some st' ∧ shaped w st' ∧
    fogOfWarMesh st' = fogOfWarMesh st ∧
    ∀ x y,
      at_ (visibility st') x y =
        (if bool_decide ((x, y) ∈ cs) && negb (out_of_bounds w x y)
            && near cx cy r x y
         then Some VISIBLE else at_ (visibility st) x y) ∧
      at_ (fogOfWar st') x y =
        (if bool_decide ((x, y) ∈ cs) && negb (out_of_bounds w x y)
            && near cx cy r x y
         then Some {| visible := true; explored := true |}
         else at_ (fogOfWar st) x y).
Proof.
  induction cs as [|c cs IH]; intros st Hshape.
  - exists st. split; [done|]. split; [done|]. split; [done|].
    intros x y. rewrite bool_decide_eq_false_2 by apply not_elem_of_nil. done.
  - cbn [reveal_cells]. unfold reveal_cell.
    assert (Hstep : ∃ st1,
      (if out_of_bounds w c.1 c.2 then Some st
       else if (c.1 - cx) * (c.1 - cx) + (c.2 - cy) * (c.2 - cy) <=? r * r
            then vis ← set_ VISIBLE c.1 c.2 (visibility st);
                 fog ← set_ {| visible := true; explored := true |} c.1 c.2
                         (fogOfWar st);
                 Some (mk vis fog (fogOfWarMesh st))
            else Some st) = Some st1 ∧ shaped w st1 ∧
      fogOfWarMesh st1 = fogOfWarMesh st ∧
      ∀ x y,
        at_ (visibility st1) x y =
          (if bool_decide ((x, y) = c) && negb (out_of_bounds w x y)
              && near cx cy r x y
           then Some VISIBLE else at_ (visibility st) x y) ∧
        at_ (fogOfWar st1) x y =
          (if bool_decide ((x, y) = c) && negb (out_of_bounds w x y)
              && near cx cy r x y
           then Some {| visible := true; explored := true |}
           else at_ (fogOfWar st) x y)).
    { destruct (out_of_bounds w c.1 c.2) eqn:Hb.
      - exists st. split; [done|]. split; [done|]. split; [done|].
        intros x y. case_bool_decide as Heq; [|done]. subst c. simpl in Hb.
        by rewrite Hb.
      - fold (near cx cy r c.1 c.2). destruct (near cx cy r c.1 c.2) eqn:Hnear.
        + destruct Hshape as [Hv Hf].
          destruct (set_at w VISIBLE c.1 c.2 _ Hv Hb) as (vis & -> & Hv' & Hvat).
          destruct (set_at w {| visible := true; explored := true |} c.1 c.2 _ Hf Hb)
            as (fog & -> & Hf' & Hfat).
          simpl. eexists. split; [done|]. split; [done|]. split; [done|].
          intros x y. simpl. rewrite Hvat, Hfat.
          rewrite <- surjective_pairing.
          case_bool_decide as Heq; [|done]. subst c. simpl in *.
          by rewrite Hb, Hnear.
        + exists st. split; [done|]. split; [done|]. split; [done|].
          intros x y. case_bool_decide as Heq; [|done]. subst c. simpl in *.
          by rewrite Hnear, andb_false_r. }
    destruct Hstep as (st1 & -> & Hshape1 & Hmesh1 & Hat1).
    cbn [mbind option_bind].
    destruct (IH st1 Hshape1) as (st' & -> & Hshape' & Hmesh' & Hat').
    exists st'. split; [done|]. split; [done|]. split; [congruence|].
    intros x y. destruct (Hat' x y) as [-> ->]. destruct (Hat1 x y) as [-> ->].
    rewrite (bool_decide_ext ((x, y) ∈ c :: cs) ((x, y) = c ∨ (x, y) ∈ cs))
      by apply elem_of_cons.
    destruct (decide ((x, y) = c)) as [Heq|Hne].
    + rewrite (bool_decide_eq_true_2 ((x, y) = c)) by done.
      rewrite (bool_decide_eq_true_2 ((x, y) = c ∨ _)) by (by left).
      by destruct (bool_decide ((x, y) ∈ cs)), (negb _), (near _ _ _ _ _).
    + rewrite (bool_decide_eq_false_2 ((x, y) = c)) by done.
      rewrite (bool_decide_ext ((x, y) = c ∨ (x, y) ∈ cs) ((x, y) ∈ cs))
        by tauto.
      done.
Qed.

Lemma near_in_square cx cy r x y :
  0 ≤ r → near cx cy r x y = true →
  (x, y) ∈ footprint_cells (cx - r, cy - r)
             {| width := 2 * r + 1; height := 2 * r + 1 |}.
Proof.
  unfold near. intros Hr Hnear%Z.leb_le.
  apply SimProofs.elem_of_footprint_cells. simpl.
  assert (Hsq : ∀ d e, d * d + e * e ≤ r * r → - r ≤ d ≤ r).
  { intros d e Hde.
    destruct (Z_lt_le_dec r d); [nia|].
    destruct (Z_lt_le_dec d (- r)); [nia|lia]. }
  pose proof (Hsq (x - cx) (y - cy) Hnear).
  assert ((y - cy) * (y - cy) + (x - cx) * (x - cx) ≤ r * r) as Hnear' by lia.
  pose proof (Hsq (y - cy) (x - cx) Hnear'). lia.
Qed.

Lemma revealArea_at w cx cy r st :
  0 ≤ r → shaped w st →
  ∃ st', _revealArea w cx cy r st = Some st' ∧ shaped w st' ∧
    fogOfWarMesh st' = fogOfWarMesh st ∧
    ∀ x y,
      at_ (visibility st') x y =
        (if negb (out_of_bounds w x y) && near cx cy r x y
         then Some VISIBLE else at_ (visibility st) x y) ∧
      at_ (fogOfWar st') x y =
        (if negb (out_of_bounds w x y) && near cx cy r x y
         then Some {| visible := true; explored := true |}
         else at_ (fogOfWar st) x y).
Proof.
  intros Hr Hshape. unfold _revealArea.
  destruct (reveal_cells_at w cx cy r
              (footprint_cells (cx - r, cy - r)
                 {| width := 2 * r + 1; height := 2 * r + 1 |}) st Hshape)
    as (st' & -> & Hshape' & Hmesh & Hat).
  exists st'. split; [done|]. split; [done|]. split; [done|].
  intros x y. destruct (Hat x y) as [-> ->].
  destruct (near cx cy r x y) eqn:Hnear.
  - rewrite bool_decide_eq_true_2 by (by apply near_in_square). done.
  - by rewrite !andb_false_r.
Qed.

Lemma reset_cells_at w cs : ∀ st,
  shaped w st → (∀ c, c ∈ cs → out_of_bounds w c.1 c.2 = false) →
  ∃ st', reset_cells cs st = Some st' ∧ shaped w st' ∧
    fogOfWar st' = fogOfWar st ∧ fogOfWarMesh st' = fogOfWarMesh st ∧
    ∀ x y, at_ (visibility st') x y =
      if bool_decide ((x, y) ∈ cs)
      then (λ fog, if explored fog then EXPLORED else UNEXPLORED)
             <$> at_ (fogOfWar st) x y
      else at_ (visibility st) x y.
Proof.
  induction cs as [|c cs IH]; intros st Hshape Hin.
  - exists st. split; [done|]. split; [done|]. split; [done|]. split; [done|].
    intros x y. rewrite bool_decide_eq_false_2 by apply not_elem_of_nil. done.
  - cbn [reset_cells]. destruct Hshape as [Hv Hf].
    assert (Hb : out_of_bounds w c.1 c.2 = false) by (apply Hin; left).
    destruct (at_shaped w (fogOfWar st) c.1 c.2 Hf Hb) as [fog Hfog].
    rewrite Hfog. cbn [mbind option_bind].
    destruct (set_at w (if explored fog then EXPLORED else UNEXPLORED)
                c.1 c.2 _ Hv Hb) as (vis & -> & Hv' & Hvat).
    cbn [mbind option_bind].
    destruct (IH (mk vis (fogOfWar st) (fogOfWarMesh st)))
      as (st' & -> & Hshape' & Hfog' & Hmesh' & Hat'); [done| |].
    { intros c' Hc'. apply Hin. by right. }
    exists st'. split; [done|]. split; [done|]. split; [done|]. split; [done|].
    intros x y. rewrite Hat'. simpl. rewrite Hvat.
    rewrite <- surjective_pairing.
    rewrite (bool_decide_ext ((x, y) ∈ c :: cs) ((x, y) = c ∨ (x, y) ∈ cs))
      by apply elem_of_cons.
    destruct (decide ((x, y) = c)) as [Heq|Hne].
    + rewrite (bool_decide_eq_true_2 ((x, y) = c)) by done.
      rewrite (bool_decide_eq_true_2 ((x, y) = c ∨ _)) by (by left).
      subst c. simpl in Hfog. rewrite Hfog. simpl.
      by destruct (bool_decide ((x, y) ∈ cs)).
    + rewrite (bool_decide_eq_false_2 ((x, y) = c)) by done.
      rewrite (bool_decide_ext ((x, y) = c ∨ (x, y) ∈ cs) ((x, y) ∈ cs))
        by tauto.
      done.
Qed.

Lemma radius_positive type : 0 < BUILDING_VISIBILITY_RADIUS type.
Proof. by destruct type. Qed.

Lemma in_sight_dec (bs : list Entity.t) x y :
  (∃ b, b ∈ bs ∧ in_sight b x y) ∨ ¬ (∃ b, b ∈ bs ∧ in_sight b x y).
Proof.
  induction bs as [|b bs [IH|IH]].
  - right. intros (b & Hb & _). by apply elem_of_nil in Hb.
  - left. destruct IH as (b' & Hb' & Hs). exists b'. split; [by right|done].
  - destruct (Z_le_dec
      ((x - (Entity.position b).1) * (x - (Entity.position b).1)
       + (y - (Entity.position b).2) * (y - (Entity.position b).2))
      (BUILDING_VISIBILITY_RADIUS (Entity.type b)
       * BUILDING_VISIBILITY_RADIUS (Entity.type b))) as [Hle|Hgt].
    + left. exists b. split; [left|done].
    + right. intros (b' & [->|Hb']%elem_of_cons & Hs); [done|].
      apply IH. by exists b'.
Qed.

Lemma reveal_buildings_at w bs : ∀ st,
  shaped w st →
  ∃ st', reveal_buildings w bs st = Some st' ∧ shaped w st' ∧
    fogOfWarMesh st' = fogOfWarMesh st ∧
    ∀ x y, out_of_bounds w x y = false →
      ((∃ b, b ∈ bs ∧ in_sight b x y) →
         at_ (visibility st') x y = Some VISIBLE ∧
         at_ (fogOfWar st') x y = Some {| visible := true; explored := true |}) ∧
      (¬ (∃ b, b ∈ bs ∧ in_sight b x y) →
         at_ (visibility st') x y = at_ (visibility st) x y ∧
         at_ (fogOfWar st') x y = at_ (fogOfWar st) x y).
Proof.
  induction bs as [|b bs IH]; intros st Hshape.
  - exists st. split; [done|]. split; [done|]. split; [done|].
    intros x y _. split; [|done]. intros (b & Hb & _). by apply elem_of_nil in Hb.
  - cbn [reveal_buildings].
    pose proof (radius_positive (Entity.type b)) as Hpos.
    replace (BUILDING_VISIBILITY_RADIUS (Entity.type b) =? 0) with false by lia.
    destruct (revealArea_at w (Entity.position b).1 (Entity.position b).2
                (BUILDING_VISIBILITY_RADIUS (Entity.type b)) st)
      as (st1 & -> & Hshape1 & Hmesh1 & Hat1); [lia|done|].
    cbn [mbind option_bind].
    destruct (IH st1 Hshape1) as (st' & -> & Hshape' & Hmesh' & Hat').
    exists st'. split; [done|]. split; [done|]. split; [congruence|].
    intros x y Hb. destruct (Hat' x y Hb) as [Hyes Hno].
    destruct (Hat1 x y) as [Hv1 Hf1]. rewrite Hb in Hv1, Hf1. simpl in Hv1, Hf1.
    assert (Hsight : near (Entity.position b).1 (Entity.position b).2
                       (BUILDING_VISIBILITY_RADIUS (Entity.type b)) x y = true
                     ↔ in_sight b x y).
    { unfold near, in_sight. by rewrite Z.leb_le. }
    destruct (in_sight_dec bs x y) as [Hbs|Hbs].
    + split; [intros _; by apply Hyes|].
      intros Hnone. destruct Hnone. destruct Hbs as (b' & Hb' & Hs).
      exists b'. split; [by right|done].
    + destruct (Hno Hbs) as [-> ->]. rewrite Hv1, Hf1. split.
      * intros (b' & [->|Hb']%elem_of_cons & Hs).
        -- apply Hsight in Hs. by rewrite Hs.
        -- destruct Hbs. by exists b'.
      * intros Hnone.
        destruct (near _ _ _ x y) eqn:Hnear; [|done].
        destruct Hnone. exists b. split; [left|by apply Hsight].
Qed.

Lemma initFogOfWar_shaped w vis :
  0 ≤ height (World.size w) →
  grid_shaped w vis →
  shaped w (_initFogOfWar w (mk vis [] false)) ∧
  fogOfWarMesh (_initFogOfWar w (mk vis [] false)) = true ∧
  ∀ x y, out_of_bounds w x y = false →
    at_ (fogOfWar (_initFogOfWar w (mk vis [] false))) x y
      = Some {| visible := false; explored := false |}.
Proof.
  intros Hh Hvis. unfold _initFogOfWar. simpl. rewrite drop_nil, app_nil_r.
  split; [split; [done|split]|split; [done|]]; simpl.
  - by rewrite length_replicate.
  - intros row [-> _]%elem_of_replicate. by rewrite length_replicate.
  - intros x y Hb%out_of_bounds_false. unfold at_.
    replace ((x <? 0) || (y <? 0)) with false by lia.
    rewrite lookup_replicate_2 by lia. simpl.
    rewrite lookup_replicate_2 by lia. done.
Qed.

(** X20: [_revealArea] with a radius that is not negative, on arrays of
    the shape of the world, makes every tile in bounds within the circle
    visible and explored and leaves every tile in bounds outside the circle
    as it was. *)
Theorem revealArea_circle w centerX centerY radius this :
  0 ≤ radius → shaped w this →
  ∃ this', _revealArea w centerX centerY radius this = Some this' ∧
    shaped w this' ∧
    ∀ x y, out_of_bounds w x y = false →
      ((x - centerX) * (x - centerX) + (y - centerY) * (y - centerY)
         ≤ radius * radius →
       at_ (visibility this') x y = Some VISIBLE ∧
       at_ (fogOfWar this') x y = Some {| visible := true; explored := true |}) ∧
      (radius * radius
         < (x - centerX) * (x - centerX) + (y - centerY) * (y - centerY) →
       at_ (visibility this') x y = at_ (visibility this) x y ∧
       at_ (fogOfWar this') x y = at_ (fogOfWar this) x y).
Proof.
  intros Hr Hshape.
  destruct (revealArea_at w centerX centerY radius this Hr Hshape)
    as (this' & -> & Hshape' & _ & Hat).
  exists this'. split; [done|]. split; [done|].
  intros x y Hb. destruct (Hat x y) as [-> ->]. rewrite Hb. unfold near. simpl.
  split; intros H.
  - by replace (_ <=? _) with true by lia.
  - by replace (_ <=? _) with false by lia.
Qed.

Lemma revealArea_circle_witness :
  ∃ this',
    _revealArea pond 0 0 1
      (_initFogOfWar pond (mk (replicate 4 (replicate 4 UNEXPLORED)) [] false))
      = Some this' ∧
    at_ (visibility this') 1 0 = Some VISIBLE ∧
    at_ (visibility this') 1 1 = Some UNEXPLORED.
Proof.
  destruct (revealArea_circle pond 0 0 1
    (_initFogOfWar pond (mk (replicate 4 (replicate 4 UNEXPLORED)) [] false)))
    as (this' & Hreveal & _ & Hat).
  - lia.
  - apply initFogOfWar_shaped; [simpl; lia|].
    split; [reflexivity|]. intros row [-> _]%elem_of_replicate. reflexivity.
  - exists this'. split; [exact Hreveal|]. split.
    + destruct (Hat 1 0 eq_refl) as [[Hin _] _]; [lia|exact Hin].
    + destruct (Hat 1 1 eq_refl) as [_ [Hout _]]; [lia|].
      rewrite Hout. reflexivity.
Defined.

(** X21: [_updateFogOfWar], once the fog mesh exists, makes a tile in
    bounds visible and explored when it lies within the visibility radius
    of some building of the world; every other tile in bounds shows as
    explored or unexplored by its [explored] flag, which does not change. *)
Theorem updateFogOfWar_visibility w this bs :
  shaped w this → fogOfWarMesh this = true →
  mapM (λ ref, World.objects w !! ref) (World.buildings w) = Some bs →
  ∃ this', _updateFogOfWar w this = Some this' ∧ shaped w this' ∧
    ∀ x y fog, out_of_bounds w x y = false →
      at_ (fogOfWar this) x y = Some fog →
      ((∃ b, b ∈ bs ∧ in_sight b x y) →
         at_ (visibility this') x y = Some VISIBLE ∧
         at_ (fogOfWar this') x y = Some {| visible := true; explored := true |}) ∧
      (¬ (∃ b, b ∈ bs ∧ in_sight b x y) →
         at_ (visibility this') x y
           = Some (if explored fog then EXPLORED else UNEXPLORED) ∧
         at_ (fogOfWar this') x y = Some fog).
Proof.
  intros Hshape Hmesh Hbs. unfold _updateFogOfWar. rewrite Hmesh. simpl.
  destruct (reset_cells_at w (footprint_cells (0, 0) (World.size w)) this Hshape)
    as (st1 & -> & Hshape1 & Hfog1 & _ & Hat1).
  { intros c Hc%SimProofs.elem_of_footprint_cells. simpl in Hc.
    apply out_of_bounds_false. lia. }
  cbn [mbind option_bind]. rewrite Hbs. cbn [mbind option_bind].
  destruct (reveal_buildings_at w bs st1 Hshape1)
    as (this' & -> & Hshape' & _ & Hat').
  exists this'. split; [done|]. split; [done|].
  intros x y fog Hb Hfog. destruct (Hat' x y Hb) as [Hyes Hno].
  split; [done|]. intros Hnone. destruct (Hno Hnone) as [-> ->].
  rewrite Hat1, Hfog1, Hfog.
  rewrite bool_decide_eq_true_2; [done|].
  apply SimProofs.elem_of_footprint_cells. simpl.
  apply out_of_bounds_false in Hb. lia.
Qed.

Lemma updateFogOfWar_visibility_witness :
  ∃ w this', Examples.site_placed = Some w ∧
    _updateFogOfWar w
      (_initFogOfWar w (mk (replicate 4 (replicate 6 UNEXPLORED)) [] false))
      = Some this' ∧
    at_ (visibility this') 5 3 = Some VISIBLE ∧
    at_ (fogOfWar this') 5 3 = Some {| visible := true; explored := true |}.
Proof.
  destruct Examples.site_placed as [w|] eqn:Hw;
    [|vm_compute in Hw; discriminate Hw].
  vm_compute in Hw. injection Hw as <-.
  match goal with |- ∃ w this', Some ?w0 = Some w ∧ _ => exists w0 end.
  match goal with
  | |- ∃ this', _ ∧ _updateFogOfWar ?w ?this = _ ∧ _ =>
      edestruct (updateFogOfWar_visibility w this)
        as (this' & Hupdate & _ & Hat)
  end.
  - apply initFogOfWar_shaped; [simpl; lia|].
    split; [reflexivity|]. intros row [-> _]%elem_of_replicate. reflexivity.
  - reflexivity.
  - vm_compute. reflexivity.
  - exists this'. split; [reflexivity|]. split; [exact Hupdate|].
    edestruct (Hat 5 3) as [Hseen _];
      [vm_compute; reflexivity|vm_compute; reflexivity|].
    apply Hseen. eexists. split; [apply list_elem_of_here|].
    unfold in_sight. simpl. lia.
Defined.

End FogFacts.

Module MapGenFacts.
Import Grid MapGen FogFacts.

Lemma tally_bump terrain counts t :
  tally (bump terrain counts) t =
  tally counts t + (if decide (t = terrain) then 1 else 0).
Proof.
  induction counts as [|e counts IH]; simpl.
  - unfold tally. simpl.
    destruct (decide (terrain = t)) as [->|?];
      [rewrite decide_True by done|rewrite decide_False by congruence];
      simpl; lia.
  - destruct (decide (e.1 = terrain)) as [He|He].
    + unfold tally. simpl.
      destruct (decide (e.1 = t)) as [Ht|Ht], (decide (t = terrain));
        simpl; try congruence; try lia;
        destruct (list_find _ counts) as [[??]|]; simpl; lia.
    + unfold tally in *. simpl.
      destruct (decide (e.1 = t)) as [Ht|Ht], (decide (t = terrain));
        simpl; try congruence; try lia;
        destruct (list_find _ (bump terrain counts)) as [[??]|],
          (list_find _ counts) as [[??]|]; simpl in *; lia.
Qed.

Lemma bump_keys terrain counts :
  (bump terrain counts).*1 =
  if decide (terrain ∈ counts.*1) then counts.*1 else counts.*1 ++ [terrain].
Proof.
  induction counts as [|e counts IH].
  - destruct (decide (terrain ∈ ([] : list (TerrainType * Z)).*1)) as [H|H];
      [by apply elem_of_nil in H|done].
  - cbn [bump]. destruct (decide (e.1 = terrain)) as [He|He].
    + destruct (decide (terrain ∈ (e :: counts).*1)) as [H|H]; [done|].
      destruct H. rewrite fmap_cons, He. left.
    + rewrite !fmap_cons, IH.
      destruct (decide (terrain ∈ counts.*1)) as [Hin|Hin],
        (decide (terrain ∈ e.1 :: counts.*1)) as [Hin'|Hin']; try done.
      * destruct Hin'. by right.
      * apply elem_of_cons in Hin' as [?|?]; [congruence|done].
Qed.

Lemma count_terrains_tally neighbors : ∀ t,
  tally (count_terrains neighbors) t = occurrences t neighbors ∧
  (t ∈ (count_terrains neighbors).*1 ↔ t ∈ neighbors).
Proof.
  unfold count_terrains.
  assert (H : ∀ acc t,
    tally (foldl (λ acc terrain, bump terrain acc) acc neighbors) t
      = tally acc t + occurrences t neighbors ∧
    (t ∈ (foldl (λ acc terrain, bump terrain acc) acc neighbors).*1
       ↔ t ∈ acc.*1 ∨ t ∈ neighbors)).
  { induction neighbors as [|n neighbors IH]; intros acc t; simpl.
    - unfold occurrences. simpl. split; [lia|]. rewrite elem_of_nil. tauto.
    - destruct (IH (bump n acc) t) as [-> ->]. rewrite tally_bump.
      unfold occurrences. rewrite filter_cons. split.
      + destruct (decide (t = n)) as [->|Hne].
        * rewrite decide_True by done. simpl. lia.
        * rewrite decide_False by congruence. lia.
      + rewrite bump_keys, elem_of_cons.
        destruct (decide (n ∈ acc.*1)) as [Hin|Hin].
        * split; [tauto|]. intros [?|[->|?]]; tauto.
        * rewrite elem_of_app, list_elem_of_singleton. tauto. }
  intros t. destruct (H [] t) as [H1 H2]. split.
  - rewrite H1. unfold tally. simpl. lia.
  - rewrite H2. simpl. rewrite elem_of_nil. tauto.
Qed.

Lemma tally_lookup counts e :
  NoDup counts.*1 → e ∈ counts → tally counts e.1 = e.2.
Proof.
  induction counts as [|e' counts IH]; intros Hnd Hin.
  - by apply elem_of_nil in Hin.
  - simpl in Hnd. apply NoDup_cons in Hnd as [Hnot Hnd].
    apply elem_of_cons in Hin as [->|Hin].
    + unfold tally. simpl. by rewrite decide_True.
    + unfold tally in *. simpl. rewrite decide_False.
      * specialize (IH Hnd Hin).
        destruct (list_find _ counts) as [[??]|]; simpl in *; done.
      * intros Heq. apply Hnot. rewrite Heq.
        apply list_elem_of_fmap. by exists e.
Qed.

Lemma count_terrains_NoDup neighbors : NoDup (count_terrains neighbors).*1.
Proof.
  unfold count_terrains.
  assert (H : ∀ acc, NoDup acc.*1 →
    NoDup (foldl (λ acc terrain, bump terrain acc) acc neighbors).*1).
  { induction neighbors as [|n neighbors IH]; intros acc Hnd; [done|].
    simpl. apply IH. rewrite bump_keys. case_decide; [done|].
    apply NoDup_app. split; [done|]. split.
    - intros x Hx ->%list_elem_of_singleton. done.
    - apply NoDup_singleton. }
  apply H. apply NoDup_nil_2.
Qed.

(** The loop for the greatest count. *)
Lemma greatest_count counts : ∀ best,
  let r := foldl (λ best e : TerrainType * Z, if best.2 <? e.2 then e else best)
             best counts in
  (r = best ∨ r ∈ counts) ∧ best.2 ≤ r.2 ∧ ∀ e, e ∈ counts → e.2 ≤ r.2.
Proof.
  induction counts as [|e counts IH]; intros best; simpl.
  - split; [by left|]. split; [lia|]. intros e He. by apply elem_of_nil in He.
  - destruct (IH (if best.2 <? e.2 then e else best)) as (Hin & Hle & Hmax).
    split; [|split].
    + destruct Hin as [->|Hin]; [|right; by right].
      destruct (best.2 <? e.2); [right; left|by left].
    + destruct (best.2 <? e.2) eqn:Hlt; lia.
    + intros e' [->|He']%elem_of_cons; [|by apply Hmax].
      destruct (best.2 <? e.2) eqn:Hlt; lia.
Qed.

(** X22: the terrain the automaton takes for most common is the current
    tile when there are no neighbours; otherwise it is one of the
    neighbours and no terrain occurs more often among them. *)
Theorem most_common_greatest currentTile neighbors :
  (neighbors = [] → most_common currentTile neighbors = currentTile) ∧
  (neighbors ≠ [] →
     most_common currentTile neighbors ∈ neighbors ∧
     ∀ t, occurrences t neighbors
          ≤ occurrences (most_common currentTile neighbors) neighbors).
Proof.
  split; [by intros ->|]. intros Hne. unfold most_common.
  destruct (greatest_count (count_terrains neighbors) (currentTile, 0))
    as (Hin & Hle & Hmax). simpl in *.
  set (r := foldl _ _ _) in *.
  assert (Hpos : ∀ t, t ∈ neighbors → 0 < occurrences t neighbors).
  { intros t Ht. unfold occurrences.
    assert (t ∈ filter (λ t', t' = t) neighbors) as Hf
      by (by apply list_elem_of_filter).
    destruct (filter _ neighbors); [by apply elem_of_nil in Hf|simpl; lia]. }
  assert (Hr : r ∈ count_terrains neighbors).
  { destruct Hin as [Heq|?]; [|done]. exfalso.
    destruct neighbors as [|n neighbors]; [done|].
    assert (n ∈ (count_terrains (n :: neighbors)).*1) as Hn
      by (apply count_terrains_tally; left).
    apply list_elem_of_fmap in Hn as (e & -> & He).
    specialize (Hmax e He). rewrite Heq in Hmax. simpl in Hmax.
    rewrite <- (tally_lookup _ e (count_terrains_NoDup _) He) in Hmax.
    rewrite (proj1 (count_terrains_tally _ _)) in Hmax.
    assert (e.1 ∈ e.1 :: neighbors) as He1 by left.
    pose proof (Hpos e.1 He1). lia. }
  assert (Hr1 : r.1 ∈ neighbors).
  { apply count_terrains_tally. apply list_elem_of_fmap. by exists r. }
  split; [done|]. intros t.
  rewrite <- (proj1 (count_terrains_tally neighbors r.1)).
  rewrite (tally_lookup _ r (count_terrains_NoDup _) Hr).
  destruct (decide (t ∈ neighbors)) as [Ht|Ht].
  - apply count_terrains_tally, list_elem_of_fmap in Ht as (e & -> & He).
    rewrite <- (proj1 (count_terrains_tally neighbors e.1)).
    rewrite (tally_lookup _ e (count_terrains_NoDup _) He). by apply Hmax.
  - assert (occurrences t neighbors = 0) as ->.
    { unfold occurrences.
      destruct (filter _ neighbors) as [|t' l] eqn:Hf; [done|].
      assert (t' ∈ filter (λ t0, t0 = t) neighbors) as Hin'
        by (rewrite Hf; left).
      apply list_elem_of_filter in Hin' as [-> ?]. done. }
    lia.
Qed.

Lemma at_inside {A} rows cols (grid : list (list A)) x y v :
  rect rows cols grid → 0 ≤ rows → 0 ≤ cols →
  at_ grid x y = Some v → 0 ≤ x < cols ∧ 0 ≤ y < rows.
Proof.
  intros [Hrows Hcols] Hr Hc. unfold at_.
  destruct ((x <? 0) || (y <? 0)) eqn:Hneg; [done|].
  apply orb_false_iff in Hneg as [?%Z.ltb_ge ?%Z.ltb_ge].
  destruct (grid !! Z.to_nat y) as [row|] eqn:Hrow; [|done]. simpl.
  intros Hv. apply lookup_lt_Some in Hv.
  rewrite (Hcols row) in Hv by (by eapply list_elem_of_lookup_2).
  apply lookup_lt_Some in Hrow. lia.
Qed.

Lemma elem_of_neighbor_cells height width x y c :
  c ∈ neighbor_cells height width x y ↔
  c ≠ (x, y) ∧ -1 ≤ c.1 - x ≤ 1 ∧ -1 ≤ c.2 - y ≤ 1 ∧
  0 ≤ c.1 < width ∧ 0 ≤ c.2 < height.
Proof.
  unfold neighbor_cells, around.
  rewrite list_elem_of_filter, list_elem_of_bind.
  assert (Hne : (c.1 ≠ x ∨ c.2 ≠ y) ↔ c ≠ (x, y)).
  { destruct c as [cx cy]. simpl. split.
    - intros [?|?] [= ??]; done.
    - intros H. destruct (decide (cx = x)) as [->|?]; [right|by left].
      intros ->. done. }
  rewrite Hne. split.
  - intros [Hc (ny & Hin & Hny)].
    apply list_elem_of_bind in Hin as (nx & Hin & Hnx).
    apply list_elem_of_singleton in Hin as ->. simpl.
    apply elem_of_seqZ in Hnx, Hny. split; [done|]. lia.
  - intros (Hc & Hx & Hy & Hw & Hh). split; [done|].
    exists c.2. split; [|apply elem_of_seqZ; lia].
    apply list_elem_of_bind. exists c.1. split; [|apply elem_of_seqZ; lia].
    rewrite <- surjective_pairing. by apply list_elem_of_singleton.
Qed.

Lemma length_cells (ys xs : list Z) :
  length (ny ← ys; nx ← xs; [(nx, ny)]) = (length ys * length xs)%nat.
Proof.
  induction ys as [|ny ys IH]; [done|].
  rewrite bind_cons, length_app, IH. simpl. f_equal.
  clear. induction xs as [|nx xs IH]; [done|].
  rewrite bind_cons, length_app, IH. done.
Qed.

Lemma length_neighbor_cells height width x y :
  0 ≤ x < width → 0 ≤ y < height →
  (length (neighbor_cells height width x y) ≤ 8)%nat.
Proof.
  intros Hx Hy. unfold neighbor_cells.
  set (all := _ ≫= _).
  assert (Hall : (length all ≤ 9)%nat).
  { unfold all. rewrite length_cells. unfold around. rewrite !length_seqZ. nia. }
  assert ((length (filter (λ c : Z * Z, c.1 ≠ x ∨ c.2 ≠ y) all) < length all)%nat);
    [|lia].
  apply (length_filter_lt _ _ (x, y)).
  - unfold all, around. apply list_elem_of_bind. exists y.
    split; [|apply elem_of_seqZ; lia].
    apply list_elem_of_bind. exists x. split; [|apply elem_of_seqZ; lia].
    by apply list_elem_of_singleton.
  - simpl. intros [?|?]; done.
Qed.

Lemma elem_of_mapM {A B} (f : A → option B) l k v :
  mapM f l = Some k → v ∈ k ↔ ∃ c, c ∈ l ∧ f c = Some v.
Proof.
  intros H%mapM_Some. induction H as [|c v' l k Hc H IH].
  - split; [by intros ?%elem_of_nil|]. intros (c & ?%elem_of_nil & _). done.
  - rewrite elem_of_cons, IH. split.
    + intros [->|(c' & Hin & Hv)]; [exists c; split; [left|done]|].
      exists c'. split; [by right|done].
    + intros (c' & [->|Hin]%elem_of_cons & Hv).
      * left. congruence.
      * right. by exists c'.
Qed.

Lemma getNeighbors_total {A} rows cols (map : list (list A)) x y :
  rect rows cols map → 0 ≤ x < cols → 0 ≤ y < rows →
  is_Some (getNeighbors map x y).
Proof.
  intros Hrect Hx Hy. pose proof Hrect as [Hrows Hcols].
  unfold getNeighbors.
  destruct (lookup_lt_is_Some_2 map 0) as [row0 Hrow0]; [lia|].
  rewrite Hrow0. simpl.
  replace (Z.of_nat (length map)) with rows by lia.
  replace (Z.of_nat (length row0)) with cols.
  2: { rewrite (Hcols row0) by (by eapply list_elem_of_lookup_2). lia. }
  apply mapM_is_Some_2, Forall_forall.
  intros c Hc%elem_of_neighbor_cells. simpl.
  apply (at_rect rows cols); [done|lia|lia].
Qed.

(** X23: on a map of [rows] by [cols] cells, [getNeighbors] of a cell of
    the map returns at most 8 values, and they are exactly the values of
    the map at the other cells within one step of it in each direction:
    at the border the cells outside the map are left out. *)
Theorem getNeighbors_ring {A} rows cols (map : list (list A)) x y :
  rect rows cols map → 0 ≤ x < cols → 0 ≤ y < rows →
  ∃ neighbors, getNeighbors map x y = Some neighbors ∧
    (length neighbors ≤ 8)%nat ∧
    ∀ v, v ∈ neighbors ↔
      ∃ nx ny, (nx, ny) ≠ (x, y) ∧ -1 ≤ nx - x ≤ 1 ∧ -1 ≤ ny - y ≤ 1 ∧
               at_ map nx ny = Some v.
Proof.
  intros Hrect Hx Hy. pose proof Hrect as [Hrows Hcols].
  unfold getNeighbors.
  destruct (lookup_lt_is_Some_2 map 0) as [row0 Hrow0]; [lia|].
  rewrite Hrow0. simpl.
  assert (Hh : Z.of_nat (length map) = rows) by lia.
  assert (Hw : Z.of_nat (length row0) = cols).
  { rewrite (Hcols row0) by (by eapply list_elem_of_lookup_2). lia. }
  rewrite Hh, Hw.
  destruct (mapM_is_Some_2 (λ c : Z * Z, at_ map c.1 c.2)
              (neighbor_cells rows cols x y)) as [ns Hns].
  { apply Forall_forall. intros c Hc%elem_of_neighbor_cells. simpl.
    apply (at_rect rows cols); [done|lia|lia]. }
  exists ns. split; [done|]. split.
  - rewrite <- (length_mapM _ _ _ Hns). by apply length_neighbor_cells.
  - intros v. rewrite (elem_of_mapM _ _ _ v Hns). split.
    + intros ([nx ny] & Hc%elem_of_neighbor_cells & Hv). simpl in *.
      exists nx, ny. tauto.
    + intros (nx & ny & Hne & Hnx & Hny & Hv). exists (nx, ny).
      split; [|done]. apply elem_of_neighbor_cells. simpl.
      destruct (at_inside rows cols map nx ny v Hrect) as [??]; [lia|lia|done|].
      tauto.
Qed.

Lemma write_cells_at {A} rows cols (value : Z * Z → option (option A)) cs :
  ∀ grid,
  rect rows cols grid →
  (∀ c, c ∈ cs → 0 ≤ c.1 < cols ∧ 0 ≤ c.2 < rows ∧ is_Some (value c)) →
  ∃ grid', write_cells value cs grid = Some grid' ∧ rect rows cols grid' ∧
    ∀ x y, at_ grid' x y =
      if bool_decide ((x, y) ∈ cs)
      then match value (x, y) with
           | Some (Some v) => Some v
           | _ => at_ grid x y
           end
      else at_ grid x y.
Proof.
  induction cs as [|c cs IH]; intros grid Hrect Hcs.
  - exists grid. split; [done|]. split; [done|]. intros x y.
    rewrite bool_decide_eq_false_2 by apply not_elem_of_nil. done.
  - cbn [write_cells].
    destruct (Hcs c) as (Hx & Hy & [v Hv]); [left|]. rewrite Hv.
    cbn [mbind option_bind].
    assert (Hstep : ∃ grid1,
      match v with
      | Some v' => set_ v' c.1 c.2 grid
      | None => Some grid
      end = Some grid1 ∧ rect rows cols grid1 ∧
      ∀ x y, at_ grid1 x y =
        if bool_decide ((x, y) = c)
        then match v with Some v' => Some v' | None => at_ grid x y end
        else at_ grid x y).
    { destruct v as [v'|].
      - destruct (set_rect rows cols v' c.1 c.2 grid Hrect Hx Hy)
          as (grid1 & -> & Hrect1 & Hat1).
        exists grid1. split; [done|]. split; [done|]. intros x y.
        rewrite Hat1. by rewrite <- surjective_pairing.
      - exists grid. split; [done|]. split; [done|]. intros x y.
        by case_bool_decide. }
    destruct Hstep as (grid1 & -> & Hrect1 & Hat1). cbn [mbind option_bind].
    destruct (IH grid1 Hrect1) as (grid' & -> & Hrect' & Hat').
    { intros c' Hc'. apply Hcs. by right. }
    exists grid'. split; [done|]. split; [done|]. intros x y.
    rewrite Hat', Hat1.
    rewrite (bool_decide_ext ((x, y) ∈ c :: cs) ((x, y) = c ∨ (x, y) ∈ cs))
      by apply elem_of_cons.
    destruct (decide ((x, y) = c)) as [Heq|Hne].
    + rewrite (bool_decide_eq_true_2 ((x, y) = c)) by done.
      rewrite (bool_decide_eq_true_2 ((x, y) = c ∨ _)) by (by left).
      rewrite Heq, Hv. by destruct (bool_decide _), v.
    + rewrite (bool_decide_eq_false_2 ((x, y) = c)) by done.
      rewrite (bool_decide_ext ((x, y) = c ∨ (x, y) ∈ cs) ((x, y) ∈ cs))
        by tauto.
      done.
Qed.

Lemma rect_patch : rect 2 3 patch.
Proof.
  split; [reflexivity|]. intros row Hrow.
  repeat (apply elem_of_cons in Hrow as [->|Hrow]; [reflexivity|]).
  by apply elem_of_nil in Hrow.
Qed.

Lemma getNeighbors_ring_witness :
  ∃ neighbors, getNeighbors patch 0 0 = Some neighbors ∧
    (length neighbors ≤ 8)%nat ∧
    ∀ v, v ∈ neighbors ↔
      ∃ nx ny, (nx, ny) ≠ (0, 0) ∧ -1 ≤ nx - 0 ≤ 1 ∧ -1 ≤ ny - 0 ≤ 1 ∧
               at_ patch nx ny = Some v.
Proof. apply (getNeighbors_ring 2 3 patch 0 0 rect_patch); lia. Defined.

(** X24: [applyCellularAutomata] on a map of [rows] by [cols] cells keeps
    the shape and updates all cells at once: where the random test
    succeeds a cell becomes the most common terrain among the neighbours it
    had in the map before the pass, elsewhere it keeps its terrain. *)
Theorem applyCellularAutomata_synchronous coin rows cols map :
  rect rows cols map → 0 < rows → 0 < cols →
  ∃ map', applyCellularAutomata coin map = Some map' ∧ rect rows cols map' ∧
    ∀ x y, 0 ≤ x < cols → 0 ≤ y < rows →
      ∃ currentTile neighbors,
        at_ map x y = Some currentTile ∧
        getNeighbors map x y = Some neighbors ∧
        at_ map' x y =
          Some (if coin x y then most_common currentTile neighbors
                else currentTile).
Proof.
  intros Hrect Hr Hc. pose proof Hrect as [Hrows Hcols].
  unfold applyCellularAutomata.
  destruct (lookup_lt_is_Some_2 map 0) as [row0 Hrow0]; [lia|].
  rewrite Hrow0. simpl.
  assert (Hh : Z.of_nat (length map) = rows) by lia.
  assert (Hw : Z.of_nat (length row0) = cols).
  { rewrite (Hcols row0) by (by eapply list_elem_of_lookup_2). lia. }
  rewrite Hh, Hw.
  set (cells := footprint_cells (0, 0) {| width := cols; height := rows |}).
  assert (Hcells : ∀ c, c ∈ cells ↔ 0 ≤ c.1 < cols ∧ 0 ≤ c.2 < rows).
  { intros c. unfold cells. rewrite SimProofs.elem_of_footprint_cells.
    simpl. lia. }
  assert (Hcell : ∀ x y, 0 ≤ x < cols → 0 ≤ y < rows →
    ∃ cur ns, at_ map x y = Some cur ∧ getNeighbors map x y = Some ns ∧
      automaton_cell coin map (x, y)
        = Some (if coin x y then Some (most_common cur ns) else None)).
  { intros x y Hx Hy.
    destruct (at_rect rows cols map x y Hrect Hx Hy) as [cur Hcur].
    destruct (getNeighbors_total rows cols map x y Hrect Hx Hy) as [ns Hns].
    exists cur, ns. split; [done|]. split; [done|].
    unfold automaton_cell. simpl. by rewrite Hns, Hcur. }
  destruct (write_cells_at rows cols (automaton_cell coin map) cells map Hrect)
    as (newMap & -> & Hrect1 & Hat1).
  { intros c [Hx Hy]%Hcells. split; [done|]. split; [done|].
    destruct (Hcell c.1 c.2 Hx Hy) as (cur & ns & _ & _ & Hv).
    rewrite <- surjective_pairing in Hv. by rewrite Hv. }
  cbn [mbind option_bind].
  destruct (write_cells_at rows cols
              (λ c, v ← at_ newMap c.1 c.2; Some (Some v)) cells map Hrect)
    as (map' & -> & Hrect' & Hat').
  { intros c [Hx Hy]%Hcells. split; [done|]. split; [done|].
    destruct (at_rect rows cols newMap c.1 c.2 Hrect1 Hx Hy) as [v ->].
    by eexists. }
  exists map'. split; [done|]. split; [done|]. intros x y Hx Hy.
  destruct (Hcell x y Hx Hy) as (cur & ns & Hcur & Hns & Hv).
  exists cur, ns. split; [done|]. split; [done|].
  rewrite Hat'. rewrite bool_decide_eq_true_2 by (by apply Hcells).
  simpl. rewrite Hat1. rewrite bool_decide_eq_true_2 by (by apply Hcells).
  rewrite Hv. destruct (coin x y); simpl; [done|]. by rewrite Hcur.
Qed.

Lemma applyCellularAutomata_synchronous_witness :
  ∃ map', applyCellularAutomata (λ _ _, true) patch = Some map' ∧
    rect 2 3 map' ∧
    ∀ x y, 0 ≤ x < 3 → 0 ≤ y < 2 →
      ∃ currentTile neighbors,
        at_ patch x y = Some currentTile ∧
        getNeighbors patch x y = Some neighbors ∧
        at_ map' x y = Some (most_common currentTile neighbors).
Proof.
  apply (applyCellularAutomata_synchronous (λ _ _, true) 2 3 patch rect_patch);
    lia.
Defined.

End MapGenFacts.

Module LoopFacts.
Import ResourceManager LedgerProofs PathFinder PathProofs SimProofs.
Import SettlerFacts TerrainFacts MapGenFacts.

Ltac same_target Htarget :=
  let r := fresh "r" in
  let Hr := fresh "Hr" in
  intros r Hr;
  first [done | by apply Htarget | simpl in Hr; congruence].

Lemma sites_kept_refl w : sites_kept w w.
Proof. unfold sites_kept. tauto. Qed.

Lemma sites_kept_resources res w : sites_kept w (SetWorld.resources res w).
Proof. unfold sites_kept, site_of. simpl. tauto. Qed.

Lemma sites_kept_update_site f ref w : sites_kept w (update_site f ref w).
Proof.
  unfold sites_kept, site_of, update_site. simpl.
  repeat (split; [done|]). split.
  - intros r. destruct (decide (ref = r)) as [<-|Hne].
    + rewrite lookup_alter_eq. intros [e ->]. simpl. eauto.
    + by rewrite lookup_alter_ne.
  - intros r. destruct (decide (ref = r)) as [<-|Hne].
    + rewrite lookup_alter_eq.
      destruct (World.objects w !! ref) as [e|]; simpl; [|done].
      destruct (Entity.site e) as [c|] eqn:Hc; simpl; [eauto|].
      by rewrite Hc.
    + by rewrite lookup_alter_ne.
Qed.

Lemma sites_kept_trans w1 w2 w3 :
  sites_kept w1 w2 → sites_kept w2 w3 → sites_kept w1 w3.
Proof.
  unfold sites_kept.
  intros (? & ? & ? & ? & ? & ? & ? & ? & Ho1 & Hs1)
         (? & ? & ? & ? & ? & ? & ? & ? & Ho2 & Hs2).
  repeat (split; [congruence|]).
  split; intros ref Href; [by apply Ho2, Ho1|by apply Hs2, Hs1].
Qed.

Lemma sound_sites_kept w w1 :
  world_sound w → sites_kept w w1 → world_sound w1.
Proof.
  intros ((Hw & Hh & Hr & Hc & Hids) & Hcon & Hbld & Hset & Hmesh & Hmode)
         (Hsz & Hter & Hb & Hcs & Hse & Hm & Hty & Hpm & Ho & Hs).
  unfold world_sound, World.well_formed.
  rewrite Hsz, Hter, Hb, Hcs, Hse, Hm, Hty, Hpm.
  split; [|split; [|split; [|split; [|split]]]]; try done.
  - repeat (split; [done|]). intros row tile id Hrow Htile Hid.
    apply Ho. by eapply Hids.
  - intros ref Href. by apply Hs, Hcon.
  - intros ref Href. by apply Ho, Hbld.
  - intros this ref Hthis Href. apply Hs. by eapply Hset.
Qed.

Lemma sites_total w :
  world_sound w → ∃ all, sites w = Some all ∧
    ∀ s, s ∈ all → s.1.1 ∈ World.constructions w ∧
                   site_of w s.1.1 = Some (s.1.2, s.2).
Proof.
  intros (_ & Hcon & _). unfold sites.
  destruct (mapM_is_Some_2
    (λ ref, '(e, c) ← site_of w ref; Some (ref, e, c)) (World.constructions w))
    as [all Hall].
  { apply Forall_forall. intros ref Href. simpl.
    destruct (Hcon ref Href) as [[e c] ->]. by eexists. }
  exists all. split; [done|]. intros s Hs.
  apply (elem_of_mapM _ _ _ s Hall) in Hs as (ref & Href & Hs).
  destruct (site_of w ref) as [[e c]|] eqn:Hsite; [|done].
  simpl in Hs. injection Hs as <-. simpl. done.
Qed.

Lemma closest_from_total position (l : list (nat * Entity.t * Site)) :
  (0 < length l)%nat → ∃ r, closest_from position None l = Some r ∧ r ∈ l.
Proof.
  intros Hlen.
  destruct (closest_from_least position l None) as (r & Hr & [?|Hin] & _);
    [right; destruct l; [simpl in Hlen; lia|done]|done|by exists r].
Qed.

Lemma porter_find_sound w this :
  world_sound w → target_valid w this →
  ∃ this1, Porter._findConstructionInNeedOfResources w this = Some this1 ∧
           target_valid w this1.
Proof.
  intros Hsound Htarget.
  destruct (sites_total w Hsound) as (all & Hall & Hsites).
  unfold Porter._findConstructionInNeedOfResources. rewrite Hall. simpl.
  case_bool_decide as Hlen; [|by exists this].
  set (needy := filter _ all) in *.
  assert (Hchoice : ∃ closest,
    match list_find (λ c : nat * Entity.t * Site,
                       Some c.1.1 = Settler.targetConstruction this) needy with
    | Some (_, existing) => Some existing
    | None => closest_from (Settler.position this) None needy
    end = Some closest ∧ closest ∈ all).
  { destruct (list_find _ needy) as [[i found]|] eqn:Hfind.
    - apply list_find_Some in Hfind as (Hi & _).
      exists found. split; [done|].
      apply list_elem_of_lookup_2 in Hi.
      by apply list_elem_of_filter in Hi as [_ ?].
    - destruct (closest_from_total (Settler.position this) needy Hlen)
        as (r & -> & Hin).
      exists r. split; [done|]. by apply list_elem_of_filter in Hin as [_ ?]. }
  destruct Hchoice as (closest & -> & Hin). simpl.
  eexists. split; [done|].
  destruct (Hsites closest Hin) as [_ Hsite].
  intros ref Href. destruct (Porter.first_missing closest.2); simpl in Href;
    injection Href as <-; by rewrite Hsite.
Qed.

Lemma buildings_total w :
  world_sound w →
  is_Some (mapM (λ ref, World.objects w !! ref) (World.buildings w)).
Proof.
  intros (_ & _ & Hbld & _). apply mapM_is_Some_2, Forall_forall.
  intros ref Href. by apply Hbld.
Qed.

Lemma fetch_sound w this :
  world_sound w → target_valid w this →
  ∃ w1 this1, Porter._fetchResourceFromWarehouse w this = Some (w1, this1) ∧
    sites_kept w w1 ∧ target_valid w1 this1.
Proof.
  intros Hsound Htarget. unfold Porter._fetchResourceFromWarehouse.
  destruct (buildings_total w Hsound) as [bs ->]. simpl.
  destruct (list_find _ bs) as [[i warehouse]|].
  - assert (Ht : ∃ target,
      match Settler.targetConstruction this with
      | Some ref => Some <$> site_of w ref
      | None => Some None
      end = Some target).
    { destruct (Settler.targetConstruction this) as [ref|] eqn:Href;
        [|by eexists].
      destruct (Htarget ref Href) as [s ->]. by eexists. }
    destruct Ht as (target & ->). simpl.
    destruct (match target with Some t => _ | None => false end).
    + eexists _, _. split; [done|]. split; [apply sites_kept_refl|done].
    + destruct (within _ _ _ _).
      * destruct (0 <? _).
        -- eexists _, _. split; [done|].
           split; [apply sites_kept_resources|]. done.
        -- eexists _, _. split; [done|]. split; [apply sites_kept_refl|done].
      * eexists _, _. split; [done|]. split; [apply sites_kept_refl|done].
  - eexists _, _. split; [done|]. split; [apply sites_kept_refl|done].
Qed.

Lemma walk_to_sound w goal this :
  world_sound w →
  ∃ this1, SettlerOps.walk_to w goal this = Some this1 ∧
    Settler.targetConstruction this1 = Settler.targetConstruction this.
Proof.
  intros (Hwf & _). unfold SettlerOps.walk_to.
  destruct (findPath_correct w (Settler.position this).1
              (Settler.position this).2 goal.1 goal.2 Hwf) as (p & -> & _).
  simpl. repeat case_bool_decide; by eexists.
Qed.

Lemma target_valid_kept w w1 this :
  sites_kept w w1 → target_valid w this → target_valid w1 this.
Proof.
  intros (_ & _ & _ & _ & _ & _ & _ & _ & _ & Hs) Ht ref Href.
  apply Hs. by apply Ht.
Qed.

Lemma porter_deliver_sound w this :
  world_sound w → target_valid w this →
  ∃ w1 this1, Porter._deliverResourceToConstruction w this = Some (w1, this1) ∧
    sites_kept w w1 ∧ target_valid w1 this1.
Proof.
  intros Hsound Htarget. unfold Porter._deliverResourceToConstruction.
  destruct (Settler.targetConstruction this) as [ref|] eqn:Href.
  - case_bool_decide.
    + eexists _, _. split; [done|]. split; [apply sites_kept_refl|].
      same_target Htarget.
    + destruct (Htarget ref Href) as [[e c] Hsite]. rewrite Hsite. simpl.
      destruct (within _ _ _ _).
      * destruct (negb _); eexists _, _; (split; [done|]);
          (split; [apply sites_kept_update_site|]).
        -- intros r Hr. apply (sites_kept_update_site _ ref w).
           by apply Htarget.
        -- same_target Htarget.
      * destruct (walk_to_sound w (Entity.interactionPoint e) this Hsound)
          as (this1 & -> & Hsame).
        simpl. eexists _, _. split; [done|]. split; [apply sites_kept_refl|].
        intros r Hr. rewrite Hsame in Hr. by apply Htarget.
  - eexists _, _. split; [done|]. split; [apply sites_kept_refl|].
    same_target Htarget.
Qed.

Lemma porter_handle_sound w this :
  world_sound w → target_valid w this →
  ∃ w1 this1, Porter.handle w this = Some (w1, this1) ∧
    sites_kept w w1 ∧ target_valid w1 this1.
Proof.
  intros Hsound Htarget. unfold Porter.handle.
  repeat case_bool_decide.
  - destruct (porter_find_sound w this Hsound Htarget) as (this1 & -> & Ht).
    simpl. eexists _, _. split; [done|]. split; [apply sites_kept_refl|done].
  - by apply fetch_sound.
  - by apply porter_deliver_sound.
  - eexists _, _. split; [done|]. split; [apply sites_kept_refl|].
    same_target Htarget.
Qed.

Lemma porter_update_sound arrived w this :
  world_sound w → target_valid w this →
  ∃ w1 this1, Porter.update arrived w this = Some (w1, this1) ∧
    sites_kept w w1 ∧ target_valid w1 this1.
Proof.
  intros Hsound Htarget. unfold Porter.update.
  destruct (SettlerOps.moving this); [|by apply porter_handle_sound].
  eexists _, _. split; [done|]. split; [apply sites_kept_refl|].
  intros r Hr. apply Htarget. by destruct arrived.
Qed.

Lemma porter_retry_sound w this :
  world_sound w → target_valid w this →
  ∃ w1 this1, Porter.retry w this = Some (w1, this1) ∧
    sites_kept w w1 ∧ target_valid w1 this1.
Proof.
  intros Hsound Htarget. unfold Porter.retry.
  repeat case_bool_decide.
  - destruct (porter_find_sound w this Hsound Htarget) as (this1 & -> & Ht).
    simpl. eexists _, _. split; [done|]. split; [apply sites_kept_refl|done].
  - by apply fetch_sound.
  - eexists _, _. split; [done|]. split; [apply sites_kept_refl|done].
Qed.

Lemma builder_find_sound w this :
  world_sound w → target_valid w this →
  ∃ this1, Builder._findConstructionToBuild w this = Some this1 ∧
           target_valid w this1.
Proof.
  intros Hsound Htarget.
  destruct (sites_total w Hsound) as (all & Hall & Hsites).
  unfold Builder._findConstructionToBuild. rewrite Hall. simpl.
  case_bool_decide as Hlen; [|by exists this].
  destruct (closest_from_total (Settler.position this) _ Hlen)
    as (r & -> & Hin). simpl.
  apply list_elem_of_filter in Hin as [_ Hin].
  eexists. split; [done|]. destruct (Hsites r Hin) as [_ Hsite].
  intros ref [= <-]. by rewrite Hsite.
Qed.

Lemma builder_move_sound w this :
  world_sound w → target_valid w this →
  ∃ this1, Builder._moveToConstruction w this = Some this1 ∧
           target_valid w this1.
Proof.
  intros Hsound Htarget. unfold Builder._moveToConstruction.
  destruct (Settler.targetConstruction this) as [ref|] eqn:Href.
  - case_bool_decide; [eexists; split; [done|]; same_target Htarget|].
    destruct (Htarget ref Href) as [[e c] Hsite]. rewrite Hsite. simpl.
    destruct (within _ _ _ _).
    + eexists. split; [done|]. same_target Htarget.
    + destruct Hsound as (Hwf & _).
      destruct (findPath_correct w (Settler.position this).1
                  (Settler.position this).2 (Entity.interactionPoint e).1
                  (Entity.interactionPoint e).2 Hwf) as (p & -> & _).
      simpl. repeat case_bool_decide; (eexists; split; [done|]);
        same_target Htarget.
  - eexists. split; [done|]. same_target Htarget.
Qed.

Lemma builder_perform_sound w this :
  world_sound w → target_valid w this →
  ∃ w1 this1, Builder._performBuilding w this = Some (w1, this1) ∧
    sites_kept w w1 ∧ target_valid w1 this1.
Proof.
  intros Hsound Htarget. unfold Builder._performBuilding.
  destruct (Settler.targetConstruction this) as [ref|] eqn:Href.
  - case_bool_decide.
    + eexists _, _. split; [done|]. split; [apply sites_kept_refl|].
      same_target Htarget.
    + simpl. destruct (_ <=? _).
      * destruct (Htarget ref Href) as [s ->]. simpl.
        eexists _, _. split; [done|].
        split; [apply sites_kept_update_site|]. same_target Htarget.
      * eexists _, _. split; [done|]. split; [apply sites_kept_refl|].
        same_target Htarget.
  - eexists _, _. split; [done|]. split; [apply sites_kept_refl|].
    same_target Htarget.
Qed.

Lemma builder_update_sound arrived w this :
  world_sound w → target_valid w this →
  ∃ w1 this1, Builder.update arrived w this = Some (w1, this1) ∧
    sites_kept w w1 ∧ target_valid w1 this1.
Proof.
  intros Hsound Htarget. unfold Builder.update.
  destruct (SettlerOps.moving this).
  { eexists _, _. split; [done|]. split; [apply sites_kept_refl|].
    intros r Hr. apply Htarget. by destruct arrived. }
  unfold Builder.handle. repeat case_bool_decide.
  - destruct (builder_find_sound w this Hsound Htarget) as (this1 & -> & Ht).
    simpl. eexists _, _. split; [done|]. split; [apply sites_kept_refl|done].
  - destruct (builder_move_sound w this Hsound Htarget) as (this1 & -> & Ht).
    simpl. eexists _, _. split; [done|]. split; [apply sites_kept_refl|done].
  - by apply builder_perform_sound.
  - eexists _, _. split; [done|]. split; [apply sites_kept_refl|done].
Qed.

(** A handler's result stored back at index [i]. *)
Lemma store_settler_sound w w1 this1 (i : nat) :
  world_sound w → sites_kept w w1 → target_valid w1 this1 →
  (i < length (World.settlers w))%nat →
  let w' := SetWorld.settlers (<[i := this1]> (World.settlers w1)) w1 in
  world_sound w' ∧ world_extends w w'.
Proof.
  intros Hsound Hkept Htarget Hi w'.
  pose proof (sound_sites_kept w w1 Hsound Hkept)
    as (Hwf & Hcon & Hbld & Hset & Hmesh & Hmode).
  destruct Hkept as (_ & _ & _ & _ & Hse & _ & _ & _ & _ & Hs).
  split; [|split].
  - unfold world_sound, site_of, w' in *. simpl.
    split; [done|]. split; [done|]. split; [done|]. split; [|done].
    intros this ref [j Hj]%list_elem_of_lookup Href.
    destruct (decide (i = j)) as [<-|Hne].
    + rewrite list_lookup_insert_eq in Hj by (rewrite Hse; lia).
      injection Hj as <-. by apply Htarget.
    + rewrite list_lookup_insert_ne in Hj by done.
      eapply Hset; [|done]. by eapply list_elem_of_lookup_2.
  - unfold w'. simpl. by rewrite length_insert, Hse.
  - intros ref Href. by apply Hs.
Qed.

Lemma updateSettler_sound arrived w (i : nat) :
  world_sound w → (i < length (World.settlers w))%nat →
  ∃ w', Game.updateSettler arrived w i = Some w' ∧
        world_sound w' ∧ world_extends w w'.
Proof.
  intros Hsound Hi. unfold Game.updateSettler.
  destruct (lookup_lt_is_Some_2 _ _ Hi) as [this Hthis]. rewrite Hthis. simpl.
  assert (Htarget : target_valid w this).
  { destruct Hsound as (_ & _ & _ & Hset & _). intros ref Href.
    eapply Hset; [|done]. by eapply list_elem_of_lookup_2. }
  assert (Hstep : ∃ w1 this1,
    match Settler.type this with
    | PORTER => Porter.update arrived w this
    | BUILDER => Builder.update arrived w this
    end = Some (w1, this1) ∧ sites_kept w w1 ∧ target_valid w1 this1).
  { destruct (Settler.type this);
      [by apply porter_update_sound|by apply builder_update_sound]. }
  destruct Hstep as (w1 & this1 & -> & Hkept & Ht1). simpl.
  eexists. split; [done|]. by apply store_settler_sound.
Qed.

Lemma fireTimer_sound t w (i : nat) :
  world_sound w → (i < length (World.settlers w))%nat →
  ∃ w', Game.fireTimer t w i = Some w' ∧ world_sound w' ∧ world_extends w w'.
Proof.
  intros Hsound Hi. unfold Game.fireTimer.
  destruct (lookup_lt_is_Some_2 _ _ Hi) as [this Hthis]. rewrite Hthis. simpl.
  assert (Htarget : target_valid w this).
  { destruct Hsound as (_ & _ & _ & Hset & _). intros ref Href.
    eapply Hset; [|done]. by eapply list_elem_of_lookup_2. }
  assert (Hstep : ∃ w1 this1,
    match t with
    | Game.Retry =>
        match Settler.type this with
        | PORTER => Porter.retry w this
        | BUILDER => this1 ← Builder.retry w this; Some (w, this1)
        end
    | Game.PathTimer => Some (w, SettlerOps.path_timer this)
    | Game.LegTimer => Some (w, SettlerOps.leg_timer this)
    end = Some (w1, this1) ∧ sites_kept w w1 ∧ target_valid w1 this1).
  { destruct t.
    - destruct (Settler.type this); [by apply porter_retry_sound|].
      unfold Builder.retry. case_bool_decide.
      + destruct (builder_find_sound w this Hsound Htarget) as (this1 & -> & ?).
        simpl. eexists _, _. split; [done|]. split; [apply sites_kept_refl|done].
      + simpl. eexists _, _. split; [done|].
        split; [apply sites_kept_refl|done].
    - eexists _, _. split; [done|]. split; [apply sites_kept_refl|].
      unfold SettlerOps.path_timer. destruct (Settler.path this); [done|].
      same_target Htarget.
    - eexists _, _. split; [done|]. split; [apply sites_kept_refl|].
      unfold SettlerOps.leg_timer, SettlerOps.path_timer.
      destruct (Settler.isMoving this); [done|].
      destruct (Settler.path this); [done|]. same_target Htarget. }
  destruct Hstep as (w1 & this1 & -> & Hkept & Ht1). simpl.
  eexists. split; [done|]. by apply store_settler_sound.
Qed.

(** A new object under a fresh reference keeps every reference. *)
Lemma site_of_insert_fresh w w' new e ref :
  World.objects w' = <[new := e]> (World.objects w) →
  World.objects w !! new = None →
  is_Some (site_of w ref) → site_of w' ref = site_of w ref.
Proof.
  intros Hobj Hfresh Hsome. unfold site_of in *. rewrite Hobj.
  destruct (decide (new = ref)) as [<-|Hne].
  - rewrite Hfresh in Hsome. by destruct Hsome.
  - by rewrite lookup_insert_ne.
Qed.

Lemma addBuilding_sound w e :
  world_sound w →
  ∃ w', Coordinator.addBuilding w e = Some w' ∧
        world_sound w' ∧ world_extends w w'.
Proof.
  intros (Hwf & Hcon & Hbld & Hset & Hmesh & Hmode).
  destruct (addBuilding_tiles w e Hwf)
    as (w' & Hadd & Hwf' & _ & Hobj & Hfresh & _).
  destruct (addBuilding_fields w e Hwf)
    as (w'' & Hadd' & _ & _ & Hb & Hc & _ & Hs).
  assert (w'' = w') as -> by congruence.
  assert (Hpl : World.placementPreviewMesh w' = World.placementPreviewMesh w ∧
                World.buildingPlacementMode w' = World.buildingPlacementMode w ∧
                World.buildingTypeToPlace w' = World.buildingTypeToPlace w).
  { unfold Coordinator.addBuilding in Hadd.
    destruct (Coordinator.mark_tiles _ _ _ _); [|done].
    simpl in Hadd. by injection Hadd as <-. }
  destruct Hpl as (Hp1 & Hp2 & Hp3).
  exists w'. split; [done|].
  assert (Hkeep : ∀ ref, is_Some (site_of w ref) → is_Some (site_of w' ref)).
  { intros ref Href.
    by rewrite (site_of_insert_fresh w w' _ e ref Hobj Hfresh Href). }
  split; [|split; [by rewrite Hs|done]].
  unfold world_sound. rewrite Hc, Hb, Hs, Hp1, Hp2, Hp3.
  split; [done|]. split; [by eauto|]. split; [|split; [by eauto|done]].
  intros ref [Href|Href%list_elem_of_singleton]%elem_of_app; rewrite Hobj.
  - destruct (decide (Coordinator.new_ref w = ref)) as [<-|Hne].
    + rewrite lookup_insert_eq. eauto.
    + rewrite lookup_insert_ne by done. by apply Hbld.
  - rewrite Href, lookup_insert_eq. eauto.
Qed.

Lemma addConstruction_sound w x y type :
  world_sound w →
  ∃ w', Coordinator.addConstruction w (Construction.new x y type) = Some w' ∧
        world_sound w' ∧ world_extends w w' ∧
        World.placementPreviewMesh w' = World.placementPreviewMesh w ∧
        World.buildingPlacementMode w' = World.buildingPlacementMode w ∧
        World.buildingTypeToPlace w' = World.buildingTypeToPlace w.
Proof.
  intros (Hwf & Hcon & Hbld & Hset & Hmesh & Hmode).
  set (e := Construction.new x y type).
  destruct (addConstruction_tiles w e Hwf)
    as (w' & Hadd & Hwf' & _ & Hobj & Hfresh & _).
  destruct (addConstruction_fields w e Hwf)
    as (w'' & Hadd' & _ & _ & Hc & Hb & _ & Hs).
  assert (w'' = w') as -> by congruence.
  assert (Hpl : World.placementPreviewMesh w' = World.placementPreviewMesh w ∧
                World.buildingPlacementMode w' = World.buildingPlacementMode w ∧
                World.buildingTypeToPlace w' = World.buildingTypeToPlace w).
  { unfold Coordinator.addConstruction in Hadd.
    destruct (Coordinator.mark_tiles _ _ _ _); [|done].
    simpl in Hadd. by injection Hadd as <-. }
  destruct Hpl as (Hp1 & Hp2 & Hp3).
  exists w'. split; [done|].
  assert (Hkeep : ∀ ref, is_Some (site_of w ref) → is_Some (site_of w' ref)).
  { intros ref Href.
    by rewrite (site_of_insert_fresh w w' _ e ref Hobj Hfresh Href). }
  split; [|split; [split; [by rewrite Hs|done]|done]].
  unfold world_sound. rewrite Hc, Hb, Hs, Hp1, Hp2, Hp3.
  split; [done|]. split; [|split; [|split; [by eauto|done]]].
  - intros ref [Href|Href%list_elem_of_singleton]%elem_of_app; [by eauto|].
    unfold site_of. rewrite Href, Hobj, lookup_insert_eq. simpl. eauto.
  - intros ref Href. rewrite Hobj.
    destruct (decide (Coordinator.new_ref w = ref)) as [<-|Hne].
    + rewrite lookup_insert_eq. eauto.
    + rewrite lookup_insert_ne by done. by apply Hbld.
Qed.

Lemma sound_constructions w cs :
  world_sound w → (∀ ref, ref ∈ cs → ref ∈ World.constructions w) →
  world_sound (SetWorld.constructions cs w).
Proof.
  intros (Hwf & Hcon & Hbld & Hset & Hmesh & Hmode) Hsub.
  unfold world_sound, site_of in *. simpl.
  split; [done|]. split; [by eauto|]. done.
Qed.

Lemma updateConstruction_sound w ref :
  world_sound w → is_Some (site_of w ref) →
  ∃ w', Coordinator.updateConstruction w ref = Some w' ∧
        world_sound w' ∧ world_extends w w'.
Proof.
  intros Hsound [[e c] Hsite]. unfold Coordinator.updateConstruction.
  rewrite Hsite. simpl. destruct (100 <=? progress c).
  - unfold Coordinator.completeConstruction. rewrite Hsite. simpl.
    set (w1 := SetWorld.constructions _ w).
    assert (Hsound1 : world_sound w1).
    { apply sound_constructions; [done|].
      intros r Hr. by apply list_elem_of_filter in Hr as [_ ?]. }
    destruct (targetBuildingType c);
      try (exists w1; split; [done|]; split; [done|]; by split);
      [destruct (addBuilding_sound w1 (Warehouse.new (Entity.position e).1
                   (Entity.position e).2) Hsound1) as (w' & -> & ? & ? & ?)
      |destruct (addBuilding_sound w1 (Woodcutter.new (Entity.position e).1
                   (Entity.position e).2) Hsound1) as (w' & -> & ? & ? & ?)];
      (exists w'; split; [done|]; split; [done|]; by split).
  - exists w. split; [done|]. split; [done|]. by split.
Qed.

Lemma sound_placement w mode type valid pos :
  world_sound w →
  (mode = true → is_Some type) →
  world_sound
    (SetWorld.placementGridPosition pos
       (SetWorld.placementValid valid
          (SetWorld.placementPreviewMesh mode
             (SetWorld.buildingTypeToPlace type
                (SetWorld.buildingPlacementMode mode w))))).
Proof.
  intros (Hwf & Hcon & Hbld & Hset & Hmesh & Hmode) Htype.
  unfold world_sound, site_of in *. simpl. done.
Qed.

Lemma cancelBuildingPlacement_sound w :
  world_sound w → world_sound (Coordinator.cancelBuildingPlacement w).
Proof.
  intros Hsound. unfold Coordinator.cancelBuildingPlacement.
  destruct (World.buildingPlacementMode w) eqn:Hmode; [|done]. simpl.
  destruct Hsound as (Hwf & Hcon & Hbld & Hset & Hmesh & Htype).
  unfold world_sound, site_of in *. simpl. done.
Qed.

Lemma startBuildingPlacement_sound type w :
  world_sound w → world_sound (Coordinator.startBuildingPlacement type w).
Proof.
  intros Hsound. unfold Coordinator.startBuildingPlacement.
  assert (Hsound1 : world_sound
    (if World.buildingPlacementMode w
     then Coordinator.cancelBuildingPlacement w else w)).
  { destruct (World.buildingPlacementMode w);
      [by apply cancelBuildingPlacement_sound|done]. }
  destruct Hsound1 as (Hwf & Hcon & Hbld & Hset & Hmesh & Htype).
  unfold world_sound, site_of in *. simpl. eauto 10.
Qed.

Lemma updatePlacementPreview_sound w hit :
  world_sound w →
  ∃ w', Coordinator._updatePlacementPreview w hit = Some w' ∧
        world_sound w' ∧ world_extends w w'.
Proof.
  intros Hsound. unfold Coordinator._updatePlacementPreview.
  destruct (World.placementPreviewMesh w) eqn:Hmesh; simpl;
    [|exists w; split; [done|]; split; [done|]; by split].
  destruct hit as [gridPos|];
    [|exists w; split; [done|]; split; [done|]; by split].
  pose proof Hsound as (Hwf & Hcon & Hbld & Hset & Hpm & Htype).
  destruct Htype as [type Htype]; [congruence|].
  destruct (isPlacementValid_site w type gridPos.1 gridPos.2 Hwf Htype)
    as (b & -> & _). simpl.
  eexists. split; [done|]. split; [|by split].
  unfold world_sound, site_of in *. simpl. done.
Qed.

Lemma placeBuilding_sound w :
  world_sound w → World.buildingPlacementMode w = true →
  ∃ w', Coordinator._placeBuilding w = Some w' ∧
        world_sound w' ∧ world_extends w w'.
Proof.
  intros Hsound Hmode. unfold Coordinator._placeBuilding.
  destruct (World.placementValid w); simpl;
    [|exists w; split; [done|]; split; [done|]; by split].
  destruct (World.placementGridPosition w) as [[x y]|];
    [|exists w; split; [done|]; split; [done|]; by split].
  pose proof Hsound as (Hwf & Hcon & Hbld & Hset & Hpm & Htype).
  destruct (Htype Hmode) as [type Hty]. rewrite Hty. simpl.
  assert (Hcons : ∃ consumed,
    consumeResources (World.resources w) (buildingCosts type) = Some consumed).
  { destruct (hasResources (World.resources w) (buildingCosts type)) eqn:Hhas.
    - destruct (consumeResources_accepts _ _ Hhas) as (res' & -> & _).
      by eexists.
    - rewrite (consumeResources_rejects _ _ Hhas). by eexists. }
  destruct Hcons as (consumed & ->). simpl.
  assert (Hsound1 : world_sound (SetWorld.resources consumed.1 w)).
  { apply (sound_sites_kept w); [done|apply sites_kept_resources]. }
  destruct (addConstruction_sound _ x y type Hsound1)
    as (w2 & -> & Hsound2 & [Hlen Hsites] & _). simpl.
  eexists. split; [done|].
  split; [by apply cancelBuildingPlacement_sound|].
  pose proof (cancelBuildingPlacement_fields w2)
    as (_ & _ & Hobj & _ & _ & Hse & _).
  split; [by rewrite Hse|]. unfold site_of in *. rewrite Hobj. done.
Qed.

Lemma onClick_sound w :
  world_sound w →
  ∃ w', Coordinator._onClick w = Some w' ∧ world_sound w' ∧ world_extends w w'.
Proof.
  intros Hsound. unfold Coordinator._onClick.
  destruct (World.buildingPlacementMode w) eqn:Hmode;
    [|exists w; split; [done|]; split; [done|]; by split].
  destruct (World.placementValid w);
    [by apply placeBuilding_sound|exists w; split; [done|]; split; [done|]; by split].
Qed.

Lemma perform_sound_step w ev :
  world_sound w → event_valid w ev →
  ∃ w', Game.perform w ev = Some w' ∧ world_sound w' ∧ world_extends w w'.
Proof.
  intros Hsound Hvalid. destruct ev; simpl in *.
  - by apply updateSettler_sound.
  - by apply fireTimer_sound.
  - by apply updateConstruction_sound.
  - by apply updatePlacementPreview_sound.
  - by apply onClick_sound.
  - eexists. split; [done|].
    split; [by apply startBuildingPlacement_sound|].
    pose proof (startBuildingPlacement_fields type w)
      as (_ & _ & Hobj & _ & _ & Hse & _).
    split; [by rewrite Hse|]. unfold site_of. by rewrite Hobj.
  - eexists. split; [done|].
    split; [by apply cancelBuildingPlacement_sound|].
    pose proof (cancelBuildingPlacement_fields w)
      as (_ & _ & Hobj & _ & _ & Hse & _).
    split; [by rewrite Hse|]. unfold site_of. by rewrite Hobj.
Qed.

Lemma world_extends_trans w1 w2 w3 :
  world_extends w1 w2 → world_extends w2 w3 → world_extends w1 w3.
Proof. intros [? H1] [? H2]. split; [congruence|]. intros ref ?. by apply H2, H1. Qed.

Lemma event_valid_extends w w' ev :
  world_extends w w' → event_valid w ev → event_valid w' ev.
Proof. intros [Hlen Hs]. destruct ev; simpl; try done; try lia. apply Hs. Qed.

Lemma performAll_sound evs : ∀ w,
  world_sound w → Forall (event_valid w) evs →
  ∃ w', Game.performAll w evs = Some w' ∧ world_sound w' ∧ world_extends w w'.
Proof.
  induction evs as [|ev evs IH]; intros w Hsound Hvalid.
  - exists w. split; [done|]. split; [done|]. by split.
  - apply Forall_cons in Hvalid as [Hev Hevs]. simpl.
    destruct (perform_sound_step w ev Hsound Hev) as (w1 & -> & Hsound1 & Hext1).
    simpl. destruct (IH w1 Hsound1) as (w' & -> & Hsound' & Hext').
    { eapply Forall_impl; [done|]. intros ev'. by apply event_valid_extends. }
    exists w'. split; [done|]. split; [done|]. by eapply world_extends_trans.
Qed.

Lemma update_sound_step arrivals hit w :
  world_sound w →
  ∃ w', Game.update arrivals hit w = Some w' ∧
        world_sound w' ∧ world_extends w w'.
Proof.
  intros Hsound. unfold Game.update.
  destruct (performAll_sound (Game.frame_settlers arrivals w) w Hsound)
    as (w1 & -> & Hsound1 & Hext1).
  { unfold Game.frame_settlers. apply Forall_fmap, Forall_forall.
    intros i Hi%elem_of_seq. simpl. lia. }
  simpl.
  destruct (performAll_sound (Game.UpdateConstruction <$> World.constructions w1)
              w1 Hsound1) as (w2 & -> & Hsound2 & Hext2).
  { apply Forall_fmap, Forall_forall. intros ref Href. simpl.
    destruct Hsound1 as (_ & Hcon & _). by apply Hcon. }
  simpl. pose proof (world_extends_trans _ _ _ Hext1 Hext2) as Hext.
  destruct (World.buildingPlacementMode w2); [|by exists w2].
  destruct (perform_sound_step w2 (Game.MovePreview hit) Hsound2 I)
    as (w' & Hw' & Hsound' & Hext').
  exists w'. split; [done|]. split; [done|]. by eapply world_extends_trans.
Qed.

Lemma sound_field : world_sound Examples.field.
Proof.
  split; [apply well_formed_field|].
  split; [intros ref Href; by apply elem_of_nil in Href|].
  split; [intros ref Href; by apply elem_of_nil in Href|].
  split; [intros this ref Hthis; by apply elem_of_nil in Hthis|].
  split; [done|]. discriminate.
Qed.

Lemma command_sound type x y w :
  world_sound w →
  ∃ w', Coordinator.placeBuilding type x y w = Some w' ∧ world_sound w'.
Proof.
  intros Hsound. unfold Coordinator.placeBuilding.
  destruct (updatePlacementPreview_sound
              (Coordinator.startBuildingPlacement type w) (Some (x, y)))
    as (w1 & -> & Hsound1 & _); [by apply startBuildingPlacement_sound|].
  simpl. destruct (onClick_sound w1 Hsound1) as (w' & -> & Hsound' & _).
  by exists w'.
Qed.

Lemma sound_settlers w l res :
  world_sound w →
  Forall (λ this, Settler.targetConstruction this = None) l →
  world_sound (SetWorld.settlers l (SetWorld.resources res w)).
Proof.
  intros (Hwf & Hcon & Hbld & Hset & Hmesh & Hmode) Hl.
  rewrite Forall_forall in Hl.
  split; [done|]. split; [done|]. split; [done|].
  split; [|done]. intros this ref Hthis Htarget. simpl in Hthis.
  by rewrite (Hl this Hthis) in Htarget.
Qed.

Lemma camp_sound extra w : Examples.camp extra = Some w → world_sound w.
Proof.
  unfold Examples.camp, Examples.site_placed.
  destruct (addBuilding_sound Examples.field (Warehouse.new 1 1) sound_field)
    as (w1 & -> & Hsound1 & _).
  simpl.
  destruct (command_sound WOODCUTTER 3 1 w1 Hsound1) as (w2 & -> & Hsound2).
  simpl. intros [= <-]. apply sound_settlers; [done|]. by repeat constructor.
Qed.

(** X25: in a world whose references lead to objects, every event that
    names a settler or a construction site of the world, every frame of
    [World.update] and every number of frames run to the end, and the world
    they leave is again such a world, with the same number of settlers and
    every construction site still in the store. *)
Theorem frame_loop_sound w :
  world_sound w →
  (∀ ev, event_valid w ev →
     ∃ w', Game.perform w ev = Some w' ∧ world_sound w' ∧ world_extends w w') ∧
  (∀ arrivals hit,
     ∃ w', Game.update arrivals hit w = Some w' ∧
           world_sound w' ∧ world_extends w w') ∧
  (∀ n, ∃ w', Game.frames n w = Some w' ∧ world_sound w' ∧ world_extends w w').
Proof.
  intros Hsound.
  split; [intros ev Hev; by apply perform_sound_step|].
  split; [intros arrivals hit; by apply update_sound_step|].
  intros n. revert w Hsound. induction n as [|n IH]; intros w Hsound.
  - exists w. split; [done|]. split; [done|]. by split.
  - cbn [Game.frames].
    destruct (update_sound_step (λ _, None) None w Hsound)
      as (w1 & -> & Hsound1 & Hext1).
    cbn [mbind option_bind].
    destruct (IH w1 Hsound1) as (w' & -> & Hsound' & Hext').
    exists w'. split; [done|]. split; [done|]. by eapply world_extends_trans.
Qed.

Lemma frame_loop_sound_witness :
  ∃ w w', Examples.camp 0 = Some w ∧ Game.frames 7 w = Some w' ∧
    world_sound w' ∧ world_extends w w'.
Proof.
  destruct (Examples.camp 0) as [w|] eqn:Hw;
    [|vm_compute in Hw; discriminate Hw].
  exists w.
  destruct (frame_loop_sound w (camp_sound 0 w Hw)) as (_ & _ & Hframes).
  destruct (Hframes 7%nat) as (w' & Hrun & Hsound' & Hext).
  exists w'. split; [reflexivity|]. split; [exact Hrun|].
  split; [exact Hsound'|exact Hext].
Defined.

End LoopFacts.

Module GrowthFacts.
Import ResourceManager LedgerProofs SimProofs Allocation.

Lemma allocation_grows_refl c : allocation_grows c c.
Proof. unfold allocation_grows. split; [done|]. split; [done|]. intros r. lia. Qed.

Lemma sites_grow_objects w w' :
  World.objects w' = World.objects w → sites_grow w w'.
Proof.
  intros Hobj ref e c Hsite. exists e, c. unfold site_of in *.
  rewrite Hobj. split; [done|apply allocation_grows_refl].
Qed.

Lemma sites_grow_trans w1 w2 w3 :
  sites_grow w1 w2 → sites_grow w2 w3 → sites_grow w1 w3.
Proof.
  intros H1 H2 ref e c Hsite.
  destruct (H1 ref e c Hsite) as (e2 & c2 & Hsite2 & Ht2 & Hr2 & Ha2).
  destruct (H2 ref e2 c2 Hsite2) as (e3 & c3 & Hsite3 & Ht3 & Hr3 & Ha3).
  exists e3, c3. split; [done|]. split; [congruence|]. split; [congruence|].
  intros r. specialize (Ha2 r). specialize (Ha3 r). lia.
Qed.

Lemma sites_grow_update_site f ref w :
  (∀ e c, site_of w ref = Some (e, c) → allocation_grows c (f c)) →
  sites_grow w (update_site f ref w).
Proof.
  intros Hf r e c Hsite. unfold site_of, update_site in *. simpl.
  destruct (decide (ref = r)) as [<-|Hne].
  - rewrite lookup_alter_eq.
    destruct (World.objects w !! ref) as [e0|] eqn:He0; [|done].
    simpl in *. destruct (Entity.site e0) as [c0|] eqn:Hc0; [|done].
    simpl in *. injection Hsite as <- <-.
    eexists _, _. split; [done|]. by apply (Hf e0 c0).
  - rewrite lookup_alter_ne by done. exists e, c.
    split; [done|apply allocation_grows_refl].
Qed.

Lemma sites_grow_insert w w' (new : nat) e0 :
  World.objects w' = <[new := e0]> (World.objects w) →
  World.objects w !! new = None → sites_grow w w'.
Proof.
  intros Hobj Hfresh ref e c Hsite. exists e, c.
  split; [|apply allocation_grows_refl]. unfold site_of in *. rewrite Hobj.
  destruct (decide (new = ref)) as [<-|Hne].
  - by rewrite Hfresh in Hsite.
  - by rewrite lookup_insert_ne.
Qed.

Lemma walk_to_carries w goal this this1 :
  SettlerOps.walk_to w goal this = Some this1 →
  Settler.carriedAmount this1 = Settler.carriedAmount this.
Proof.
  unfold SettlerOps.walk_to. intros H.
  destruct (PathFinder.findPath _ _ _ _ _); [|done]. simpl in H.
  repeat case_bool_decide; by injection H as <-.
Qed.

Lemma deliver_grows w this w1 this1 :
  carries_unit this →
  Porter._deliverResourceToConstruction w this = Some (w1, this1) →
  carries_unit this1 ∧ sites_grow w w1 ∧ World.settlers w1 = World.settlers w.
Proof.
  unfold carries_unit. intros Hcarry H.
  unfold Porter._deliverResourceToConstruction in H.
  destruct (Settler.targetConstruction this) as [ref|].
  2: { injection H as <- <-. split; [simpl; lia|].
       split; [by apply sites_grow_objects|done]. }
  case_bool_decide.
  { injection H as <- <-. split; [simpl; lia|].
    split; [by apply sites_grow_objects|done]. }
  destruct (site_of w ref) as [[e c]|] eqn:Hsite; [|done]. simpl in H.
  destruct (within _ _ _ _).
  - assert (Hgrow : sites_grow w
      (update_site
         (set_allocatedResources
            (<[carried_key (Settler.carriedResource this) :=
                 default 0 (allocatedResources c
                            !! carried_key (Settler.carriedResource this))
                 + Settler.carriedAmount this]> (allocatedResources c)))
         ref w)).
    { apply sites_grow_update_site. intros e' c' Hsite'.
      assert (c' = c) as -> by congruence.
      split; [done|]. split; [done|]. intros r. unfold amount. simpl.
      destruct (decide (carried_key (Settler.carriedResource this) = r))
        as [<-|Hne].
      - rewrite lookup_insert_eq. simpl. lia.
      - rewrite lookup_insert_ne by done. lia. }
    destruct (negb _); injection H as <- <-; (split; [simpl; lia|]);
      (split; [done|done]).
  - destruct (SettlerOps.walk_to _ _ _) as [this'|] eqn:Hwalk; [|done].
    simpl in H. injection H as <- <-.
    rewrite (walk_to_carries _ _ _ _ Hwalk).
    split; [done|]. split; [by apply sites_grow_objects|done].
Qed.

Lemma fetch_grows w this w1 this1 :
  carries_unit this →
  Porter._fetchResourceFromWarehouse w this = Some (w1, this1) →
  carries_unit this1 ∧ sites_grow w w1 ∧ World.settlers w1 = World.settlers w.
Proof.
  unfold carries_unit. intros Hcarry H.
  unfold Porter._fetchResourceFromWarehouse in H.
  destruct (mapM _ _) as [bs|]; [|done]. simpl in H.
  destruct (list_find _ bs) as [[i warehouse]|].
  2: { injection H as <- <-. split; [done|].
       split; [by apply sites_grow_objects|done]. }
  destruct (match Settler.targetConstruction this with
            | Some ref => Some <$> site_of w ref
            | None => Some None
            end) as [target|]; [|done]. simpl in H.
  destruct (match target with Some t => _ | None => false end).
  { injection H as <- <-. split; [simpl; lia|].
    split; [by apply sites_grow_objects|done]. }
  destruct (within _ _ _ _).
  - destruct (0 <? _); injection H as <- <-; (split; [simpl; lia|]);
      (split; [by apply sites_grow_objects|done]).
  - injection H as <- <-. split; [done|].
    split; [by apply sites_grow_objects|done].
Qed.

Lemma find_carries w this this1 :
  Porter._findConstructionInNeedOfResources w this = Some this1 →
  Settler.carriedAmount this1 = Settler.carriedAmount this.
Proof.
  unfold Porter._findConstructionInNeedOfResources. intros H.
  destruct (sites w); [|done]. simpl in H.
  case_bool_decide; [|by injection H as <-].
  destruct (match list_find _ _ with Some _ => _ | None => _ end); [|done].
  simpl in H. injection H as <-. by destruct (Porter.first_missing _).
Qed.

Lemma porter_handle_grows w this w1 this1 :
  carries_unit this →
  Porter.handle w this = Some (w1, this1) →
  carries_unit this1 ∧ sites_grow w w1 ∧ World.settlers w1 = World.settlers w.
Proof.
  intros Hcarry. unfold Porter.handle. repeat case_bool_decide.
  - destruct (Porter._findConstructionInNeedOfResources w this) as [this'|]
      eqn:Hfind; [|done].
    simpl. intros [= <- <-]. unfold carries_unit.
    rewrite (find_carries _ _ _ Hfind).
    split; [done|]. split; [by apply sites_grow_objects|done].
  - by apply fetch_grows.
  - by apply deliver_grows.
  - intros [= <- <-]. split; [done|].
    split; [by apply sites_grow_objects|done].
Qed.

Lemma moveToTarget_carries arrived this :
  Settler.carriedAmount (SettlerOps._moveToTarget arrived this)
  = Settler.carriedAmount this.
Proof. by destruct arrived. Qed.

Lemma porter_update_grows arrived w this w1 this1 :
  carries_unit this →
  Porter.update arrived w this = Some (w1, this1) →
  carries_unit this1 ∧ sites_grow w w1 ∧ World.settlers w1 = World.settlers w.
Proof.
  intros Hcarry. unfold Porter.update.
  destruct (SettlerOps.moving this); [|by apply porter_handle_grows].
  intros [= <- <-]. unfold carries_unit. rewrite moveToTarget_carries.
  split; [done|]. split; [by apply sites_grow_objects|done].
Qed.

Lemma porter_retry_grows w this w1 this1 :
  carries_unit this →
  Porter.retry w this = Some (w1, this1) →
  carries_unit this1 ∧ sites_grow w w1 ∧ World.settlers w1 = World.settlers w.
Proof.
  intros Hcarry. unfold Porter.retry. repeat case_bool_decide.
  - destruct (Porter._findConstructionInNeedOfResources w this) as [this'|]
      eqn:Hfind; [|done].
    simpl. intros [= <- <-]. unfold carries_unit.
    rewrite (find_carries _ _ _ Hfind).
    split; [done|]. split; [by apply sites_grow_objects|done].
  - by apply fetch_grows.
  - intros [= <- <-]. split; [done|].
    split; [by apply sites_grow_objects|done].
Qed.

Lemma builder_find_carries w this this1 :
  Builder._findConstructionToBuild w this = Some this1 →
  Settler.carriedAmount this1 = Settler.carriedAmount this.
Proof.
  unfold Builder._findConstructionToBuild. intros H.
  destruct (sites w); [|done]. simpl in H.
  case_bool_decide; [|by injection H as <-].
  destruct (closest_from _ _ _); [|done]. simpl in H. by injection H as <-.
Qed.

Lemma builder_update_grows arrived w this w1 this1 :
  carries_unit this →
  Builder.update arrived w this = Some (w1, this1) →
  carries_unit this1 ∧ sites_grow w w1 ∧ World.settlers w1 = World.settlers w.
Proof.
  unfold carries_unit. intros Hcarry. unfold Builder.update.
  destruct (SettlerOps.moving this).
  { intros [= <- <-]. rewrite moveToTarget_carries.
    split; [done|]. split; [by apply sites_grow_objects|done]. }
  unfold Builder.handle. repeat case_bool_decide.
  - destruct (Builder._findConstructionToBuild w this) as [this'|] eqn:Hfind;
      [|done].
    simpl. intros [= <- <-]. rewrite (builder_find_carries _ _ _ Hfind).
    split; [done|]. split; [by apply sites_grow_objects|done].
  - unfold Builder._moveToConstruction. intros Hres.
    assert (w1 = w ∧ Settler.carriedAmount this1 = Settler.carriedAmount this)
      as [-> ->].
    { repeat (simplify_option_eq; try case_match); done. }
    split; [done|]. split; [by apply sites_grow_objects|done].
  - unfold Builder._performBuilding. intros Hres.
    destruct (Settler.targetConstruction this) as [ref|].
    2: { injection Hres as <- <-. split; [done|].
         split; [by apply sites_grow_objects|done]. }
    case_bool_decide.
    { injection Hres as <- <-. split; [done|].
      split; [by apply sites_grow_objects|done]. }
    simpl in Hres. destruct (_ <=? _).
    + destruct (site_of w ref); [|done]. simpl in Hres.
      injection Hres as <- <-.
      split; [done|]. split; [|done].
      apply sites_grow_update_site. intros e c _. by split.
    + injection Hres as <- <-. split; [done|].
      split; [by apply sites_grow_objects|done].
  - intros [= <- <-]. split; [done|].
    split; [by apply sites_grow_objects|done].
Qed.

(** Storing the settler back keeps the bound on what settlers carry. *)
Lemma store_carries w1 this1 (i : nat) :
  (∀ this, this ∈ World.settlers w1 → carries_unit this) →
  carries_unit this1 →
  ∀ this, this ∈ <[i := this1]> (World.settlers w1) → carries_unit this.
Proof.
  intros Hall H1 this [j Hj]%list_elem_of_lookup.
  destruct (decide (i = j)) as [<-|Hne].
  - destruct (decide (i < length (World.settlers w1))%nat) as [Hlt|Hge].
    + rewrite list_lookup_insert_eq in Hj by done. by injection Hj as <-.
    + rewrite list_insert_ge in Hj by lia.
      apply Hall. by eapply list_elem_of_lookup_2.
  - rewrite list_lookup_insert_ne in Hj by done.
    apply Hall. by eapply list_elem_of_lookup_2.
Qed.

Lemma addBuilding_grows w e w' :
  Coordinator.addBuilding w e = Some w' →
  sites_grow w w' ∧ World.settlers w' = World.settlers w.
Proof.
  intros H. pose proof (addBuilding_objects _ _ _ H) as Hobj. split.
  - apply (sites_grow_insert w w' _ e Hobj).
    apply not_elem_of_dom. unfold Coordinator.new_ref. apply is_fresh.
  - unfold Coordinator.addBuilding in H. by simplify_option_eq.
Qed.

Lemma addConstruction_grows w e w' :
  Coordinator.addConstruction w e = Some w' →
  sites_grow w w' ∧ World.settlers w' = World.settlers w.
Proof.
  intros H. pose proof (addConstruction_objects _ _ _ H) as Hobj. split.
  - apply (sites_grow_insert w w' _ e Hobj).
    apply not_elem_of_dom. unfold Coordinator.new_ref. apply is_fresh.
  - unfold Coordinator.addConstruction in H. by simplify_option_eq.
Qed.

Lemma updateConstruction_grows w ref w' :
  Coordinator.updateConstruction w ref = Some w' →
  sites_grow w w' ∧ World.settlers w' = World.settlers w.
Proof.
  unfold Coordinator.updateConstruction, Coordinator.completeConstruction.
  intros H. destruct (site_of w ref) as [[e c]|]; [|done]. simpl in H.
  destruct (100 <=? progress c);
    [|injection H as <-; split; [by apply sites_grow_objects|done]].
  destruct (targetBuildingType c);
    try (injection H as <-; split; [by apply sites_grow_objects|done]);
    apply addBuilding_grows in H as [Hg Hs];
    (split; [|done]);
    (eapply sites_grow_trans; [|done]); by apply sites_grow_objects.
Qed.

Lemma onClick_grows w w' :
  Coordinator._onClick w = Some w' →
  sites_grow w w' ∧ World.settlers w' = World.settlers w.
Proof.
  unfold Coordinator._onClick, Coordinator._placeBuilding. intros H.
  destruct (World.buildingPlacementMode w);
    [|injection H as <-; split; [by apply sites_grow_objects|done]].
  destruct (World.placementValid w); simpl in H;
    [|injection H as <-; split; [by apply sites_grow_objects|done]].
  destruct (World.placementGridPosition w) as [[x y]|];
    [|injection H as <-; split; [by apply sites_grow_objects|done]].
  destruct (World.buildingTypeToPlace w) as [type|]; [|done]. simpl in H.
  destruct (consumeResources _ _) as [consumed|]; [|done]. simpl in H.
  destruct (Coordinator.addConstruction _ _) as [w2|] eqn:Hadd; [|done].
  simpl in H. injection H as <-.
  apply addConstruction_grows in Hadd as [Hg Hs].
  pose proof (cancelBuildingPlacement_fields w2)
    as (_ & _ & Hobj & _ & _ & Hse & _).
  split; [|by rewrite Hse].
  eapply sites_grow_trans; [|by apply sites_grow_objects].
  eapply sites_grow_trans; [|done]. by apply sites_grow_objects.
Qed.

Lemma perform_grows w ev w' :
  (∀ this, this ∈ World.settlers w → carries_unit this) →
  Game.perform w ev = Some w' →
  (∀ this, this ∈ World.settlers w' → carries_unit this) ∧ sites_grow w w'.
Proof.
  intros Hcarry H. destruct ev; simpl in H.
  - unfold Game.updateSettler in H.
    destruct (World.settlers w !! i) as [this|] eqn:Hthis; [|done].
    simpl in H.
    assert (Hthis' : carries_unit this)
      by (apply Hcarry; by eapply list_elem_of_lookup_2).
    destruct (match Settler.type this with
              | PORTER => Porter.update arrived w this
              | BUILDER => Builder.update arrived w this
              end) as [[w1 this1]|] eqn:Hstep; [|done].
    simpl in H. injection H as <-.
    assert (carries_unit this1 ∧ sites_grow w w1 ∧
            World.settlers w1 = World.settlers w) as (H1 & Hg & Hs).
    { destruct (Settler.type this);
        [by eapply porter_update_grows|by eapply builder_update_grows]. }
    split.
    + simpl. apply store_carries; [|done]. by rewrite Hs.
    + eapply sites_grow_trans; [done|]. by apply sites_grow_objects.
  - unfold Game.fireTimer in H.
    destruct (World.settlers w !! i) as [this|] eqn:Hthis; [|done].
    simpl in H.
    assert (Hthis' : carries_unit this)
      by (apply Hcarry; by eapply list_elem_of_lookup_2).
    destruct (match t with
              | Game.Retry => _ | Game.PathTimer => _ | Game.LegTimer => _
              end) as [[w1 this1]|] eqn:Hstep; [|done].
    simpl in H. injection H as <-.
    assert (carries_unit this1 ∧ sites_grow w w1 ∧
            World.settlers w1 = World.settlers w) as (H1 & Hg & Hs).
    { destruct t.
      - destruct (Settler.type this); [by eapply porter_retry_grows|].
        unfold Builder.retry in Hstep. case_bool_decide.
        + destruct (Builder._findConstructionToBuild w this) as [this'|]
            eqn:Hfind; [|done].
          simpl in Hstep. injection Hstep as <- <-. unfold carries_unit.
          rewrite (builder_find_carries _ _ _ Hfind).
          split; [done|]. split; [by apply sites_grow_objects|done].
        + simpl in Hstep. injection Hstep as <- <-.
          split; [done|]. split; [by apply sites_grow_objects|done].
      - injection Hstep as <- <-. split.
        + unfold SettlerOps.path_timer. by destruct (Settler.path this).
        + split; [by apply sites_grow_objects|done].
      - injection Hstep as <- <-. split.
        + unfold SettlerOps.leg_timer, SettlerOps.path_timer.
          by destruct (Settler.isMoving this), (Settler.path this).
        + split; [by apply sites_grow_objects|done]. }
    split.
    + simpl. apply store_carries; [|done]. by rewrite Hs.
    + eapply sites_grow_trans; [done|]. by apply sites_grow_objects.
  - apply updateConstruction_grows in H as [Hg Hs]. by rewrite Hs.
  - unfold Coordinator._updatePlacementPreview in H.
    assert (World.objects w' = World.objects w ∧
            World.settlers w' = World.settlers w) as [Hobj Hs].
    { repeat (simplify_option_eq; try case_match); done. }
    rewrite Hs. split; [done|]. by apply sites_grow_objects.
  - apply onClick_grows in H as [Hg Hs]. by rewrite Hs.
  - injection H as <-.
    pose proof (startBuildingPlacement_fields type w)
      as (_ & _ & Hobj & _ & _ & Hse & _).
    rewrite Hse. split; [done|]. by apply sites_grow_objects.
  - injection H as <-.
    pose proof (cancelBuildingPlacement_fields w)
      as (_ & _ & Hobj & _ & _ & Hse & _).
    rewrite Hse. split; [done|]. by apply sites_grow_objects.
Qed.

(** X26: while every settler carries nothing or one unit, any sequence of
    events that runs to the end keeps it so, keeps every construction site
    in the store with its target type and requirements, and lowers no
    allocated amount of any site. *)
Theorem allocation_never_decreases evs : ∀ w w',
  (∀ this, this ∈ World.settlers w → carries_unit this) →
  Game.performAll w evs = Some w' →
  (∀ this, this ∈ World.settlers w' → carries_unit this) ∧ sites_grow w w'.
Proof.
  induction evs as [|ev evs IH]; intros w w' Hcarry Hrun.
  - injection Hrun as <-. split; [done|]. by apply sites_grow_objects.
  - cbn [Game.performAll] in Hrun.
    destruct (Game.perform w ev) as [w1|] eqn:Hstep; [|done].
    cbn [mbind option_bind] in Hrun.
    destruct (perform_grows w ev w1 Hcarry Hstep) as [Hcarry1 Hgrow1].
    destruct (IH w1 w' Hcarry1 Hrun) as [Hcarry' Hgrow'].
    split; [done|]. by eapply sites_grow_trans.
Qed.

Lemma allocation_never_decreases_witness :
  ∃ w w', Examples.camp 0 = Some w ∧
    Game.performAll w
      [Game.UpdateSettler 0 None; Game.UpdateSettler 1 None;
       Game.UpdateSettler 0 None; Game.Timer Game.Retry 2;
       Game.UpdateConstruction 1] = Some w' ∧
    sites_grow w w'.
Proof.
  destruct (Examples.camp 0) as [w|] eqn:Hw;
    [|vm_compute in Hw; discriminate Hw].
  exists w.
  assert (Hcarry : ∀ this, this ∈ World.settlers w → carries_unit this).
  { vm_compute in Hw. injection Hw as <-. intros this Hin.
    repeat (apply elem_of_cons in Hin as [->|Hin];
            [unfold carries_unit; simpl; lia|]).
    by apply elem_of_nil in Hin. }
  destruct (Game.performAll w
              [Game.UpdateSettler 0 None; Game.UpdateSettler 1 None;
               Game.UpdateSettler 0 None; Game.Timer Game.Retry 2;
               Game.UpdateConstruction 1]) as [w'|] eqn:Hrun.
  - exists w'. split; [reflexivity|]. split; [reflexivity|].
    exact (proj2 (allocation_never_decreases _ w w' Hcarry Hrun)).
  - vm_compute in Hw. injection Hw as <-. vm_compute in Hrun.
    discriminate Hrun.
Defined.

End GrowthFacts.

(** ** The placement and the state of the preview *)

Module PreviewFacts.
Import ResourceManager LedgerProofs PathFinder PathProofs SimProofs LoopFacts.

(** C8 fails: on the meadow a woodcutter is chosen in the build menu, the
    preview is moved to (3,1) and a click places its construction site,
    for 5 of the 10 planks. A second choice of the woodcutter in the menu
    places another construction site on the same, now occupied, tile: the
    click on the menu reaches [_onClick], which finds the mark and the
    position of the last preview, although [_isPlacementValid] refuses the
    tile. After that, with no plank left, [startBuildingPlacement] and a
    click add a third site there and the ledger stays as it is. *)
Theorem placement_on_occupied_tile :
  ∃ w1 w2 w3 w4,
    Coordinator._updatePlacementPreview
      (UIManager.selectBuildingToBuild WOODCUTTER Examples.field)
      (Some (3, 1)) = Some w1 ∧
    Coordinator._onClick w1 = Some w2 ∧
    World.constructions w2 = [0%nat] ∧
    getResource (World.resources w2) "plank" = 5 ∧
    Coordinator._isPlacementValid
      (UIManager.selectBuildingToBuild WOODCUTTER w2) 3 1 = Some false ∧
    UIManager.menu_click WOODCUTTER w2 = Some w3 ∧
    World.constructions w3 = [0%nat; 1%nat] ∧
    Entity.position <$> World.objects w3 !! 0%nat = Some (3, 1) ∧
    Entity.position <$> World.objects w3 !! 1%nat = Some (3, 1) ∧
    getResource (World.resources w3) "plank" = 0 ∧
    Game.performAll w3 [Game.StartPlacement WOODCUTTER; Game.Click] = Some w4 ∧
    World.constructions w4 = [0%nat; 1%nat; 2%nat] ∧
    Entity.position <$> World.objects w4 !! 2%nat = Some (3, 1) ∧
    World.resources w4 = World.resources w3.
Proof.
  eexists _, _, _, _.
  repeat (split; [vm_compute; reflexivity|]). vm_compute. reflexivity.
Qed.

Lemma site_placed_sound w : Examples.site_placed = Some w → world_sound w.
Proof.
  unfold Examples.site_placed.
  destruct (addBuilding_sound Examples.field (Warehouse.new 1 1) sound_field)
    as (w1 & -> & Hsound1 & _).
  simpl.
  destruct (command_sound WOODCUTTER 3 1 w1 Hsound1) as (w2 & -> & Hsound2).
  by intros [= <-].
Qed.

(** X13: in placement mode a preview at [(x, y)] stores the position and
    marks the placement valid exactly when every tile of the footprint is in
    bounds, grass and unoccupied and the ledger covers the cost; so a
    footprint that shares a tile with a building or a construction is marked
    invalid, and the click that follows a preview marked invalid changes
    nothing. *)
Theorem click_after_refused_preview w type x y :
  World.well_formed w →
  World.placementPreviewMesh w = true →
  World.buildingPlacementMode w = true →
  World.buildingTypeToPlace w = Some type →
  ∃ wp, Coordinator._updatePlacementPreview w (Some (x, y)) = Some wp ∧
    World.placementGridPosition wp = Some (x, y) ∧
    (World.placementValid wp = true ↔
     site_free w type x y ∧ covered (World.resources w) (buildingCosts type)) ∧
    (∀ c tile id, c ∈ footprint_cells (x, y) (footprint (Some type)) →
       World.tileAt w c.1 c.2 = Some tile → Tile.building tile = Some id →
       World.placementValid wp = false) ∧
    (World.placementValid wp = false → Coordinator._onClick wp = Some wp).
Proof.
  intros Hwf Hmesh Hmode Htype.
  destruct (isPlacementValid_site w type x y Hwf Htype) as (b & Hvalid & Hb).
  unfold Coordinator._updatePlacementPreview. rewrite Hmesh. simpl.
  rewrite Hvalid. simpl. eexists. split; [done|]. simpl.
  split; [done|]. split; [done|]. split.
  - intros c tile id Hc Htile Hid. destruct b; [|done].
    destruct (proj1 Hb eq_refl) as [Hfree _].
    destruct (Hfree c Hc) as (_ & tile' & Htile' & _ & Hnone).
    congruence.
  - intros ->. unfold Coordinator._onClick. simpl. by rewrite Hmode.
Qed.

Lemma click_after_refused_preview_witness :
  ∃ w wp, Examples.site_placed = Some w ∧
    Coordinator._updatePlacementPreview
      (Coordinator.startBuildingPlacement WAREHOUSE w) (Some (2, 0)) = Some wp ∧
    World.placementValid wp = false ∧
    Coordinator._onClick wp = Some wp.
Proof.
  destruct Examples.site_placed as [w|] eqn:Hw;
    [|vm_compute in Hw; discriminate Hw].
  exists w.
  pose proof (startBuildingPlacement_sound WAREHOUSE w
                (site_placed_sound w Hw)) as (Hwf & _).
  destruct (click_after_refused_preview
              (Coordinator.startBuildingPlacement WAREHOUSE w) WAREHOUSE 2 0
              Hwf eq_refl eq_refl eq_refl)
    as (wp & Hpreview & _ & _ & Hoccupied & Hclick).
  exists wp. split; [reflexivity|]. split; [exact Hpreview|].
  assert (Hvalid : World.placementValid wp = false).
  { vm_compute in Hw. injection Hw as <-.
    eapply (Hoccupied (3, 1)).
    - apply elem_of_footprint_cells. simpl. lia.
    - vm_compute. reflexivity.
    - reflexivity. }
  split; [exact Hvalid|]. exact (Hclick Hvalid).
Defined.

End PreviewFacts.
